(** * Refund contract and its Merkle commitment builder

    A shallow embedding of
      - [contracts/Refund.sol] (the refund ledger: constructor, [claimRefund],
        [withdraw], [receive]),
      - [scripts/merkle.ts] ([generateLeaf], [getProof], [getMerkle]),
      - [scripts/getMerkleRoot.ts] ([main]),
    together with the parts of their dependencies that these files call:
    Keccak-256, the byte and number utilities of ethers v5
    ([arrayify], [hexlify], [zeroPad], [BigNumber.from], [parseUnits],
    [solidityKeccak256]), the [MerkleTree] class of merkletreejs with the
    option [sortPairs], and OpenZeppelin 4 ([MerkleProof], [ReentrancyGuard],
    [Ownable]). *)

From Stdlib Require Import ZArith Lia List Bool Ascii String.
From Stdlib.Strings Require Import Byte.
From Stdlib Require Import Decimal DecimalString DecimalZ DecimalN DecimalPos DecimalFacts.
From stdpp Require Import base option list gmap.

Import ListNotations.
#[local] Open Scope Z_scope.

(** ** Bytes

    A [Buffer] (Node), a [Uint8Array] (ethers) and a Solidity [bytes] value
    are all sequences of octets. *)

Abbreviation Buffer := (list byte).

Definition byte_to_Z (b : byte) : Z := Z.of_N (Byte.to_N b).

Definition byte_of_Z (z : Z) : byte :=
  match Byte.of_N (Z.to_N (Z.land z 255)) with
  | Some b => b
  | None => x00
  end.

(** ** Keccak-256

    The hash behind Solidity's [keccak256], the npm package [keccak256] and
    ethers' [utils.keccak256]: the Keccak sponge with rate 1088 bits,
    capacity 512 bits, the original padding 0x01 .. 0x80 and 32 bytes of
    output. The state is 25 lanes of 64 bits, lane (x, y) at index x + 5 y. *)

Module Keccak.

Definition mask64 : Z := 18446744073709551615.

Definition rotl64 (x : Z) (n : Z) : Z :=
  Z.land (Z.lor (Z.shiftl x n) (Z.shiftr x (64 - n))) mask64.

Definition lane (A : list Z) (i : nat) : Z := nth i A 0.

Definition indices25 : list nat := seq 0 25.

Definition theta (A : list Z) : list Z :=
  let C := fun x => Z.lxor (lane A x) (Z.lxor (lane A (x + 5))
             (Z.lxor (lane A (x + 10)) (Z.lxor (lane A (x + 15)) (lane A (x + 20))))) in
  let D := fun x => Z.lxor (C ((x + 4) mod 5)%nat) (rotl64 (C ((x + 1) mod 5)%nat) 1) in
  map (fun i => Z.lxor (lane A i) (D (i mod 5)%nat)) indices25.

(** Rotation offsets, indexed like the lanes. *)
Definition rho_offsets : list Z :=
  [  0;  1; 62; 28; 27;
    36; 44;  6; 55; 20;
     3; 10; 43; 25; 39;
    41; 45; 15; 21;  8;
    18;  2; 61; 56; 14 ].

(** rho then pi: the lane written at (X, Y) comes from (x, y) with
    x = X + 3 Y mod 5 and y = X. *)
Definition rho_pi (A : list Z) : list Z :=
  map (fun j =>
         let X := (j mod 5)%nat in
         let Y := (j / 5)%nat in
         let src := (((X + 3 * Y) mod 5) + 5 * X)%nat in
         rotl64 (lane A src) (nth src rho_offsets 0)) indices25.

Definition chi (B : list Z) : list Z :=
  map (fun i =>
         let x := (i mod 5)%nat in
         let row := (5 * (i / 5))%nat in
         Z.lxor (lane B i)
                (Z.land (Z.lxor (lane B (((x + 1) mod 5) + row)) mask64)
                        (lane B (((x + 2) mod 5) + row)))) indices25.

Definition iota (rc : Z) (A : list Z) : list Z :=
  match A with
  | [] => []
  | a :: A' => Z.lxor a rc :: A'
  end.

Definition round_constants : list Z :=
  [ 0x0000000000000001; 0x0000000000008082; 0x800000000000808a; 0x8000000080008000;
    0x000000000000808b; 0x0000000080000001; 0x8000000080008081; 0x8000000000008009;
    0x000000000000008a; 0x0000000000000088; 0x0000000080008009; 0x000000008000000a;
    0x000000008000808b; 0x800000000000008b; 0x8000000000008089; 0x8000000000008003;
    0x8000000000008002; 0x8000000000000080; 0x000000000000800a; 0x800000008000000a;
    0x8000000080008081; 0x8000000000008080; 0x0000000080000001; 0x8000000080008008 ].

Definition round (A : list Z) (rc : Z) : list Z := iota rc (chi (rho_pi (theta A))).

Definition keccak_f1600 (A : list Z) : list Z := fold_left round round_constants A.

Definition rate : nat := 136.

(** pad10*1 with the Keccak domain byte 0x01. *)
Definition pad (msg : Buffer) : Buffer :=
  let padlen := (rate - (length msg mod rate))%nat in
  match padlen with
  | 1%nat => msg ++ [x81]
  | _ => msg ++ [x01] ++ repeat x00 (padlen - 2) ++ [x80]
  end.

(** Little-endian value of up to eight bytes. *)
Fixpoint le_value (bs : Buffer) : Z :=
  match bs with
  | [] => 0
  | b :: bs' => byte_to_Z b + 256 * le_value bs'
  end.

Definition lane_bytes (x : Z) : Buffer :=
  map (fun k => byte_of_Z (Z.shiftr x (8 * Z.of_nat k))) (seq 0 8).

(** XOR one block of [rate] bytes into the first 17 lanes. *)
Definition xor_block (A : list Z) (block : Buffer) : list Z :=
  map (fun i =>
         if (i <? 17)%nat
         then Z.lxor (lane A i) (le_value (firstn 8 (skipn (8 * i) block)))
         else lane A i) indices25.

Fixpoint absorb (blocks : nat) (p : Buffer) (A : list Z) : list Z :=
  match blocks with
  | O => A
  | S n => absorb n (skipn rate p) (keccak_f1600 (xor_block A (firstn rate p)))
  end.

Definition squeeze (A : list Z) : Buffer :=
  flat_map (fun i => lane_bytes (lane A i)) (seq 0 4).

Definition keccak256 (msg : Buffer) : Buffer :=
  let p := pad msg in
  squeeze (absorb (length p / rate) p (repeat 0 25)).

End Keccak.

Definition keccak256 : Buffer -> Buffer := Keccak.keccak256.

Arguments Keccak.keccak256 : simpl never.
Arguments keccak256 : simpl never.

(** ** Exceptions and reverts

    A JavaScript call either returns or throws; a Solidity call either
    returns or reverts with a reason string. *)

Inductive result (A : Type) : Type :=
| Ok (a : A)
| Throw (msg : string).
Arguments Ok {A} a.
Arguments Throw {A} msg.

#[global] Instance result_ret : MRet result := fun A a => Ok a.
#[global] Instance result_bind : MBind result := fun A B f r =>
  match r with
  | Ok a => f a
  | Throw msg => Throw msg
  end.
#[global] Instance result_fmap : FMap result := fun A B f r =>
  match r with
  | Ok a => Ok (f a)
  | Throw msg => Throw msg
  end.

(** [Array.prototype.map] with a callback that may throw. *)
Fixpoint mapM_result {A B : Type} (f : A -> result B) (l : list A) : result (list B) :=
  match l with
  | [] => Ok []
  | a :: l' => b ← f a; bs ← mapM_result f l'; Ok (b :: bs)
  end.

(** ** Hexadecimal strings (ethers [bytes], Node [Buffer]) *)

Module Hex.

#[local] Open Scope char_scope.

(** The value of a hexadecimal digit, by its character code: 0-9, a-f or
    A-F. *)
Definition nibble_of_ascii (c : ascii) : option Z :=
  let code := Z.of_nat (nat_of_ascii c) in
  (if (48 <=? code) && (code <=? 57) then Some (code - 48)
   else if (97 <=? code) && (code <=? 102) then Some (code - 87)
   else if (65 <=? code) && (code <=? 70) then Some (code - 55)
   else None)%Z.

Definition ascii_of_nibble (n : Z) : ascii :=
  nth (Z.to_nat n)
      ["0"; "1"; "2"; "3"; "4"; "5"; "6"; "7"; "8"; "9"; "a"; "b"; "c"; "d"; "e"; "f"] "0".

Definition is_hex_digit (c : ascii) : bool := bool_decide (is_Some (nibble_of_ascii c)).

Fixpoint all_hex (s : string) : bool :=
  match s with
  | EmptyString => true
  | String c s' => is_hex_digit c && all_hex s'
  end.

(** [parseInt(hex.substring(i, i + 2), 16)] on two hexadecimal digits; the
    lenient decoding of [Buffer.from(s, "hex")] stops at the first pair that
    is not hexadecimal. *)
Fixpoint decode_pairs (s : string) : Buffer :=
  match s with
  | String a (String b s') =>
      match nibble_of_ascii a, nibble_of_ascii b with
      | Some h, Some l => byte_of_Z (16 * h + l) :: decode_pairs s'
      | _, _ => []
      end
  | _ => []
  end.

Fixpoint encode_pairs (bs : Buffer) : string :=
  match bs with
  | [] => EmptyString
  | b :: bs' =>
      String (ascii_of_nibble (byte_to_Z b / 16))
        (String (ascii_of_nibble (byte_to_Z b mod 16)) (encode_pairs bs'))
  end.

End Hex.

(** [buf.toString("hex")] *)
Definition Buffer_toString_hex (b : Buffer) : string := Hex.encode_pairs b.

(** [Buffer.from(s, "hex")] *)
Definition Buffer_from_hex (s : string) : Buffer := Hex.decode_pairs s.

(** ethers [isHexString(value)]: the regular expression [^0x[0-9A-Fa-f]*$]. *)
Definition isHexString (value : string) : bool :=
  match value with
  | String "0" (String "x" hex) => Hex.all_hex hex
  | _ => false
  end.

(** ethers [arrayify(value)] on a string, with no options. *)
Definition arrayify (value : string) : result Buffer :=
  if isHexString value then
    let hex := substring 2 (String.length value - 2) value in
    if Nat.odd (String.length hex) then Throw "hex data is odd-length"
    else Ok (Hex.decode_pairs hex)
  else Throw "invalid arrayify value".

(** ethers [hexlify(bytes)]; also merkletreejs' [bufferToHex]. *)
Definition hexlify (b : Buffer) : string := ("0x" ++ Hex.encode_pairs b)%string.

(** [s.slice(2)] *)
Definition slice2 (s : string) : string := substring 2 (String.length s - 2) s.

(** ** Big-endian numbers *)

(** The unsigned value of a byte sequence read most significant byte first;
    the EVM compares [bytes32] values by it. *)
Definition be_value (b : Buffer) : Z :=
  fold_left (fun acc x => 256 * acc + byte_to_Z x) b 0.

(** The [n] low-order bytes of [v], most significant first: what
    [abi.encodePacked] emits for a [uintN] or an [address]. *)
Definition be_bytes (n : nat) (v : Z) : Buffer :=
  map (fun k => byte_of_Z (Z.shiftr v (8 * Z.of_nat (n - 1 - k)))) (seq 0 n).

(** Number of bytes of the hexadecimal form of a non-negative [BigNumber]:
    ethers keeps an even number of digits and at least one byte. *)
Definition byte_length (v : Z) : nat :=
  if v =? 0 then 1%nat else Z.to_nat (Z.log2 v / 8 + 1).

(** ** ethers v5 [BigNumber]

    A [BigNumber] is an arbitrary-precision integer. *)

Module BigNumber.

(** The text of a number string after its minus sign, if it has one. *)
Definition is_negative (value : string) : bool :=
  match value with
  | String c _ => Ascii.eqb c "-"%char
  | EmptyString => false
  end.

Definition unsigned_part (value : string) : string :=
  match value with
  | String c rest => if Ascii.eqb c "-"%char then rest else value
  | EmptyString => value
  end.

(** The pattern [/^-?0x[0-9a-f]+$/i] of [BigNumber.from]: with the flag
    [i] the prefix is matched in either case, 0x or 0X. *)
Definition matches_hex (value : string) : bool :=
  match unsigned_part value with
  | String c (String x hex) =>
      Ascii.eqb c "0"%char && (Ascii.eqb x "x"%char || Ascii.eqb x "X"%char)
      && negb (String.eqb hex "") && Hex.all_hex hex
  | _ => false
  end.

(** The loop [while (value.length > 4 && value.substring(0, 4) === "0x00")]
    of ethers' [toHex], on the text after "0x". *)
Fixpoint trim_zero_bytes (hex : string) : string :=
  match hex with
  | String a (String b rest) =>
      if Ascii.eqb a "0"%char && Ascii.eqb b "0"%char && negb (String.eqb rest "")
      then trim_zero_bytes rest
      else hex
  | _ => hex
  end.

(** ethers' [toHex(value)] for a string without a sign, given as the text
    after the "0x" of its result: the prefix "0x" is added unless the string
    starts with it (in lower case only), an odd number of digits is padded
    with a zero, and leading zero bytes are dropped. *)
Definition toHex_digits (value : string) : string :=
  let digits :=
    match value with
    | String c (String x rest) =>
        if Ascii.eqb c "0"%char && Ascii.eqb x "x"%char then rest else value
    | _ => value
    end in
  if String.eqb digits "" then "00"%string
  else trim_zero_bytes
         (if Nat.odd (String.length digits) then String "0"%char digits else digits).

(** The string that [toBN] hands to bn.js for a [BigNumber] made from a
    string that matched the hexadecimal pattern: the digits of [toHex], after
    a minus sign for a negative value other than zero. *)
Definition hex_literal (value : string) : string :=
  let digits := toHex_digits (unsigned_part value) in
  if is_negative value && negb (String.eqb digits "00") then String "-"%char digits
  else digits.

Fixpoint hex_value (acc : Z) (s : string) : option Z :=
  match s with
  | EmptyString => Some acc
  | String c s' =>
      match Hex.nibble_of_ascii c with
      | Some d => hex_value (16 * acc + d) s'
      | None => None
      end
  end.

(** bn.js 5 [new BN(number, 16)]: a character that is no hexadecimal digit
    fails the assertion of [parseHex4Bits]. *)
Definition BN16 (number : string) : result Z :=
  match hex_value 0 (unsigned_part number) with
  | Some v => Ok (if is_negative number then - v else v)
  | None => Throw ("Invalid character in " ++ number)
  end.

(** The branch [^-?[0-9]+$] of [BigNumber.from]: at least one digit. *)
Definition from_decimal_string (value : string) : option Z :=
  if String.eqb (unsigned_part value) "" then None
  else Z.of_int <$> NilZero.int_of_string value.

(** [BigNumber.from(value)] for a string, read as a number. For a string
    that matches the hexadecimal pattern the constructor keeps the text of
    [toHex]; bn.js parses it when the number is first used ([toTwos] in
    [solidityPack]), and that is where a prefix written 0X fails. *)
Definition from (value : string) : result Z :=
  if matches_hex value then BN16 (hex_literal value)
  else match from_decimal_string value with
       | Some v => Ok v
       | None => Throw "invalid BigNumber string"
       end.

(** [bn.toString()]: decimal digits, with a minus sign when negative. *)
Definition toString (v : Z) : string := NilZero.string_of_int (Z.to_int v).

(** [bn.toTwos(256)]: a non-negative value is returned as it is; a negative
    one goes through bn.js [abs().inotn(256).iaddn(1)], which complements the
    low 256 bits, clears bits 256 to 259 and leaves the higher ones. *)
Definition toTwos256 (v : Z) : Z :=
  if 0 <=? v then v
  else
    let a := Z.abs v in
    (a / 2 ^ 260) * 2 ^ 260 + (2 ^ 256 - 1 - a mod 2 ^ 256) + 1.

(** [arrayify(bn)]: the bytes of [bn.toHexString()] for a non-negative
    value. *)
Definition toBytes (v : Z) : Buffer := be_bytes (byte_length v) v.

End BigNumber.

(** ethers [zeroPad(value, length)] on a non-negative [BigNumber]. *)
Definition zeroPad (v : Z) (length : nat) : result Buffer :=
  let value := BigNumber.toBytes v in
  if (length <? List.length value)%nat then Throw "value out of range"
  else Ok (repeat x00 (length - List.length value) ++ value).

(** ** ethers v5 [utils.parseUnits] *)

Module FixedNumber.

#[local] Open Scope string_scope.

(** [getMultiplier(decimals)]: the string "1" followed by [decimals] zeros,
    for an integer between 0 and 256. *)
Definition getMultiplier (decimals : Z) : result string :=
  if ((0 <=? decimals) && (decimals <=? 256))%Z
  then Ok ("1" ++ string_of_list_ascii (repeat "0"%char (Z.to_nat decimals)))
  else Throw "invalid decimal size".

(** The character class [0-9]. *)
Definition is_digit (c : ascii) : bool :=
  (48 <=? nat_of_ascii c)%nat && (nat_of_ascii c <=? 57)%nat.

(** The character class [0-9.]. *)
Definition is_decimal_char (c : ascii) : bool :=
  bool_decide (c = "."%char) || is_digit c.

Fixpoint all_decimal_chars (s : string) : bool :=
  match s with
  | EmptyString => true
  | String c s' => is_decimal_char c && all_decimal_chars s'
  end.

(** The regular expression [^-?[0-9.]+$]. *)
Definition matches_decimal (value : string) : bool :=
  let body := match value with
              | String c rest => if Ascii.eqb c "-"%char then rest else value
              | EmptyString => value
              end in
  negb (bool_decide (body = "")) && all_decimal_chars body.

(** [value.split(".")] *)
Fixpoint split_dot (s : string) : list string :=
  match s with
  | EmptyString => [EmptyString]
  | String c s' =>
      if bool_decide (c = "."%char) then EmptyString :: split_dot s'
      else match split_dot s' with
           | [] => [String c EmptyString]
           | w :: ws => String c w :: ws
           end
  end.

(** The loop that drops the trailing zeros of the fraction. *)
Fixpoint trim_trailing_zeros (s : string) : string :=
  match s with
  | EmptyString => EmptyString
  | String c s' =>
      match trim_trailing_zeros s' with
      | EmptyString => if bool_decide (c = "0"%char) then EmptyString else String c EmptyString
      | t => String c t
      end
  end.

(** The loop that pads the fraction with zeros up to [n] digits. *)
Definition pad_zeros (fraction : string) (n : nat) : string :=
  fraction ++ string_of_list_ascii (repeat "0"%char (n - String.length fraction)).

Definition parseFixed (value : string) (decimals : Z) : result Z :=
  multiplier ← getMultiplier decimals;
  if negb (matches_decimal value) then Throw "invalid decimal value" else
  let negative := bool_decide (substring 0 1 value = "-") in
  let value := if negative then substring 1 (String.length value - 1) value else value in
  if bool_decide (value = ".") then Throw "missing value" else
  let comps := split_dot value in
  if (2 <? List.length comps)%nat then Throw "too many decimal points" else
  let whole := nth 0 comps "" in
  let fraction := nth 1 comps "" in
  let whole := if bool_decide (whole = "") then "0" else whole in
  let fraction := if bool_decide (fraction = "") then "0" else fraction in
  let fraction := trim_trailing_zeros fraction in
  if (String.length multiplier - 1 <? String.length fraction)%nat
  then Throw "fractional component exceeds decimals" else
  let fraction := if bool_decide (fraction = "") then "0" else fraction in
  let fraction := pad_zeros fraction (String.length multiplier - 1) in
  wholeValue ← BigNumber.from whole;
  fractionValue ← BigNumber.from fraction;
  multiplierValue ← BigNumber.from multiplier;
  let wei := wholeValue * multiplierValue + fractionValue in
  Ok (if negative then wei * -1 else wei).

End FixedNumber.

(** [utils.parseUnits(value, decimals)] with a numeric [decimals]. *)
Definition parseUnits (value : string) (decimals : Z) : result Z :=
  FixedNumber.parseFixed value decimals.

(** ** ethers v5 [utils.solidityKeccak256(["address", "uint256"], [a, v])]

    [solidityPack] packs an "address" with [arrayify] (no length check) and
    a "uint256" as [zeroPad(BigNumber.from(v).toTwos(256), 32)]; the hash of
    the concatenation is returned as a hexadecimal string. *)

Definition solidityPack_address_uint256 (address value : string) : result Buffer :=
  a ← arrayify address;
  n ← BigNumber.from value;
  v ← zeroPad (BigNumber.toTwos256 n) 32;
  Ok (a ++ v).

Definition solidityKeccak256_address_uint256 (address value : string) : result string :=
  packed ← solidityPack_address_uint256 address value;
  Ok (hexlify (keccak256 packed)).

#[global] Instance byte_eq_dec : EqDecision byte := Byte.byte_eq_dec.

(** [Buffer.compare(a, b)]: -1, 0 or 1 by unsigned lexicographic order, a
    proper prefix first. *)
Fixpoint Buffer_compare (a b : Buffer) : Z :=
  match a, b with
  | [], [] => 0
  | [], _ :: _ => -1
  | _ :: _, [] => 1
  | x :: a', y :: b' =>
      if byte_to_Z x <? byte_to_Z y then -1
      else if byte_to_Z y <? byte_to_Z x then 1
      else Buffer_compare a' b'
  end.

(** ** merkletreejs [MerkleTree]

    The class as [merkle.ts] constructs it: a hash function and the option
    [sortPairs]; every other option keeps its default ([hashLeaves],
    [sortLeaves], [duplicateOdd], [isBitcoinTree], [complete] all false), so
    leaves are used as given and an unpaired last node moves up unchanged. *)

Module MerkleTreeJS.

(** The fields of a tree that [getRoot] and [getProof] read, and the option
    it was built with. *)
Record MerkleTree : Type := {
  sortPairs : bool;
  leaves : list Buffer;
  layers : list (list Buffer)
}.

Inductive Position : Type := left_ | right_.

Record ProofItem : Type := { position : Position; data : Buffer }.

Section Construction.

Variable hash : Buffer -> Buffer.
Variable sorted : bool.

(** [combined = [left, right]; if (sortPairs) combined.sort(Buffer.compare)]:
    sorting two elements exchanges them when the comparison is positive. *)
Definition combine (l r : Buffer) : list Buffer :=
  if sorted && (0 <? Buffer_compare l r) then [r; l] else [l; r].

(** One pass of the [for (i = 0; i < nodes.length; i += 2)] loop of
    [createHashes]: the hash of each pair, and the last node of an odd
    layer pushed as it is. *)
Fixpoint nextLayer (nodes : list Buffer) : list Buffer :=
  match nodes with
  | l :: r :: rest => hash (concat (combine l r)) :: nextLayer rest
  | [last] => [last]
  | [] => []
  end.

(** The [while (nodes.length > 1)] loop of [createHashes]; a layer of n > 1
    nodes is followed by one of ceil(n / 2), so [length nodes] iterations
    are never exhausted. *)
Fixpoint createHashes_loop (fuel : nat) (nodes : list Buffer) : list (list Buffer) :=
  match fuel with
  | O => []
  | S fuel' =>
      if (1 <? length nodes)%nat
      then let layer := nextLayer nodes in layer :: createHashes_loop fuel' layer
      else []
  end.

Definition createHashes (nodes : list Buffer) : list (list Buffer) :=
  nodes :: createHashes_loop (length nodes) nodes.

(** [new MerkleTree(leaves, hashFn, { sortPairs })] *)
Definition new (leaves : list Buffer) : MerkleTree :=
  {| sortPairs := sorted; leaves := leaves; layers := createHashes leaves |}.

End Construction.

(** [getRoot()]: the first node of the last layer, or the empty buffer. *)
Definition getRoot (t : MerkleTree) : Buffer :=
  match last (layers t) with
  | Some (root :: _) => root
  | _ => []
  end.

Definition getHexRoot (t : MerkleTree) : string := hexlify (getRoot t).

(** The index search of [getProof]: the loop runs over all leaves without a
    break, so the last leaf equal to [leaf] wins; -1 when there is none. *)
Definition leafIndex (t : MerkleTree) (leaf : Buffer) : Z :=
  fold_left (fun index '(i, l) => if Buffer_compare leaf l =? 0 then Z.of_nat i else index)
            (imap (fun i l => (i, l)) (leaves t)) (-1).

(** One iteration of the walk of [getProof]: the sibling of node [index] in
    [layer], when that position exists. *)
Definition proofStep (layer : list Buffer) (index : Z) : list ProofItem :=
  let isRightNode := index mod 2 in
  let pairIndex := if isRightNode =? 0 then index + 1 else index - 1 in
  if pairIndex <? Z.of_nat (length layer)
  then match layer !! Z.to_nat pairIndex with
       | Some d => [{| position := if isRightNode =? 0 then right_ else left_;
                       data := d |}]
       | None => []
       end
  else [].

(** The walk of [getProof] over all layers, from the leaves up; the index
    moves to the parent, [(index / 2) | 0]. *)
Fixpoint proofWalk (layers : list (list Buffer)) (index : Z) : list ProofItem :=
  match layers with
  | [] => []
  | layer :: layers' => proofStep layer index ++ proofWalk layers' (index / 2)
  end.

Definition getProof (t : MerkleTree) (leaf : Buffer) : list ProofItem :=
  let index := leafIndex t leaf in
  if index <=? -1 then [] else proofWalk (layers t) index.

Definition getHexProof (t : MerkleTree) (leaf : Buffer) : list string :=
  map (fun item => hexlify (data item)) (getProof t leaf).

End MerkleTreeJS.

(** ** [scripts/merkle.ts] *)

Definition generateLeaf (address value : string) : result Buffer :=
  h ← solidityKeccak256_address_uint256 address value;
  Ok (Buffer_from_hex (slice2 h)).

(** The leaf of a table entry, as [getMerkle] and [getProof] both compute
    it: [generateLeaf(address, parseUnits(tokens, decimals).toString())]. *)
Definition entryLeaf (decimals : Z) (address tokens : string) : result Buffer :=
  units ← parseUnits tokens decimals;
  generateLeaf address (BigNumber.toString units).

Definition getProof (merkle : MerkleTreeJS.MerkleTree) (address value : string)
    (decimals : Z) : result (list string) :=
  units ← parseUnits value decimals;
  leaf ← generateLeaf address (BigNumber.toString units);
  Ok (MerkleTreeJS.getHexProof merkle leaf).

(** [investors] is the sequence [Object.entries(investors)] of the table:
    its (address, tokens) pairs, in the order the object enumerates them. *)
Definition getMerkle (decimals : Z) (investors : list (string * string))
    : result MerkleTreeJS.MerkleTree :=
  leaves ← mapM_result (fun '(address, tokens) =>
              units ← parseUnits tokens decimals;
              generateLeaf address (BigNumber.toString units)) investors;
  Ok (MerkleTreeJS.new keccak256 true leaves).

(** ** OpenZeppelin 4 [MerkleProof]

    A [bytes32] is a sequence of 32 bytes; [<] compares two of them as
    256-bit unsigned numbers. *)

Module MerkleProof.

Definition bytes32_lt (a b : Buffer) : bool := be_value a <? be_value b.

(** [_efficientHash(a, b)]: keccak256 of the 64 bytes a, b. *)
Definition _efficientHash (a b : Buffer) : Buffer := keccak256 (a ++ b).

Definition _hashPair (a b : Buffer) : Buffer :=
  if bytes32_lt a b then _efficientHash a b else _efficientHash b a.

(** The loop [computedHash = _hashPair(computedHash, proof[i])]. *)
Definition processProof (proof : list Buffer) (leaf : Buffer) : Buffer :=
  fold_left _hashPair proof leaf.

Definition verify (proof : list Buffer) (root leaf : Buffer) : bool :=
  bool_decide (processProof proof leaf = root).

End MerkleProof.

(** ethers' ABI coder for a [bytes32] argument given as a hexadecimal
    string. *)
Definition abi_bytes32 (value : string) : result Buffer :=
  b ← arrayify value;
  if (length b =? 32)%nat then Ok b else Throw "incorrect data length".

(** ** [contracts/Refund.sol] *)

Module Refund.

Abbreviation address := Z (only parsing).
Abbreviation uint256 := Z (only parsing).

Definition MAX_UINT256 : Z := 2 ^ 256 - 1.

Inductive Event : Type :=
| RefundClaimed (user : address) (amount : uint256)
| FundsWithdrawn (amount : uint256)
| OwnershipTransferred (previousOwner newOwner : address).

(** The contract's storage and immutables, its balance and the log. *)
Record State : Type := {
  _owner : address;                 (* Ownable *)
  _status : uint256;                (* ReentrancyGuard *)
  refundDeadline : uint256;         (* immutable *)
  merkleRoot : Buffer;              (* immutable bytes32 *)
  claimed : gmap Z bool;            (* mapping(address => bool) *)
  balance : uint256;                (* address(this).balance *)
  events : list Event
}.

Definition set_status (v : uint256) (s : State) : State :=
  {| _owner := _owner s; _status := v; refundDeadline := refundDeadline s;
     merkleRoot := merkleRoot s; claimed := claimed s; balance := balance s;
     events := events s |}.

Definition set_claimed (user : address) (v : bool) (s : State) : State :=
  {| _owner := _owner s; _status := _status s; refundDeadline := refundDeadline s;
     merkleRoot := merkleRoot s; claimed := <[user := v]> (claimed s);
     balance := balance s; events := events s |}.

Definition set_balance (v : uint256) (s : State) : State :=
  {| _owner := _owner s; _status := _status s; refundDeadline := refundDeadline s;
     merkleRoot := merkleRoot s; claimed := claimed s; balance := v;
     events := events s |}.

Definition emit (e : Event) (s : State) : State :=
  {| _owner := _owner s; _status := _status s; refundDeadline := refundDeadline s;
     merkleRoot := merkleRoot s; claimed := claimed s; balance := balance s;
     events := events s ++ [e] |}.

(** Reading [claimed[user]]: an absent key reads as false. *)
Definition is_claimed (s : State) (user : address) : bool :=
  default false (claimed s !! user).

(** The call context: [msg.sender] and [block.timestamp]. *)
Record Env : Type := { msg_sender : address; block_timestamp : uint256 }.

Definition REFUND_PERIOD_DURATION : uint256 := 90 * 24 * 60 * 60.

Definition _NOT_ENTERED : uint256 := 1.
Definition _ENTERED : uint256 := 2.

(** [abi.encodePacked(msg.sender, _amount)]: 20 bytes, then 32 bytes. *)
Definition encodePacked (user : address) (amount : uint256) : Buffer :=
  be_bytes 20 user ++ be_bytes 32 amount.

(** [require(cond, reason)]: a failed requirement reverts the call, and
    with it every state change the call has made. *)
Definition require (cond : bool) (reason : string) : result unit :=
  if cond then Ok tt else Throw reason.

(** The constructor, deployed at an address that already holds [funds]. *)
Definition constructor (env : Env) (funds : uint256) (_merkleRoot : Buffer) : result State :=
  _ ← require (bool_decide (_merkleRoot ≠ repeat x00 32)) "Merkle root cannot be empty";
  _ ← require (block_timestamp env + REFUND_PERIOD_DURATION <=? MAX_UINT256)
        "Panic(0x11)";
  Ok {| _owner := msg_sender env; _status := _NOT_ENTERED;
        refundDeadline := block_timestamp env + REFUND_PERIOD_DURATION;
        merkleRoot := _merkleRoot; claimed := ∅; balance := funds;
        events := [OwnershipTransferred 0 (msg_sender env)] |}.

Section Functions.

(** [to.call{value: v}("")] as seen from the contract: whether the call
    succeeded, and the contract's state when it returns. *)
Variable call : address -> uint256 -> State -> bool * State.

(** The body of [claimRefund], inside the [nonReentrant] modifier. *)
Definition claimRefund_body (env : Env) (_proof : list Buffer) (_amount : uint256)
    (s : State) : result State :=
  _ ← require (block_timestamp env <=? refundDeadline s) "Refund period over";
  _ ← require (negb (is_claimed s (msg_sender env))) "Already claimed";
  let node := keccak256 (encodePacked (msg_sender env) _amount) in
  _ ← require (MerkleProof.verify _proof (merkleRoot s) node) "Invalid proof";
  let s := set_claimed (msg_sender env) true s in
  let '(success, s) := call (msg_sender env) _amount s in
  _ ← require success "Transfer failed";
  Ok (emit (RefundClaimed (msg_sender env) _amount) s).

(** [modifier nonReentrant] of ReentrancyGuard around a function body. *)
Definition nonReentrant (body : State -> result State) (s : State) : result State :=
  _ ← require (negb (_status s =? _ENTERED)) "ReentrancyGuard: reentrant call";
  s ← body (set_status _ENTERED s);
  Ok (set_status _NOT_ENTERED s).

Definition claimRefund (env : Env) (_proof : list Buffer) (_amount : uint256)
    (s : State) : result State :=
  nonReentrant (claimRefund_body env _proof _amount) s.

(** [modifier onlyOwner] of Ownable around a function body. *)
Definition onlyOwner (env : Env) (body : State -> result State) (s : State)
    : result State :=
  _ ← require (bool_decide (_owner s = msg_sender env)) "Ownable: caller is not the owner";
  body s.

Definition withdraw_body (env : Env) (_amount : uint256) (s : State) : result State :=
  _ ← require (refundDeadline s <? block_timestamp env) "Refund period not over";
  _ ← require (_amount <=? balance s) "Insufficient funds";
  let '(success, s) := call (msg_sender env) _amount s in
  _ ← require success "Transfer failed";
  Ok (emit (FundsWithdrawn _amount) s).

Definition withdraw (env : Env) (_amount : uint256) (s : State) : result State :=
  onlyOwner env (withdraw_body env _amount) s.

End Functions.

(** [receive() external payable {}] with [msg.value = value]. *)
Definition receive (value : uint256) (s : State) : State :=
  set_balance (balance s + value) s.

(** *** Ownable

    The contract inherits OpenZeppelin's [transferOwnership] and
    [renounceOwnership], both behind [onlyOwner] and neither behind
    [nonReentrant]. *)
Definition _transferOwnership (newOwner : address) (s : State) : State :=
  emit (OwnershipTransferred (_owner s) newOwner)
    {| _owner := newOwner; _status := _status s; refundDeadline := refundDeadline s;
       merkleRoot := merkleRoot s; claimed := claimed s; balance := balance s;
       events := events s |}.

Definition transferOwnership (env : Env) (newOwner : address) (s : State) : result State :=
  onlyOwner env (fun s =>
    _ ← require (negb (newOwner =? 0)) "Ownable: new owner is the zero address";
    Ok (_transferOwnership newOwner s)) s.

Definition renounceOwnership (env : Env) (s : State) : result State :=
  onlyOwner env (fun s => Ok (_transferOwnership 0 s)) s.

(** *** The other side of a transfer

    What the public getters other than [claimed] show: [owner()],
    [refundDeadline()], [merkleRoot()] and the contract's balance. *)
Record View : Type := {
  view_owner : address;
  view_refundDeadline : uint256;
  view_merkleRoot : Buffer;
  view_balance : uint256
}.

Definition view (s : State) : View :=
  {| view_owner := _owner s; view_refundDeadline := refundDeadline s;
     view_merkleRoot := merkleRoot s; view_balance := balance s |}.

(** What the code at the paid address does while it holds control: return,
    revert, call back into any function of the contract ([claimRefund],
    [withdraw], [transferOwnership], [renounceOwnership]; as any sender it
    controls, an inner payment being handled by a behaviour of its own) and
    go on with the outcome, pay into the contract, read the contract through
    its getters and go on with what it read, or run a part of its behaviour
    in a call of its own, whose effects are undone if that call reverts. *)
Inductive Callee : Type :=
| Accept
| Reject
| ReenterClaimRefund (sender : address) (_proof : list Buffer) (_amount : uint256)
    (inner : Callee) (k : bool -> Callee)
| ReenterWithdraw (sender : address) (_amount : uint256)
    (inner : Callee) (k : bool -> Callee)
| Fund (value : uint256) (k : Callee)
| ReenterTransferOwnership (sender newOwner : address) (k : bool -> Callee)
| ReenterRenounceOwnership (sender : address) (k : bool -> Callee)
| ReadClaimed (user : address) (k : bool -> Callee)
| Read (k : View -> Callee)
| Try (attempt : Callee) (k : bool -> Callee).

(** The EVM's CALL with a value: it fails without running any code when the
    balance is too small; otherwise the value leaves the contract and the
    callee runs; if the callee reverts, the value and every change made
    during the call are restored. *)
Definition external_call (callee : State -> option State) (value : uint256) (s : State)
    : bool * State :=
  if balance s <? value then (false, s)
  else match callee (set_balance (balance s - value) s) with
       | Some s' => (true, s')
       | None => (false, s)
       end.

Fixpoint run (now : uint256) (c : Callee) (s : State) : option State :=
  match c with
  | Accept => Some s
  | Reject => None
  | ReenterClaimRefund sender _proof _amount inner k =>
      let env := {| msg_sender := sender; block_timestamp := now |} in
      match claimRefund (fun _ v => external_call (run now inner) v) env _proof _amount s with
      | Ok s' => run now (k true) s'
      | Throw _ => run now (k false) s
      end
  | ReenterWithdraw sender _amount inner k =>
      let env := {| msg_sender := sender; block_timestamp := now |} in
      match withdraw (fun _ v => external_call (run now inner) v) env _amount s with
      | Ok s' => run now (k true) s'
      | Throw _ => run now (k false) s
      end
  | Fund value k => run now k (receive value s)
  | ReenterTransferOwnership sender newOwner k =>
      let env := {| msg_sender := sender; block_timestamp := now |} in
      match transferOwnership env newOwner s with
      | Ok s' => run now (k true) s'
      | Throw _ => run now (k false) s
      end
  | ReenterRenounceOwnership sender k =>
      let env := {| msg_sender := sender; block_timestamp := now |} in
      match renounceOwnership env s with
      | Ok s' => run now (k true) s'
      | Throw _ => run now (k false) s
      end
  | ReadClaimed user k => run now (k (is_claimed s user)) s
  | Read k => run now (k (view s)) s
  | Try attempt k =>
      match run now attempt s with
      | Some s' => run now (k true) s'
      | None => run now (k false) s
      end
  end.

(** The transfer to [msg.sender] when the sender behaves as [c]. *)
Definition call_sender (now : uint256) (c : Callee) : address -> uint256 -> State -> bool * State :=
  fun _ v => external_call (run now c) v.

(** The transfer to an address of a world in which the code at each address
    is given: the code that runs is the recipient's. *)
Definition call_address (now : uint256) (world : address -> Callee)
    : address -> uint256 -> State -> bool * State :=
  fun to v => external_call (run now (world to)) v.

(** *** Transactions

    A transaction that reverts leaves the state as it was. *)
Inductive Receipt : Type :=
| Success
| Reverted (reason : string).

Definition transact (f : State -> result State) (s : State) : Receipt * State :=
  match f s with
  | Ok s' => (Success, s')
  | Throw reason => (Reverted reason, s)
  end.

(** [claimRefund] sent by [sender], whose code behaves as [c] when paid. *)
Definition tx_claimRefund (c : Callee) (env : Env) (_proof : list Buffer)
    (_amount : uint256) (s : State) : Receipt * State :=
  transact (claimRefund (call_sender (block_timestamp env) c) env _proof _amount) s.

Definition tx_withdraw (c : Callee) (env : Env) (_amount : uint256) (s : State)
    : Receipt * State :=
  transact (withdraw (call_sender (block_timestamp env) c) env _amount) s.

(** The same transactions in a world of addresses with code. *)
Definition tx_claimRefund_in (world : address -> Callee) (env : Env)
    (_proof : list Buffer) (_amount : uint256) (s : State) : Receipt * State :=
  transact (claimRefund (call_address (block_timestamp env) world) env _proof _amount) s.

Definition tx_withdraw_in (world : address -> Callee) (env : Env) (_amount : uint256)
    (s : State) : Receipt * State :=
  transact (withdraw (call_address (block_timestamp env) world) env _amount) s.

Definition tx_transferOwnership (env : Env) (newOwner : address) (s : State)
    : Receipt * State :=
  transact (transferOwnership env newOwner) s.

Definition tx_renounceOwnership (env : Env) (s : State) : Receipt * State :=
  transact (renounceOwnership env) s.

(** The state in which [claimRefund] hands control to the caller: the
    guard is taken and the claim is recorded. *)
Definition before_transfer (env : Env) (s : State) : State :=
  set_claimed (msg_sender env) true (set_status _ENTERED s).

(** What no callee can change: the guard and the immutables are as they
    were when it returns, and no claim record was reset. *)
Record preserved (s s' : State) : Prop := {
  preserved_status : _status s' = _status s;
  preserved_deadline : refundDeadline s' = refundDeadline s;
  preserved_root : merkleRoot s' = merkleRoot s;
  preserved_claimed : forall a, is_claimed s a = true -> is_claimed s' a = true
}.

(** The guard holds one of its two values. *)
Definition guard_known (s : State) : Prop :=
  _status s = _NOT_ENTERED \/ _status s = _ENTERED.

(** A callee for which [claimed[user]] always reads true and whose calls of
    [claimRefund] as [user] are skipped as failed. *)
Fixpoint blind (user : address) (c : Callee) : Callee :=
  match c with
  | Accept => Accept
  | Reject => Reject
  | ReenterClaimRefund sender _proof _amount inner k =>
      if sender =? user then blind user (k false)
      else ReenterClaimRefund sender _proof _amount (blind user inner)
             (fun ok => blind user (k ok))
  | ReenterWithdraw sender _amount inner k =>
      ReenterWithdraw sender _amount (blind user inner) (fun ok => blind user (k ok))
  | Fund value k => Fund value (blind user k)
  | ReenterTransferOwnership sender newOwner k =>
      ReenterTransferOwnership sender newOwner (fun ok => blind user (k ok))
  | ReenterRenounceOwnership sender k =>
      ReenterRenounceOwnership sender (fun ok => blind user (k ok))
  | ReadClaimed a k =>
      if a =? user then blind user (k true)
      else ReadClaimed a (fun claimed => blind user (k claimed))
  | Read k => Read (fun v => blind user (k v))
  | Try attempt k => Try (blind user attempt) (fun ok => blind user (k ok))
  end.

Definition is_refund_of (user : address) (e : Event) : bool :=
  match e with
  | RefundClaimed u _ => u =? user
  | _ => false
  end.

(** The number of [RefundClaimed] events logged for [user]. *)
Definition refunds (user : address) (s : State) : nat :=
  length (List.filter (is_refund_of user) (events s)).

(** Claims of [user] that are recorded but not logged yet: 1 while the
    transfer of a claim is under way, 0 otherwise. *)
Definition owed (user : address) (s : State) : Z :=
  (if is_claimed s user then 1 else 0) - Z.of_nat (refunds user s).

(** The payments in the log: its [RefundClaimed] and [FundsWithdrawn]
    events. *)
Definition is_payment (e : Event) : bool :=
  match e with
  | OwnershipTransferred _ _ => false
  | _ => true
  end.

Definition payments (s : State) : list Event := List.filter is_payment (events s).

(** What the paid address cannot change while a claim is being paid. *)
Record claim_kept (s s' : State) : Prop := {
  claim_kept_claimed : claimed s' = claimed s;
  claim_kept_status : _status s' = _status s;
  claim_kept_deadline : refundDeadline s' = refundDeadline s;
  claim_kept_root : merkleRoot s' = merkleRoot s;
  claim_kept_payments : payments s' = payments s
}.

(** One transaction sent to the deployed contract: a call of [claimRefund]
    or [withdraw] (the paid address behaving in any way), a payment into
    [receive], or a transfer of ownership. *)
Inductive transaction (s : State) : State -> Prop :=
| transaction_claimRefund c env _proof _amount :
    transaction s (snd (tx_claimRefund c env _proof _amount s))
| transaction_withdraw c env _amount :
    transaction s (snd (tx_withdraw c env _amount s))
| transaction_receive value :
    transaction s (receive value s)
| transaction_transferOwnership env newOwner :
    transaction s (snd (tx_transferOwnership env newOwner s))
| transaction_renounceOwnership env :
    transaction s (snd (tx_renounceOwnership env s)).

(** The states the contract goes through: deployed by the constructor, then
    changed by one transaction after another. *)
Inductive reachable : State -> Prop :=
| reachable_deployed env funds _merkleRoot s :
    constructor env funds _merkleRoot = Ok s -> reachable s
| reachable_transaction s s' :
    reachable s -> transaction s s' -> reachable s'.

End Refund.


(** ** Decimal literals

    The strings that denote a decimal amount: an optional minus sign, the
    digits of the whole part and, optionally, a point and the digits of the
    fraction, with at least one digit in all. *)

Fixpoint all_digits (s : string) : bool :=
  match s with
  | EmptyString => true
  | String c s' => FixedNumber.is_digit c && all_digits s'
  end.

(** The number a string of digits denotes, most significant digit first. *)
Definition horner (acc : Z) (s : string) : Z :=
  fold_left (fun acc c => 10 * acc + (Z.of_nat (nat_of_ascii c) - 48))
            (list_ascii_of_string s) acc.

Definition digits_value (s : string) : Z := horner 0 s.

Definition literal_body (whole : string) (fraction : option string) : string :=
  (whole ++ match fraction with Some f => "." ++ f | None => "" end)%string.

Definition decimal_literal (negative : bool) (whole : string) (fraction : option string)
    : string :=
  ((if negative then "-" else "") ++ literal_body whole fraction)%string.

Definition fraction_digits (fraction : option string) : string :=
  match fraction with
  | Some f => f
  | None => ""%string
  end.

Definition decimal_shape (value : string) : Prop :=
  exists (negative : bool) (whole : string) (fraction : option string),
    all_digits whole = true
    /\ all_digits (fraction_digits fraction) = true
    /\ (whole <> ""%string \/ fraction_digits fraction <> ""%string)
    /\ value = decimal_literal negative whole fraction.

(** ** Reorderings of the leaves

    [pair_swapped l l']: [l'] is [l] with the two members of some of its
    sibling pairs (positions 2k and 2k + 1) exchanged. *)
Inductive pair_swapped {A : Type} : list A -> list A -> Prop :=
| pair_swapped_nil : pair_swapped [] []
| pair_swapped_one x : pair_swapped [x] [x]
| pair_swapped_keep x y l l' :
    pair_swapped l l' -> pair_swapped (x :: y :: l) (x :: y :: l')
| pair_swapped_swap x y l l' :
    pair_swapped l l' -> pair_swapped (x :: y :: l) (y :: x :: l').

(** ** [scripts/getMerkleRoot.ts]

    [main] declares [generateLeaf] and [getMerkle] again, word for word as
    [scripts/merkle.ts] has them, builds the tree of its own table with 18
    decimals and prints the root. *)

Module GetMerkleRoot.

#[local] Open Scope string_scope.

Definition investors : list (string * string) :=
  [ ("0xF525E7409441743Dc77B5BaacF4755f4cc33400b", "1.25");
    ("0x54859974A781e80a8D7353F4291B39b4988F8036", "0.115");
    ("0x18BdaeF860d0153276cFD211E99A2F3028eA2795", "0.7");
    ("0xfeD70Da796916f989bCbc5F217E4d4cA405190d4", "0.12");
    ("0x0dD01F57994c11e3f9fFc16E555F95e9a7d62046", "0.15");
    ("0xeFF9736086d11653Dbdfb34b6F54C7AfdF64A51f", "0.5");
    ("0x2F76f1A2D21C87275bD8A3bbD3A6dC534f7d0770", "0.7");
    ("0x49b38241Caa1c3E47ea686bC345ec59fcF302c2a", "0.225");
    ("0x63Eba6AB81a65F065ddB4905e3A50313774C4FeD", "0.1");
    ("0x626f68511be197546481354A5F5992E3906Ab639", "0.1") ].

(** The line [main] prints. *)
Definition main : result string :=
  merkleTree ← getMerkle 18 investors;
  Ok (MerkleTreeJS.getHexRoot merkleTree).

End GetMerkleRoot.

(** ** The scenario of the test suite

    Four investors (the accounts after the deployer in Hardhat's default
    list) with 1, 2.5, 0.35 and 0.002 ether at 18 decimals, and a contract
    funded with 3.852 ether. *)

Module Scenario.

#[local] Open Scope string_scope.

Definition owner : Z := 0xf39Fd6e51aad88F6F4ce6aB8827279cffFb92266.
Definition alice : Z := 0x70997970C51812dc3A010C7d01b50e0d17dc79C8.
Definition bob : Z := 0x3C44CdDdB6a900fa2b585dd299e03d12FA4293BC.
Definition carol : Z := 0x90F79bf6EB2c4f870365E785982E1f101E93b906.
Definition dan : Z := 0x15d34AAf54267DB7D7c367839AAf71A00a2C6A65.

Definition alice_address : string := "0x70997970C51812dc3A010C7d01b50e0d17dc79C8".
Definition bob_address : string := "0x3C44CdDdB6a900fa2b585dd299e03d12FA4293BC".
Definition carol_address : string := "0x90F79bf6EB2c4f870365E785982E1f101E93b906".
Definition dan_address : string := "0x15d34AAf54267DB7D7c367839AAf71A00a2C6A65".

Definition investors : list (string * string) :=
  [ (alice_address, "1"); (bob_address, "2.5");
    (carol_address, "0.35"); (dan_address, "0.002") ].

Definition ether : Z := 10 ^ 18.

Definition merkleTree : MerkleTreeJS.MerkleTree :=
  match getMerkle 18 investors with
  | Ok t => t
  | Throw _ => MerkleTreeJS.new keccak256 true []
  end.

Definition merkleRoot : Buffer := MerkleTreeJS.getRoot merkleTree.

(** Alice's proof, as the contract receives it. *)
Definition aliceProof : list Buffer :=
  match getProof merkleTree alice_address "1" 18 with
  | Ok hexProof =>
      match mapM_result abi_bytes32 hexProof with
      | Ok p => p
      | Throw _ => []
      end
  | Throw _ => []
  end.

Definition deployedAt : Z := 1700000000.

(** The contract after deployment and funding with [funds] wei. *)
Definition deployed (funds : Z) : Refund.State :=
  {| Refund._owner := owner;
     Refund._status := Refund._NOT_ENTERED;
     Refund.refundDeadline := deployedAt + Refund.REFUND_PERIOD_DURATION;
     Refund.merkleRoot := merkleRoot;
     Refund.claimed := ∅;
     Refund.balance := funds;
     Refund.events := [Refund.OwnershipTransferred 0 owner] |}.

Definition funded : Refund.State := deployed 3852000000000000000.

Definition asAlice (now : Z) : Refund.Env :=
  {| Refund.msg_sender := alice; Refund.block_timestamp := now |}.

Definition asOwner (now : Z) : Refund.Env :=
  {| Refund.msg_sender := owner; Refund.block_timestamp := now |}.

End Scenario.
(** * Properties *)

(** ** Bytes and big-endian values *)

Lemma byte_to_Z_range (b : byte) : 0 <= byte_to_Z b < 256.
Proof.
  unfold byte_to_Z. pose proof (Byte.to_N_bounded b). lia.
Qed.

Lemma byte_of_to_Z (b : byte) : byte_of_Z (byte_to_Z b) = b.
Proof.
  unfold byte_of_Z. pose proof (byte_to_Z_range b) as Hb.
  change 255 with (Z.ones 8). rewrite Z.land_ones by lia.
  rewrite Z.mod_small by lia. unfold byte_to_Z.
  rewrite N2Z.id, Byte.of_to_N. reflexivity.
Qed.

Lemma byte_to_of_Z (z : Z) : byte_to_Z (byte_of_Z z) = z mod 256.
Proof.
  unfold byte_of_Z. change 255 with (Z.ones 8). rewrite Z.land_ones by lia.
  change (2 ^ 8) with 256.
  pose proof (Z.mod_pos_bound z 256 ltac:(lia)) as Hm.
  destruct (Byte.of_N (Z.to_N (z mod 256))) as [b|] eqn:E.
  - apply Byte.to_of_N in E. unfold byte_to_Z. rewrite E. lia.
  - apply Byte.of_N_None_iff in E. lia.
Qed.

Lemma byte_to_Z_inj (a b : byte) : byte_to_Z a = byte_to_Z b -> a = b.
Proof.
  intros H. rewrite <- (byte_of_to_Z a), <- (byte_of_to_Z b), H. reflexivity.
Qed.

Lemma keccak256_length (msg : Buffer) : length (keccak256 msg) = 32%nat.
Proof. reflexivity. Qed.

Lemma be_value_fold (b : Buffer) (acc : Z) :
  fold_left (fun acc x => 256 * acc + byte_to_Z x) b acc
  = acc * 256 ^ Z.of_nat (length b) + be_value b.
Proof.
  unfold be_value. revert acc.
  induction b as [|x b IH]; intros acc; simpl fold_left.
  - simpl. lia.
  - rewrite IH, (IH (256 * 0 + byte_to_Z x)).
    rewrite length_cons, Nat2Z.inj_succ, Z.pow_succ_r by lia. lia.
Qed.

Lemma be_value_cons (x : byte) (b : Buffer) :
  be_value (x :: b) = byte_to_Z x * 256 ^ Z.of_nat (length b) + be_value b.
Proof.
  unfold be_value at 1. simpl fold_left. rewrite be_value_fold. lia.
Qed.

Lemma be_value_range (b : Buffer) : 0 <= be_value b < 256 ^ Z.of_nat (length b).
Proof.
  induction b as [|x b IH].
  - cbn. lia.
  - rewrite be_value_cons, length_cons, Nat2Z.inj_succ, Z.pow_succ_r by lia.
    pose proof (byte_to_Z_range x). nia.
Qed.

(** On buffers of one length, [Buffer.compare] orders as the big-endian
    values do. *)
Lemma Buffer_compare_be_value (a b : Buffer) :
  length a = length b ->
  Buffer_compare a b = match be_value a ?= be_value b with
                       | Lt => -1 | Eq => 0 | Gt => 1
                       end.
Proof.
  revert b. induction a as [|x a IH]; intros [|y b] Hlen; try discriminate.
  - reflexivity.
  - injection Hlen as Hlen. simpl Buffer_compare.
    rewrite !be_value_cons, <- Hlen.
    pose proof (be_value_range a) as Ha. pose proof (be_value_range b) as Hb.
    rewrite <- Hlen in Hb.
    pose proof (byte_to_Z_range x). pose proof (byte_to_Z_range y).
    set (p := 256 ^ Z.of_nat (length a)) in *.
    destruct (Z.ltb_spec (byte_to_Z x) (byte_to_Z y)).
    { replace (_ ?= _) with Lt; [reflexivity|]. symmetry. apply Z.compare_lt_iff. nia. }
    destruct (Z.ltb_spec (byte_to_Z y) (byte_to_Z x)).
    { replace (_ ?= _) with Gt; [reflexivity|]. symmetry. apply Z.compare_gt_iff. nia. }
    assert (byte_to_Z x = byte_to_Z y) as -> by lia.
    rewrite IH by assumption.
    rewrite Z.add_compare_mono_l. reflexivity.
Qed.

Lemma Buffer_compare_eq (a b : Buffer) : Buffer_compare a b = 0 -> a = b.
Proof.
  revert b. induction a as [|x a IH]; intros [|y b]; simpl; try discriminate.
  - reflexivity.
  - destruct (Z.ltb_spec (byte_to_Z x) (byte_to_Z y)); [discriminate|].
    destruct (Z.ltb_spec (byte_to_Z y) (byte_to_Z x)); [discriminate|].
    intros Hr%IH. f_equal; [|assumption]. apply byte_to_Z_inj. lia.
Qed.

Lemma Buffer_compare_refl (a : Buffer) : Buffer_compare a a = 0.
Proof.
  induction a as [|x a IH]; simpl; [reflexivity|].
  rewrite Z.ltb_irrefl. assumption.
Qed.

Lemma Buffer_compare_antisym (a b : Buffer) :
  Buffer_compare b a = - Buffer_compare a b.
Proof.
  revert b. induction a as [|x a IH]; intros [|y b]; simpl; try reflexivity.
  destruct (Z.ltb_spec (byte_to_Z x) (byte_to_Z y));
    destruct (Z.ltb_spec (byte_to_Z y) (byte_to_Z x)); try reflexivity; try lia.
  apply IH.
Qed.

Lemma be_value_inj (a b : Buffer) :
  length a = length b -> be_value a = be_value b -> a = b.
Proof.
  intros Hlen Hv. apply Buffer_compare_eq.
  rewrite Buffer_compare_be_value by assumption.
  rewrite Hv, Z.compare_refl. reflexivity.
Qed.


(** ** Hexadecimal strings *)

Lemma nibble_hi_roundtrip (b : byte) :
  Hex.nibble_of_ascii (Hex.ascii_of_nibble (byte_to_Z b / 16)) = Some (byte_to_Z b / 16).
Proof. destruct b; reflexivity. Qed.

Lemma nibble_lo_roundtrip (b : byte) :
  Hex.nibble_of_ascii (Hex.ascii_of_nibble (byte_to_Z b mod 16)) = Some (byte_to_Z b mod 16).
Proof. destruct b; reflexivity. Qed.

Lemma decode_encode_pairs (bs : Buffer) : Hex.decode_pairs (Hex.encode_pairs bs) = bs.
Proof.
  induction bs as [|b bs IH]; [reflexivity|].
  cbn [Hex.encode_pairs Hex.decode_pairs].
  rewrite nibble_hi_roundtrip, nibble_lo_roundtrip, IH.
  f_equal. rewrite <- (byte_of_to_Z b) at 3. f_equal.
  symmetry. apply Z.div_mod. lia.
Qed.

Lemma all_hex_encode_pairs (bs : Buffer) : Hex.all_hex (Hex.encode_pairs bs) = true.
Proof.
  induction bs as [|b bs IH]; [reflexivity|].
  cbn [Hex.encode_pairs Hex.all_hex]. unfold Hex.is_hex_digit.
  rewrite nibble_hi_roundtrip, nibble_lo_roundtrip, IH. reflexivity.
Qed.

Lemma length_encode_pairs (bs : Buffer) :
  String.length (Hex.encode_pairs bs) = (2 * length bs)%nat.
Proof.
  induction bs as [|b bs IH]; [reflexivity|].
  cbn [Hex.encode_pairs String.length]. rewrite IH. simpl. lia.
Qed.

Lemma substring_all (s : string) : substring 0 (String.length s) s = s.
Proof. induction s as [|c s IH]; simpl; [reflexivity|]. rewrite IH. reflexivity. Qed.

Lemma slice2_hexlify (bs : Buffer) : slice2 (hexlify bs) = Hex.encode_pairs bs.
Proof.
  unfold slice2.
  change (hexlify bs)
    with (String "0"%char (String "x"%char (Hex.encode_pairs bs))).
  cbn [String.length substring Nat.sub].
  rewrite Nat.sub_0_r. apply substring_all.
Qed.

(** [arrayify] inverts [hexlify]. *)
Lemma arrayify_hexlify (bs : Buffer) : arrayify (hexlify bs) = Ok bs.
Proof.
  unfold arrayify.
  replace (isHexString (hexlify bs)) with true
    by (symmetry; exact (all_hex_encode_pairs bs)).
  fold (slice2 (hexlify bs)). rewrite slice2_hexlify, length_encode_pairs.
  rewrite Nat.odd_mul. simpl. rewrite decode_encode_pairs. reflexivity.
Qed.

Lemma abi_bytes32_hexlify (b : Buffer) :
  length b = 32%nat -> abi_bytes32 (hexlify b) = Ok b.
Proof.
  intros Hlen. unfold abi_bytes32. rewrite arrayify_hexlify. simpl.
  rewrite Hlen. reflexivity.
Qed.

Lemma mapM_abi_bytes32_hexlify (bs : list Buffer) :
  Forall (fun b => length b = 32%nat) bs ->
  mapM_result abi_bytes32 (map hexlify bs) = Ok bs.
Proof.
  induction 1 as [|b bs Hb _ IH]; [reflexivity|].
  cbn [map mapM_result]. rewrite abi_bytes32_hexlify by exact Hb.
  simpl. rewrite IH. reflexivity.
Qed.

(** [generateLeaf] without the detour through a hexadecimal string. *)
Lemma generateLeaf_packed (address value : string) :
  generateLeaf address value
  = (packed ← solidityPack_address_uint256 address value; Ok (keccak256 packed)).
Proof.
  unfold generateLeaf, solidityKeccak256_address_uint256.
  unfold mbind, result_bind.
  destruct (solidityPack_address_uint256 address value) as [packed|msg]; [|reflexivity].
  unfold Buffer_from_hex. rewrite slice2_hexlify, decode_encode_pairs.
  reflexivity.
Qed.

Lemma generateLeaf_length (address value : string) leaf :
  generateLeaf address value = Ok leaf -> length leaf = 32%nat.
Proof.
  rewrite generateLeaf_packed.
  destruct (solidityPack_address_uint256 address value); [|discriminate].
  intros [= <-]. apply keccak256_length.
Qed.

(** ** The refund ledger *)

Section RefundFacts.

Import Refund.

Ltac unfold_result :=
  unfold mbind, result_bind, mret, result_ret, require in *.

(** [claimRefund] as a decision list. *)
Lemma claimRefund_cases call env _proof _amount s :
  claimRefund call env _proof _amount s =
    if _status s =? _ENTERED then Throw "ReentrancyGuard: reentrant call"
    else if negb (block_timestamp env <=? refundDeadline s) then Throw "Refund period over"
    else if is_claimed s (msg_sender env) then Throw "Already claimed"
    else if negb (MerkleProof.verify _proof (merkleRoot s)
                    (keccak256 (encodePacked (msg_sender env) _amount)))
         then Throw "Invalid proof"
    else match call (msg_sender env) _amount (before_transfer env s) with
         | (true, s1) =>
             Ok (set_status _NOT_ENTERED (emit (RefundClaimed (msg_sender env) _amount) s1))
         | (false, _) => Throw "Transfer failed"
         end.
Proof.
  unfold claimRefund, nonReentrant, claimRefund_body, before_transfer.
  unfold_result.
  destruct (_status s =? _ENTERED); simpl; [reflexivity|].
  destruct (block_timestamp env <=? refundDeadline s); simpl; [|reflexivity].
  change (is_claimed (set_status _ENTERED s) (msg_sender env))
    with (is_claimed s (msg_sender env)).
  destruct (is_claimed s (msg_sender env)); simpl; [reflexivity|].
  destruct (MerkleProof.verify _ _ _); simpl; [|reflexivity].
  destruct (call _ _ _) as [[|] s1]; reflexivity.
Qed.

(** [withdraw] as a decision list. *)
Lemma withdraw_cases call env _amount s :
  withdraw call env _amount s =
    if negb (bool_decide (_owner s = msg_sender env))
    then Throw "Ownable: caller is not the owner"
    else if block_timestamp env <=? refundDeadline s then Throw "Refund period not over"
    else if balance s <? _amount then Throw "Insufficient funds"
    else match call (msg_sender env) _amount s with
         | (true, s1) => Ok (emit (FundsWithdrawn _amount) s1)
         | (false, _) => Throw "Transfer failed"
         end.
Proof.
  unfold withdraw, onlyOwner, withdraw_body. unfold_result.
  destruct (bool_decide (_owner s = msg_sender env)); simpl; [|reflexivity].
  rewrite (Z.ltb_antisym (block_timestamp env) (refundDeadline s)).
  destruct (block_timestamp env <=? refundDeadline s); simpl; [reflexivity|].
  rewrite (Z.ltb_antisym _amount (balance s)).
  destruct (_amount <=? balance s); simpl; [|reflexivity].
  destruct (call _ _ _) as [[|] s1]; reflexivity.
Qed.

Lemma preserved_refl s : preserved s s.
Proof. split; auto. Qed.

Lemma preserved_trans s1 s2 s3 : preserved s1 s2 -> preserved s2 s3 -> preserved s1 s3.
Proof.
  intros [] []. split; try congruence. auto.
Qed.

Lemma is_claimed_set_claimed user s a :
  is_claimed (set_claimed user true s) a = if bool_decide (a = user) then true else is_claimed s a.
Proof.
  unfold is_claimed, set_claimed; simpl.
  case_bool_decide as Ha.
  - subst. rewrite lookup_insert_eq. reflexivity.
  - rewrite lookup_insert_ne by congruence. reflexivity.
Qed.

Lemma external_call_preserved callee v s ok s' :
  guard_known s ->
  (forall s0 s1, guard_known s0 -> callee s0 = Some s1 -> preserved s0 s1) ->
  external_call callee v s = (ok, s') -> preserved s s'.
Proof.
  intros Hst Hc. unfold external_call.
  destruct (balance s <? v); [intros [= <- <-]; apply preserved_refl|].
  destruct (callee _) as [s1|] eqn:E; intros [= <- <-]; [|apply preserved_refl].
  apply Hc in E; [|exact Hst]. destruct E. split; auto.
Qed.

Lemma claimRefund_preserved call env _proof _amount s s' :
  guard_known s ->
  (forall to v s0 ok s1, guard_known s0 -> call to v s0 = (ok, s1) -> preserved s0 s1) ->
  claimRefund call env _proof _amount s = Ok s' -> preserved s s'.
Proof.
  intros Hst Hc. rewrite claimRefund_cases.
  destruct (_status s =? _ENTERED) eqn:Est; [discriminate|].
  destruct (negb _); [discriminate|].
  destruct (is_claimed s _); [discriminate|].
  destruct (negb _); [discriminate|].
  destruct (call _ _ _) as [[|] s1] eqn:E; [|discriminate].
  intros [= <-]. apply Hc in E; [|right; reflexivity].
  destruct E as [E1 E2 E3 E5].
  apply Z.eqb_neq in Est.
  split; try assumption.
  - simpl. destruct Hst; congruence.
  - intros a Ha.
    change (is_claimed s1 a = true). apply E5. unfold before_transfer.
    rewrite is_claimed_set_claimed. case_bool_decide; [reflexivity|exact Ha].
Qed.

Lemma withdraw_preserved call env _amount s s' :
  guard_known s ->
  (forall to v s0 ok s1, guard_known s0 -> call to v s0 = (ok, s1) -> preserved s0 s1) ->
  withdraw call env _amount s = Ok s' -> preserved s s'.
Proof.
  intros Hst Hc. rewrite withdraw_cases.
  destruct (negb _); [discriminate|].
  destruct (_ <=? _); [discriminate|].
  destruct (_ <? _); [discriminate|].
  destruct (call _ _ _) as [[|] s1] eqn:E; [|discriminate].
  intros [= <-]. apply Hc in E; [|exact Hst]. destruct E. split; auto.
Qed.

Lemma preserved_guard_known s s' : preserved s s' -> guard_known s -> guard_known s'.
Proof. intros [E _ _ _]. unfold guard_known. rewrite E. auto. Qed.

(** The inherited [transferOwnership] and [renounceOwnership] as decision
    lists. *)
Lemma transferOwnership_cases env newOwner s :
  transferOwnership env newOwner s =
    if negb (bool_decide (_owner s = msg_sender env))
    then Throw "Ownable: caller is not the owner"
    else if newOwner =? 0 then Throw "Ownable: new owner is the zero address"
    else Ok (_transferOwnership newOwner s).
Proof.
  unfold transferOwnership, onlyOwner. unfold_result.
  destruct (bool_decide (_owner s = msg_sender env)); simpl; [|reflexivity].
  destruct (newOwner =? 0); reflexivity.
Qed.

Lemma renounceOwnership_cases env s :
  renounceOwnership env s =
    if negb (bool_decide (_owner s = msg_sender env))
    then Throw "Ownable: caller is not the owner"
    else Ok (_transferOwnership 0 s).
Proof.
  unfold renounceOwnership, onlyOwner. unfold_result.
  destruct (bool_decide (_owner s = msg_sender env)); reflexivity.
Qed.

Lemma _transferOwnership_preserved newOwner s : preserved s (_transferOwnership newOwner s).
Proof. split; auto. Qed.

Lemma transferOwnership_preserved env newOwner s s' :
  transferOwnership env newOwner s = Ok s' -> preserved s s'.
Proof.
  rewrite transferOwnership_cases.
  destruct (negb _); [discriminate|]. destruct (_ =? _); [discriminate|].
  intros [= <-]. apply _transferOwnership_preserved.
Qed.

Lemma renounceOwnership_preserved env s s' :
  renounceOwnership env s = Ok s' -> preserved s s'.
Proof.
  rewrite renounceOwnership_cases.
  destruct (negb _); [discriminate|].
  intros [= <-]. apply _transferOwnership_preserved.
Qed.

(** Whatever the paid address does, the guard and the immutables are as
    before when it returns, and no claim record was reset. *)
Lemma run_preserved now c s s' :
  guard_known s -> run now c s = Some s' -> preserved s s'.
Proof.
  revert s s'.
  induction c as [| | sender _proof _amount inner IHinner k IHk
                   | sender _amount inner IHinner k IHk | value k IHk
                   | sender newOwner k IHk | sender k IHk | user k IHk | k IHk
                   | attempt IHattempt k IHk];
    intros s s' Hst; simpl.
  - intros [= <-]. apply preserved_refl.
  - discriminate.
  - destruct (claimRefund _ _ _ _ s) as [s1|msg] eqn:E.
    + intros Hk. apply claimRefund_preserved in E; [|assumption|].
      * eapply preserved_trans; [exact E|]. eapply IHk; [|exact Hk].
        eapply preserved_guard_known; eassumption.
      * intros to v s0 ok s2 Hs0 Hcall.
        eapply external_call_preserved; [exact Hs0| |exact Hcall].
        intros s3 s4. apply IHinner.
    + apply IHk. exact Hst.
  - destruct (withdraw _ _ _ s) as [s1|msg] eqn:E.
    + intros Hk. apply withdraw_preserved in E; [|assumption|].
      * eapply preserved_trans; [exact E|]. eapply IHk; [|exact Hk].
        eapply preserved_guard_known; eassumption.
      * intros to v s0 ok s2 Hs0 Hcall.
        eapply external_call_preserved; [exact Hs0| |exact Hcall].
        intros s3 s4. apply IHinner.
    + apply IHk. exact Hst.
  - intros Hk. apply IHk in Hk; [|exact Hst].
    destruct Hk. split; auto.
  - destruct (transferOwnership _ _ s) as [s1|msg] eqn:E.
    + intros Hk. apply transferOwnership_preserved in E.
      eapply preserved_trans; [exact E|]. eapply IHk; [|exact Hk].
      eapply preserved_guard_known; eassumption.
    + apply IHk. exact Hst.
  - destruct (renounceOwnership _ s) as [s1|msg] eqn:E.
    + intros Hk. apply renounceOwnership_preserved in E.
      eapply preserved_trans; [exact E|]. eapply IHk; [|exact Hk].
      eapply preserved_guard_known; eassumption.
    + apply IHk. exact Hst.
  - apply IHk. exact Hst.
  - apply IHk. exact Hst.
  - destruct (run now attempt s) as [s1|] eqn:E; [|apply IHk; exact Hst].
    intros Hk. apply IHattempt in E; [|exact Hst].
    eapply preserved_trans; [exact E|]. eapply IHk; [|exact Hk].
    eapply preserved_guard_known; eassumption.
Qed.

Lemma call_sender_preserved now c to v s ok s' :
  guard_known s -> call_sender now c to v s = (ok, s') -> preserved s s'.
Proof.
  intros Hst. unfold call_sender.
  apply external_call_preserved; [exact Hst|].
  intros s0 s1. apply run_preserved.
Qed.


(** [tx_claimRefund] for a call that is not nested in another one. *)
Lemma tx_claimRefund_cases c env _proof _amount s :
  _status s = _NOT_ENTERED ->
  tx_claimRefund c env _proof _amount s =
    if negb (block_timestamp env <=? refundDeadline s) then (Reverted "Refund period over", s)
    else if is_claimed s (msg_sender env) then (Reverted "Already claimed", s)
    else if negb (MerkleProof.verify _proof (merkleRoot s)
                    (keccak256 (encodePacked (msg_sender env) _amount)))
         then (Reverted "Invalid proof", s)
    else if balance s <? _amount then (Reverted "Transfer failed", s)
    else match run (block_timestamp env) c
                 (set_balance (balance s - _amount) (before_transfer env s)) with
         | Some s1 =>
             (Success,
              set_status _NOT_ENTERED (emit (RefundClaimed (msg_sender env) _amount) s1))
         | None => (Reverted "Transfer failed", s)
         end.
Proof.
  intros Hst. unfold tx_claimRefund, transact. rewrite claimRefund_cases, Hst.
  change (_NOT_ENTERED =? _ENTERED) with false. cbv iota.
  destruct (negb (_ <=? _)); [reflexivity|].
  destruct (is_claimed s _); [reflexivity|].
  destruct (negb (MerkleProof.verify _ _ _)); [reflexivity|].
  unfold call_sender, external_call.
  change (balance (before_transfer env s)) with (balance s).
  destruct (balance s <? _amount); [reflexivity|].
  destruct (run _ _ _); reflexivity.
Qed.

(** *** The scenario

    Alice's proof verifies against the root of the scenario's tree, and her
    claim on the deployed contract depends on the funds only. *)

Lemma alice_proof_verifies :
  MerkleProof.verify Scenario.aliceProof Scenario.merkleRoot
    (keccak256 (encodePacked Scenario.alice Scenario.ether)) = true.
Proof. vm_compute. reflexivity. Qed.

Ltac scenario_time :=
  cbv [Scenario.asAlice Scenario.asOwner Scenario.deployed Scenario.funded
       block_timestamp refundDeadline];
  unfold Scenario.deployedAt, REFUND_PERIOD_DURATION; lia.

Lemma alice_claim (c : Callee) (funds : Z) :
  let env := Scenario.asAlice Scenario.deployedAt in
  tx_claimRefund c env Scenario.aliceProof Scenario.ether (Scenario.deployed funds)
  = if funds <? Scenario.ether
    then (Reverted "Transfer failed", Scenario.deployed funds)
    else match run Scenario.deployedAt c
                 (set_balance (funds - Scenario.ether)
                    (before_transfer env (Scenario.deployed funds))) with
         | Some s1 =>
             (Success,
              set_status _NOT_ENTERED
                (emit (RefundClaimed Scenario.alice Scenario.ether) s1))
         | None => (Reverted "Transfer failed", Scenario.deployed funds)
         end.
Proof.
  cbv zeta. rewrite tx_claimRefund_cases by reflexivity.
  change (merkleRoot (Scenario.deployed funds)) with Scenario.merkleRoot.
  change (msg_sender (Scenario.asAlice Scenario.deployedAt)) with Scenario.alice.
  rewrite alice_proof_verifies.
  destruct (Z.leb_spec (block_timestamp (Scenario.asAlice Scenario.deployedAt))
              (refundDeadline (Scenario.deployed funds))) as [_|Hlate];
    [|exfalso; revert Hlate; scenario_time].
  reflexivity.
Qed.

(** C9, as stated, fails: with the caller the owner, the deadline passed
    and the balance above the amount, [withdraw] does not transfer when the
    owner's code rejects the payment: the call fails with "Transfer failed"
    and the state is as it was. *)
Lemma withdraw_can_fail_after_preconditions :
  let env := Scenario.asOwner (Scenario.deployedAt + 7776001) in
  let s := Scenario.funded in
  let world := fun a : Z => if a =? Scenario.owner then Reject else Accept in
  _owner s = msg_sender env
  /\ refundDeadline s < block_timestamp env
  /\ 1 <= balance s
  /\ tx_withdraw_in world env 1 s = (Reverted "Transfer failed", s).
Proof.
  cbv zeta. split_and!.
  - reflexivity.
  - scenario_time.
  - cbv [Scenario.funded Scenario.deployed balance]. lia.
  - unfold tx_withdraw_in, transact. rewrite withdraw_cases.
    rewrite bool_decide_eq_true_2 by reflexivity. cbn [negb].
    destruct (Z.leb_spec (block_timestamp (Scenario.asOwner (Scenario.deployedAt + 7776001)))
                (refundDeadline Scenario.funded)) as [Hearly|_];
      [exfalso; revert Hearly; scenario_time|].
    change (balance Scenario.funded <? 1) with false. cbv iota.
    unfold call_address, external_call.
    change (balance Scenario.funded <? 1) with false. cbv iota.
    change (msg_sender (Scenario.asOwner (Scenario.deployedAt + 7776001)))
      with Scenario.owner.
    rewrite Z.eqb_refl. reflexivity.
Qed.

(** C9, amended. [withdraw] checks, in this order: the caller is the owner
    ("Ownable: caller is not the owner"), the deadline has passed ("Refund
    period not over" while the time is at most the deadline), the balance
    covers the amount ("Insufficient funds" when it is smaller); then it
    sends the amount to the caller, who is the owner: the code at the
    owner's address runs with the contract's balance reduced by the amount.
    If that code returns, the call succeeds and [FundsWithdrawn(amount)] is
    logged; if it rejects the payment, the call fails with "Transfer failed"
    and the state is as it was. *)
Theorem withdraw_preconditions (world : Z -> Callee) env _amount s :
  tx_withdraw_in world env _amount s =
    if negb (bool_decide (_owner s = msg_sender env))
    then (Reverted "Ownable: caller is not the owner", s)
    else if block_timestamp env <=? refundDeadline s
    then (Reverted "Refund period not over", s)
    else if balance s <? _amount
    then (Reverted "Insufficient funds", s)
    else match run (block_timestamp env) (world (_owner s))
                 (set_balance (balance s - _amount) s) with
         | Some s1 => (Success, emit (FundsWithdrawn _amount) s1)
         | None => (Reverted "Transfer failed", s)
         end.
Proof.
  unfold tx_withdraw_in, transact. rewrite withdraw_cases.
  case_bool_decide as Howner; cbn [negb]; [|reflexivity].
  destruct (_ <=? _); [reflexivity|].
  unfold call_address, external_call. rewrite Howner.
  destruct (balance s <? _amount); [reflexivity|].
  destruct (run _ _ _); reflexivity.
Qed.

(** C10. [claimRefund] has no balance check of its own: when the proof
    verifies, the deadline has not passed and the caller has not claimed,
    a request above the contract's balance fails at the transfer, with
    "Transfer failed". *)
Theorem claimRefund_no_balance_check c env _proof _amount s :
  _status s = _NOT_ENTERED ->
  block_timestamp env <= refundDeadline s ->
  is_claimed s (msg_sender env) = false ->
  MerkleProof.verify _proof (merkleRoot s)
    (keccak256 (encodePacked (msg_sender env) _amount)) = true ->
  balance s < _amount ->
  tx_claimRefund c env _proof _amount s = (Reverted "Transfer failed", s).
Proof.
  intros Hst Hnow Hcl Hv Hbal. rewrite tx_claimRefund_cases by exact Hst.
  rewrite Hcl, Hv.
  destruct (Z.leb_spec (block_timestamp env) (refundDeadline s)); [|lia].
  destruct (Z.ltb_spec (balance s) _amount); [reflexivity|lia].
Qed.

Lemma claimRefund_no_balance_check_witness :
  tx_claimRefund Accept (Scenario.asAlice Scenario.deployedAt) Scenario.aliceProof
    Scenario.ether (Scenario.deployed 0)
  = (Reverted "Transfer failed", Scenario.deployed 0).
Proof.
  apply claimRefund_no_balance_check.
  - reflexivity.
  - scenario_time.
  - reflexivity.
  - exact alice_proof_verifies.
  - reflexivity.
Defined.


(** C1, as stated, fails: with a verifying proof before the deadline and a
    transfer that fails (the contract holds nothing), the call reverts with
    "Transfer failed" and the caller's claim record is false afterwards. *)
Lemma claim_record_not_kept_on_transfer_failure :
  let env := Scenario.asAlice Scenario.deployedAt in
  let s := Scenario.deployed 0 in
  MerkleProof.verify Scenario.aliceProof (merkleRoot s)
    (keccak256 (encodePacked (msg_sender env) Scenario.ether)) = true
  /\ block_timestamp env <= refundDeadline s
  /\ fst (call_sender (block_timestamp env) Accept (msg_sender env) Scenario.ether
            (before_transfer env s)) = false
  /\ fst (tx_claimRefund Accept env Scenario.aliceProof Scenario.ether s)
     = Reverted "Transfer failed"
  /\ is_claimed (snd (tx_claimRefund Accept env Scenario.aliceProof Scenario.ether s))
       (msg_sender env) <> true.
Proof.
  cbv zeta. split_and!.
  - exact alice_proof_verifies.
  - scenario_time.
  - reflexivity.
  - rewrite (alice_claim Accept 0). reflexivity.
  - rewrite (alice_claim Accept 0). change (0 <? Scenario.ether) with true.
    cbv [snd]. change (is_claimed (Scenario.deployed 0) Scenario.alice) with false.
    discriminate.
Qed.

(** C1, amended. When the transfer inside [claimRefund] fails, the call
    reverts with "Transfer failed" and the whole state is as before the
    call: the caller's claim record is still false. *)
Theorem claimRefund_transfer_failure_reverts c env _proof _amount s :
  _status s = _NOT_ENTERED ->
  block_timestamp env <= refundDeadline s ->
  is_claimed s (msg_sender env) = false ->
  MerkleProof.verify _proof (merkleRoot s)
    (keccak256 (encodePacked (msg_sender env) _amount)) = true ->
  fst (call_sender (block_timestamp env) c (msg_sender env) _amount
         (before_transfer env s)) = false ->
  tx_claimRefund c env _proof _amount s = (Reverted "Transfer failed", s)
  /\ is_claimed (snd (tx_claimRefund c env _proof _amount s)) (msg_sender env) = false.
Proof.
  intros Hst Hnow Hcl Hv Hfail.
  assert (tx_claimRefund c env _proof _amount s = (Reverted "Transfer failed", s)) as E.
  { rewrite tx_claimRefund_cases by exact Hst. rewrite Hcl, Hv.
    destruct (Z.leb_spec (block_timestamp env) (refundDeadline s)); [|lia].
    cbv [negb]. cbv iota.
    revert Hfail. unfold call_sender, external_call.
    change (balance (before_transfer env s)) with (balance s).
    destruct (balance s <? _amount); [reflexivity|].
    destruct (run _ _ _); [discriminate|reflexivity]. }
  rewrite E. split; [reflexivity|exact Hcl].
Qed.

Lemma claimRefund_transfer_failure_reverts_witness :
  tx_claimRefund Reject (Scenario.asAlice Scenario.deployedAt) Scenario.aliceProof
    Scenario.ether Scenario.funded
  = (Reverted "Transfer failed", Scenario.funded)
  /\ is_claimed
       (snd (tx_claimRefund Reject (Scenario.asAlice Scenario.deployedAt)
               Scenario.aliceProof Scenario.ether Scenario.funded))
       Scenario.alice = false.
Proof.
  apply (claimRefund_transfer_failure_reverts Reject
           (Scenario.asAlice Scenario.deployedAt) Scenario.aliceProof Scenario.ether
           Scenario.funded).
  - reflexivity.
  - scenario_time.
  - reflexivity.
  - exact alice_proof_verifies.
  - reflexivity.
Defined.

(** C4, as stated, fails: a verifying proof before the deadline does not by
    itself make the call succeed. On a contract that holds nothing the call
    reverts with "Transfer failed", and so does a second identical call
    (not "Already claimed"). *)
Lemma claim_with_valid_proof_can_fail :
  let env := Scenario.asAlice Scenario.deployedAt in
  let s := Scenario.deployed 0 in
  MerkleProof.verify Scenario.aliceProof (merkleRoot s)
    (keccak256 (encodePacked (msg_sender env) Scenario.ether)) = true
  /\ block_timestamp env <= refundDeadline s
  /\ fst (tx_claimRefund Accept env Scenario.aliceProof Scenario.ether s) <> Success
  /\ fst (tx_claimRefund Accept env Scenario.aliceProof Scenario.ether
            (snd (tx_claimRefund Accept env Scenario.aliceProof Scenario.ether s)))
     = Reverted "Transfer failed".
Proof.
  cbv zeta. split_and!.
  - exact alice_proof_verifies.
  - scenario_time.
  - rewrite (alice_claim Accept 0). discriminate.
  - rewrite (alice_claim Accept 0). change (0 <? Scenario.ether) with true.
    cbv [snd]. rewrite (alice_claim Accept 0). reflexivity.
Qed.

(** C4, amended. For a caller with a proof that verifies against the stored
    root, a call of [claimRefund] not after the deadline, by a caller who
    has not claimed and whose transfer succeeds (the balance covers the
    amount and the caller's code accepts it), succeeds and records the
    claim; from then on an identical call not after the deadline fails with
    "Already claimed", whatever happened in between; and any call after the
    deadline fails with "Refund period over", whatever the proof. *)
Theorem claim_lifecycle c env _proof _amount s s1 :
  _status s = _NOT_ENTERED ->
  MerkleProof.verify _proof (merkleRoot s)
    (keccak256 (encodePacked (msg_sender env) _amount)) = true ->
  block_timestamp env <= refundDeadline s ->
  is_claimed s (msg_sender env) = false ->
  _amount <= balance s ->
  run (block_timestamp env) c (set_balance (balance s - _amount) (before_transfer env s))
    = Some s1 ->
  let s' := set_status _NOT_ENTERED (emit (RefundClaimed (msg_sender env) _amount) s1) in
  tx_claimRefund c env _proof _amount s = (Success, s')
  /\ is_claimed s' (msg_sender env) = true
  /\ (forall c' env' s2,
        msg_sender env' = msg_sender env ->
        _status s2 = _NOT_ENTERED ->
        refundDeadline s2 = refundDeadline s ->
        (forall a, is_claimed s' a = true -> is_claimed s2 a = true) ->
        block_timestamp env' <= refundDeadline s ->
        tx_claimRefund c' env' _proof _amount s2 = (Reverted "Already claimed", s2))
  /\ (forall c' env' _proof' _amount' s2,
        _status s2 = _NOT_ENTERED ->
        refundDeadline s2 < block_timestamp env' ->
        tx_claimRefund c' env' _proof' _amount' s2 = (Reverted "Refund period over", s2)).
Proof.
  intros Hst Hv Hnow Hcl Hbal Hrun s'.
  assert (is_claimed s' (msg_sender env) = true) as Hcl'.
  { apply run_preserved in Hrun; [|right; reflexivity].
    change (is_claimed s1 (msg_sender env) = true).
    apply (preserved_claimed _ _ Hrun).
    change (is_claimed (before_transfer env s) (msg_sender env) = true).
    unfold before_transfer. rewrite is_claimed_set_claimed.
    rewrite bool_decide_eq_true_2; reflexivity. }
  split_and!.
  - rewrite tx_claimRefund_cases by exact Hst. rewrite Hcl, Hv, Hrun.
    destruct (Z.leb_spec (block_timestamp env) (refundDeadline s)); [|lia].
    destruct (Z.ltb_spec (balance s) _amount); [lia|]. reflexivity.
  - exact Hcl'.
  - intros c' env' s2 Hsender Hst2 Hdl Hmono Hnow'.
    rewrite tx_claimRefund_cases by exact Hst2.
    rewrite Hdl, Hsender, (Hmono _ Hcl').
    destruct (Z.leb_spec (block_timestamp env') (refundDeadline s)); [|lia].
    reflexivity.
  - intros c' env' _proof' _amount' s2 Hst2 Hlate.
    rewrite tx_claimRefund_cases by exact Hst2.
    destruct (Z.leb_spec (block_timestamp env') (refundDeadline s2)); [lia|].
    reflexivity.
Qed.


Lemma claim_lifecycle_witness :
  let env := Scenario.asAlice Scenario.deployedAt in
  let first := tx_claimRefund Accept env Scenario.aliceProof Scenario.ether Scenario.funded in
  fst first = Success
  /\ balance (snd first) = balance Scenario.funded - Scenario.ether
  /\ tx_claimRefund Accept env Scenario.aliceProof Scenario.ether (snd first)
     = (Reverted "Already claimed", snd first).
Proof.
  cbv zeta.
  destruct (claim_lifecycle Accept (Scenario.asAlice Scenario.deployedAt)
              Scenario.aliceProof Scenario.ether Scenario.funded
              (set_balance (balance Scenario.funded - Scenario.ether)
                 (before_transfer (Scenario.asAlice Scenario.deployedAt) Scenario.funded)))
    as (E & _ & Hagain & _).
  - reflexivity.
  - exact alice_proof_verifies.
  - scenario_time.
  - reflexivity.
  - unfold Scenario.funded, Scenario.ether. cbn [balance Scenario.deployed]. lia.
  - reflexivity.
  - rewrite E. split_and!.
    + reflexivity.
    + reflexivity.
    + apply Hagain.
      * reflexivity.
      * reflexivity.
      * reflexivity.
      * intros a Ha. exact Ha.
      * scenario_time.
Defined.

Lemma claimRefund_ext call1 call2 env _proof _amount s :
  (forall v, call1 (msg_sender env) v (before_transfer env s)
             = call2 (msg_sender env) v (before_transfer env s)) ->
  claimRefund call1 env _proof _amount s = claimRefund call2 env _proof _amount s.
Proof. intros H. rewrite !claimRefund_cases, H. reflexivity. Qed.

Lemma withdraw_ext call1 call2 env _amount s :
  (forall v, call1 (msg_sender env) v s = call2 (msg_sender env) v s) ->
  withdraw call1 env _amount s = withdraw call2 env _amount s.
Proof. intros H. rewrite !withdraw_cases, H. reflexivity. Qed.

Lemma external_call_ext callee1 callee2 v s :
  callee1 (set_balance (balance s - v) s) = callee2 (set_balance (balance s - v) s) ->
  external_call callee1 v s = external_call callee2 v s.
Proof. intros H. unfold external_call. rewrite H. reflexivity. Qed.

Lemma nested_claim_fails call env _proof _amount s :
  is_claimed s (msg_sender env) = true ->
  exists reason, claimRefund call env _proof _amount s = Throw reason.
Proof.
  intros Hcl. rewrite claimRefund_cases, Hcl.
  destruct (_status s =? _ENTERED); [eauto|].
  destruct (negb _); eauto.
Qed.

(** Once [claimed[user]] is true, the code that holds control behaves as
    code for which every read of [claimed[user]] gives true and every call
    of [claimRefund] as [user] fails. *)
Lemma run_blind now user c s :
  guard_known s -> is_claimed s user = true ->
  run now c s = run now (blind user c) s.
Proof.
  revert s.
  induction c as [| | sender _proof _amount inner IHinner k IHk
                   | sender _amount inner IHinner k IHk | value k IHk
                   | sender newOwner k IHk | sender k IHk | a k IHk | k IHk
                   | attempt IHattempt k IHk];
    intros s Hst Hcl; cbn [blind].
  - reflexivity.
  - reflexivity.
  - destruct (Z.eqb_spec sender user) as [->|Hne].
    + cbn [run].
      destruct (nested_claim_fails (fun _ v => external_call (run now inner) v)
                  {| msg_sender := user; block_timestamp := now |} _proof _amount s Hcl)
        as [reason ->].
      apply IHk; assumption.
    + cbn [run].
      rewrite (claimRefund_ext _ (fun _ v => external_call (run now (blind user inner)) v)).
      * destruct (claimRefund _ _ _ _ s) as [s1|msg] eqn:E; [|apply IHk; assumption].
        apply claimRefund_preserved in E; [|exact Hst|].
        -- apply IHk; [eapply preserved_guard_known; eassumption|].
           apply (preserved_claimed _ _ E). exact Hcl.
        -- intros to v s0 ok s2 Hs0. apply external_call_preserved; [exact Hs0|].
           intros s3 s4. apply run_preserved.
      * intros v. apply external_call_ext. apply IHinner; [right; reflexivity|].
        change (is_claimed (before_transfer
                              {| msg_sender := sender; block_timestamp := now |} s) user
                = true).
        unfold before_transfer. rewrite is_claimed_set_claimed.
        case_bool_decide; [reflexivity|exact Hcl].
  - cbn [run].
    rewrite (withdraw_ext _ (fun _ v => external_call (run now (blind user inner)) v)).
    + destruct (withdraw _ _ _ s) as [s1|msg] eqn:E; [|apply IHk; assumption].
      apply withdraw_preserved in E; [|exact Hst|].
      * apply IHk; [eapply preserved_guard_known; eassumption|].
        apply (preserved_claimed _ _ E). exact Hcl.
      * intros to v s0 ok s2 Hs0. apply external_call_preserved; [exact Hs0|].
        intros s3 s4. apply run_preserved.
    + intros v. apply external_call_ext. apply IHinner; [exact Hst|exact Hcl].
  - cbn [run]. apply IHk; [exact Hst|exact Hcl].
  - cbn [run]. destruct (transferOwnership _ _ s) as [s1|msg] eqn:E;
      [|apply IHk; assumption].
    apply transferOwnership_preserved in E.
    apply IHk; [eapply preserved_guard_known; eassumption|].
    apply (preserved_claimed _ _ E). exact Hcl.
  - cbn [run]. destruct (renounceOwnership _ s) as [s1|msg] eqn:E;
      [|apply IHk; assumption].
    apply renounceOwnership_preserved in E.
    apply IHk; [eapply preserved_guard_known; eassumption|].
    apply (preserved_claimed _ _ E). exact Hcl.
  - destruct (Z.eqb_spec a user) as [->|Hne]; cbn [run].
    + rewrite Hcl. apply IHk; assumption.
    + apply IHk; assumption.
  - cbn [run]. apply IHk; assumption.
  - cbn [run]. rewrite <- (IHattempt s Hst Hcl).
    destruct (run now attempt s) as [s1|] eqn:E; [|apply IHk; assumption].
    apply run_preserved in E; [|exact Hst].
    apply IHk; [eapply preserved_guard_known; eassumption|].
    apply (preserved_claimed _ _ E). exact Hcl.
Qed.

(** C5. [claimRefund] records the claim before it transfers. When the
    checks pass and the balance covers the amount, the code at the caller's
    address is run on the state in which the guard is taken, the caller's
    claim record is already true and the amount has left the balance, and
    the outcome of the call is the outcome of that code. In that state
    [claimed[caller]] is true, and it stays true for as long as the code
    holds control: the code behaves as code for which every read of
    [claimed[caller]] gives true and every nested [claimRefund] by the
    caller fails. Such a nested call cannot pass the already-claimed check:
    its body stops at "Already claimed" (or at the deadline check before
    it). *)
Theorem claimRefund_records_claim_before_transfer (world : Z -> Callee) env _proof
    _amount s :
  _status s = _NOT_ENTERED ->
  block_timestamp env <= refundDeadline s ->
  is_claimed s (msg_sender env) = false ->
  MerkleProof.verify _proof (merkleRoot s)
    (keccak256 (encodePacked (msg_sender env) _amount)) = true ->
  _amount <= balance s ->
  let handed :=
    set_balance (balance s - _amount)
      (set_claimed (msg_sender env) true (set_status _ENTERED s)) in
  tx_claimRefund_in world env _proof _amount s
  = match run (block_timestamp env) (world (msg_sender env)) handed with
    | Some s1 =>
        (Success, set_status _NOT_ENTERED (emit (RefundClaimed (msg_sender env) _amount) s1))
    | None => (Reverted "Transfer failed", s)
    end
  /\ is_claimed handed (msg_sender env) = true
  /\ run (block_timestamp env) (world (msg_sender env)) handed
     = run (block_timestamp env) (blind (msg_sender env) (world (msg_sender env))) handed
  /\ (forall call' env' _proof' _amount' s1,
        msg_sender env' = msg_sender env ->
        is_claimed s1 (msg_sender env) = true ->
        claimRefund_body call' env' _proof' _amount' s1
        = Throw (if block_timestamp env' <=? refundDeadline s1
                 then "Already claimed" else "Refund period over")
        /\ exists reason, claimRefund call' env' _proof' _amount' s1 = Throw reason).
Proof.
  intros Hst Hnow Hcl Hv Hbal handed.
  assert (is_claimed handed (msg_sender env) = true) as Hhanded.
  { change (is_claimed (set_claimed (msg_sender env) true (set_status _ENTERED s))
              (msg_sender env) = true).
    rewrite is_claimed_set_claimed. rewrite bool_decide_eq_true_2; reflexivity. }
  split_and!.
  - unfold tx_claimRefund_in, transact. rewrite claimRefund_cases, Hst, Hcl, Hv.
    change (_NOT_ENTERED =? _ENTERED) with false. cbv iota.
    destruct (Z.leb_spec (block_timestamp env) (refundDeadline s)); [|lia].
    cbn [negb]. unfold call_address, external_call.
    change (balance (before_transfer env s)) with (balance s).
    destruct (Z.ltb_spec (balance s) _amount); [lia|].
    fold handed. change (set_balance (balance s - _amount) (before_transfer env s))
                   with handed.
    destruct (run _ _ handed); reflexivity.
  - exact Hhanded.
  - apply run_blind; [right; reflexivity|exact Hhanded].
  - intros call' env' _proof' _amount' s1 Hsender Hcl1. split.
    + unfold claimRefund_body, mbind, result_bind, require.
      destruct (block_timestamp env' <=? refundDeadline s1); [|reflexivity].
      cbv iota. rewrite Hsender, Hcl1. reflexivity.
    + apply nested_claim_fails. rewrite Hsender. exact Hcl1.
Qed.

Lemma claimRefund_records_claim_before_transfer_witness :
  let cautious := ReadClaimed Scenario.alice (fun recorded => if recorded then Accept else Reject) in
  fst (tx_claimRefund_in (fun _ => cautious) (Scenario.asAlice Scenario.deployedAt)
         Scenario.aliceProof Scenario.ether Scenario.funded) = Success.
Proof.
  cbv zeta.
  destruct (claimRefund_records_claim_before_transfer
              (fun _ => ReadClaimed Scenario.alice
                          (fun recorded => if recorded then Accept else Reject))
              (Scenario.asAlice Scenario.deployedAt) Scenario.aliceProof Scenario.ether
              Scenario.funded) as (E & Hrecorded & _).
  - reflexivity.
  - scenario_time.
  - reflexivity.
  - exact alice_proof_verifies.
  - unfold Scenario.funded, Scenario.ether. cbn [balance Scenario.deployed]. lia.
  - rewrite E. cbn [run].
    change (msg_sender (Scenario.asAlice Scenario.deployedAt)) with Scenario.alice in *.
    rewrite Hrecorded. reflexivity.
Defined.

(** A recipient that calls [claimRefund] again while it is being paid is
    paid once: the nested call fails and the contract's balance drops by one
    amount only. *)
Example reentrant_claim_is_paid_once :
  let attacker :=
    ReenterClaimRefund Scenario.alice Scenario.aliceProof Scenario.ether Accept
      (fun _ => Accept) in
  let after := tx_claimRefund attacker (Scenario.asAlice Scenario.deployedAt)
                 Scenario.aliceProof Scenario.ether Scenario.funded in
  fst after = Success
  /\ balance (snd after) = balance Scenario.funded - Scenario.ether
  /\ events (snd after)
     = events Scenario.funded ++ [RefundClaimed Scenario.alice Scenario.ether].
Proof.
  cbv zeta. unfold Scenario.funded. rewrite alice_claim.
  split_and!; reflexivity.
Qed.

End RefundFacts.

(** ** The tree builder *)

Section MerkleFacts.

Import MerkleTreeJS.

Lemma mapM_result_Ok_inv {A B : Type} (f : A -> result B) a l bs :
  mapM_result f (a :: l) = Ok bs ->
  exists b bs', f a = Ok b /\ mapM_result f l = Ok bs' /\ bs = b :: bs'.
Proof.
  simpl. unfold mbind, result_bind.
  destruct (f a) as [b|]; [|discriminate].
  destruct (mapM_result f l) as [bs'|]; [|discriminate].
  intros [= <-]. eauto.
Qed.

Lemma mapM_result_cons {A B : Type} (f : A -> result B) a l b bs :
  f a = Ok b -> mapM_result f l = Ok bs -> mapM_result f (a :: l) = Ok (b :: bs).
Proof.
  intros Ha Hl. simpl. rewrite Ha. simpl. rewrite Hl. reflexivity.
Qed.

Lemma mapM_result_pair_swapped {A B : Type} (f : A -> result B) l l' bs :
  pair_swapped l l' -> mapM_result f l = Ok bs ->
  exists bs', mapM_result f l' = Ok bs' /\ pair_swapped bs bs'.
Proof.
  intros Hsw. revert bs.
  induction Hsw as [|x|x y l l' Hsw IH|x y l l' Hsw IH]; intros bs Hbs.
  - injection Hbs as <-. exists []. split; [reflexivity|constructor].
  - exists bs. split; [exact Hbs|].
    apply mapM_result_Ok_inv in Hbs as (b & bs' & _ & Hnil & ->).
    injection Hnil as <-. constructor.
  - apply mapM_result_Ok_inv in Hbs as (b1 & bs1 & Hx & Hbs & ->).
    apply mapM_result_Ok_inv in Hbs as (b2 & bs2 & Hy & Hbs & ->).
    destruct (IH _ Hbs) as (bs' & Hbs' & Hsw').
    exists (b1 :: b2 :: bs'). split; [|constructor; exact Hsw'].
    apply mapM_result_cons; [exact Hx|]. apply mapM_result_cons; assumption.
  - apply mapM_result_Ok_inv in Hbs as (b1 & bs1 & Hx & Hbs & ->).
    apply mapM_result_Ok_inv in Hbs as (b2 & bs2 & Hy & Hbs & ->).
    destruct (IH _ Hbs) as (bs' & Hbs' & Hsw').
    exists (b2 :: b1 :: bs'). split; [|constructor; exact Hsw'].
    apply mapM_result_cons; [exact Hy|]. apply mapM_result_cons; assumption.
Qed.

Lemma pair_swapped_length {A : Type} (l l' : list A) :
  pair_swapped l l' -> length l = length l'.
Proof. induction 1; simpl; congruence. Qed.

Lemma pair_swapped_short {A : Type} (l l' : list A) :
  pair_swapped l l' -> (length l <= 1)%nat -> l = l'.
Proof. destruct 1; simpl; intros; try reflexivity; lia. Qed.

(** Sorting a pair forgets the order in which it was given. *)
Lemma combine_sorted_comm (l r : Buffer) :
  concat (combine true l r) = concat (combine true r l).
Proof.
  unfold combine. rewrite (Buffer_compare_antisym l r). simpl andb.
  destruct (Z.ltb_spec 0 (Buffer_compare l r)) as [Hlt|Hge];
    destruct (Z.ltb_spec 0 (- Buffer_compare l r)) as [Hlt'|Hge']; try reflexivity.
  - lia.
  - assert (l = r) as -> by (apply Buffer_compare_eq; lia). reflexivity.
Qed.

Lemma nextLayer_pair_swapped hash (l l' : list Buffer) :
  pair_swapped l l' -> nextLayer hash true l = nextLayer hash true l'.
Proof.
  induction 1 as [|x|x y l l' Hsw IH|x y l l' Hsw IH]; simpl; try reflexivity.
  - rewrite IH. reflexivity.
  - rewrite IH, (combine_sorted_comm x y). reflexivity.
Qed.

Lemma createHashes_loop_ext hash sorted fuel (l l' : list Buffer) :
  length l = length l' ->
  nextLayer hash sorted l = nextLayer hash sorted l' ->
  createHashes_loop hash sorted fuel l = createHashes_loop hash sorted fuel l'.
Proof.
  intros Hlen Hnext. destruct fuel as [|fuel]; simpl; [reflexivity|].
  rewrite Hlen, Hnext. reflexivity.
Qed.

Lemma createHashes_loop_short hash sorted fuel (l : list Buffer) :
  (length l <= 1)%nat -> createHashes_loop hash sorted fuel l = [].
Proof.
  intros Hlen. destruct fuel as [|fuel]; simpl; [reflexivity|].
  destruct (Nat.ltb_spec 1 (length l)); [lia|reflexivity].
Qed.

Lemma createHashes_loop_long hash sorted fuel (l : list Buffer) :
  (1 < length l)%nat ->
  createHashes_loop hash sorted (S fuel) l
  = nextLayer hash sorted l :: createHashes_loop hash sorted fuel (nextLayer hash sorted l).
Proof.
  intros Hlen. simpl.
  destruct (Nat.ltb_spec 1 (length l)); [reflexivity|lia].
Qed.

Lemma getRoot_pair_swapped hash (l l' : list Buffer) :
  pair_swapped l l' -> getRoot (new hash true l) = getRoot (new hash true l').
Proof.
  intros Hsw. unfold getRoot, new, createHashes; simpl.
  destruct (le_lt_dec (length l) 1) as [Hshort|Hlong].
  - rewrite (pair_swapped_short _ _ Hsw Hshort). reflexivity.
  - rewrite <- (pair_swapped_length _ _ Hsw).
    rewrite (createHashes_loop_ext hash true _ l l'
               (pair_swapped_length _ _ Hsw) (nextLayer_pair_swapped hash _ _ Hsw)).
    destruct (length l) as [|n] eqn:Hn; [lia|].
    rewrite createHashes_loop_long
      by (rewrite <- (pair_swapped_length _ _ Hsw); lia).
    rewrite !last_cons.
    destruct (last (createHashes_loop hash true n (nextLayer hash true l')));
      reflexivity.
Qed.

(** C7, as stated, fails: [getMerkle] on an empty table returns a tree, whose
    root is the empty byte string; nothing is thrown. *)
Lemma getMerkle_empty_returns_a_tree :
  exists t, getMerkle 18 [] = Ok t /\ getRoot t = [] /\ getHexRoot t = "0x"%string.
Proof.
  eexists. split_and!; reflexivity.
Qed.

(** C7, amended. Building the tree from an empty table is not an error:
    [getMerkle] returns the tree with an empty leaf layer as its only layer,
    and the root of that tree is the empty byte string, "0x" in
    hexadecimal. *)
Theorem getMerkle_empty (decimals : Z) :
  exists t,
    getMerkle decimals [] = Ok t
    /\ leaves t = []
    /\ layers t = [[]]
    /\ getRoot t = []
    /\ getHexRoot t = "0x"%string.
Proof.
  eexists. split_and!; reflexivity.
Qed.

(** C2, as stated, fails: the same three leaves in two orders give two
    roots. *)
Lemma root_depends_on_leaf_order :
  let table := [ (Scenario.alice_address, "1"); (Scenario.bob_address, "2.5");
                 (Scenario.carol_address, "0.35") ]%string in
  let permuted := [ (Scenario.alice_address, "1"); (Scenario.carol_address, "0.35");
                    (Scenario.bob_address, "2.5") ]%string in
  Permutation table permuted
  /\ getHexRoot <$> getMerkle 18 table
     = Ok "0xd09db271d006dae40816ed66c130f6b2cced20cd42874a6478ce14629029edc4"%string
  /\ getHexRoot <$> getMerkle 18 permuted
     = Ok "0xbecd4912441b683c37e2ea52532c8fd623152485e607cd68350f15c00463de7a"%string
  /\ getHexRoot <$> getMerkle 18 table <> getHexRoot <$> getMerkle 18 permuted.
Proof.
  cbv zeta.
  assert (getHexRoot <$> getMerkle 18
            [ (Scenario.alice_address, "1"); (Scenario.bob_address, "2.5");
              (Scenario.carol_address, "0.35") ]%string
          = Ok "0xd09db271d006dae40816ed66c130f6b2cced20cd42874a6478ce14629029edc4"%string)
    as Hroot by (vm_compute; reflexivity).
  assert (getHexRoot <$> getMerkle 18
            [ (Scenario.alice_address, "1"); (Scenario.carol_address, "0.35");
              (Scenario.bob_address, "2.5") ]%string
          = Ok "0xbecd4912441b683c37e2ea52532c8fd623152485e607cd68350f15c00463de7a"%string)
    as Hpermuted by (vm_compute; reflexivity).
  split_and!.
  - apply perm_skip, perm_swap.
  - exact Hroot.
  - exact Hpermuted.
  - rewrite Hroot, Hpermuted. discriminate.
Qed.

(** C2, amended. The root does not change when the two leaves of sibling
    pairs (positions 2k and 2k + 1 of the leaf sequence) are exchanged:
    sorting each pair before hashing makes the order inside a pair
    irrelevant. Other reorderings can change the root. *)
Theorem getMerkle_root_pair_swapped (decimals : Z) (investors investors' : list (string * string)) t :
  pair_swapped investors investors' ->
  getMerkle decimals investors = Ok t ->
  exists t', getMerkle decimals investors' = Ok t' /\ getRoot t' = getRoot t.
Proof.
  intros Hsw. unfold getMerkle.
  destruct (mapM_result _ investors) as [ls|] eqn:E; [|discriminate].
  intros [= <-].
  destruct (mapM_result_pair_swapped _ _ _ _ Hsw E) as (ls' & -> & Hsw').
  eexists. split; [reflexivity|].
  symmetry. apply getRoot_pair_swapped. exact Hsw'.
Qed.

End MerkleFacts.

(** ** Proofs from the tree verify in the contract *)

Section RoundTrip.

Import MerkleTreeJS.

Abbreviation hash32 := (fun b : Buffer => length b = 32%nat).

(** On 32-byte values, the pair hash of the contract is the pair hash of
    the tree builder, whichever way round the pair is given. *)
Lemma hashPair_combine (a b : Buffer) :
  length a = length b ->
  MerkleProof._hashPair a b = keccak256 (concat (combine true a b)).
Proof.
  intros Hlen.
  unfold MerkleProof._hashPair, MerkleProof.bytes32_lt, MerkleProof._efficientHash, combine.
  rewrite (Buffer_compare_be_value a b Hlen). simpl andb.
  destruct (Z.compare_spec (be_value a) (be_value b)) as [Heq|Hlt|Hgt].
  - rewrite (be_value_inj a b Hlen Heq), Z.ltb_irrefl.
    simpl. rewrite app_nil_r. reflexivity.
  - destruct (Z.ltb_spec (be_value a) (be_value b)); [|lia].
    simpl. rewrite app_nil_r. reflexivity.
  - destruct (Z.ltb_spec (be_value a) (be_value b)); [lia|].
    simpl. rewrite app_nil_r. reflexivity.
Qed.

Lemma hashPair_combine_flip (a b : Buffer) :
  length a = length b ->
  MerkleProof._hashPair b a = keccak256 (concat (combine true a b)).
Proof.
  intros Hlen. rewrite hashPair_combine by congruence.
  rewrite combine_sorted_comm. reflexivity.
Qed.

Lemma list_pair_ind {A : Type} (P : list A -> Prop) :
  P [] -> (forall x, P [x]) -> (forall x y l, P l -> P (x :: y :: l)) ->
  forall l, P l.
Proof.
  intros Hnil Hone Hpair.
  assert (forall l, P l /\ forall x, P (x :: l)) as H.
  { induction l as [|y l [IH1 IH2]]; split; auto. }
  intros l. apply H.
Qed.

Lemma nextLayer_hash32 (nodes : list Buffer) :
  Forall hash32 nodes -> Forall hash32 (nextLayer keccak256 true nodes).
Proof.
  induction nodes as [|x|x y l IH] using list_pair_ind; intros H; simpl.
  - constructor.
  - exact H.
  - inversion H as [|? ? _ H']; subst. inversion H' as [|? ? _ H'']; subst.
    constructor; [apply keccak256_length|]. apply IH. exact H''.
Qed.

Lemma nextLayer_length hash sorted (nodes : list Buffer) :
  length (nextLayer hash sorted nodes) = Nat.div2 (S (length nodes)).
Proof.
  induction nodes as [|x|x y l IH] using list_pair_ind; simpl; try reflexivity.
  rewrite IH. reflexivity.
Qed.

Lemma nextLayer_shorter hash sorted (nodes : list Buffer) :
  (1 < length nodes)%nat ->
  (length (nextLayer hash sorted nodes) < length nodes)%nat.
Proof.
  intros Hlen. rewrite nextLayer_length, Nat.div2_div.
  apply Nat.Div0.div_lt_upper_bound. lia.
Qed.

(** The loop of [createHashes] ends because the layer has shrunk to one
    node (or was empty), never because its iteration bound ran out: a
    larger bound gives the same layers. *)
Lemma createHashes_loop_fuel hash sorted (fuel fuel' : nat) (nodes : list Buffer) :
  (length nodes <= fuel)%nat -> (length nodes <= fuel')%nat ->
  createHashes_loop hash sorted fuel nodes = createHashes_loop hash sorted fuel' nodes.
Proof.
  revert fuel' nodes.
  induction fuel as [|fuel IH]; intros fuel' nodes Hf Hf'.
  - rewrite !createHashes_loop_short by lia. reflexivity.
  - destruct (le_lt_dec (length nodes) 1) as [Hshort|Hlong].
    + rewrite !createHashes_loop_short by lia. reflexivity.
    + destruct fuel' as [|fuel']; [lia|].
      rewrite !createHashes_loop_long by lia.
      pose proof (nextLayer_shorter hash sorted nodes Hlong).
      f_equal. apply IH; lia.
Qed.

Lemma proofStep_shift (x y : Buffer) (l : list Buffer) (j : nat) :
  proofStep (x :: y :: l) (Z.of_nat (S (S j))) = proofStep l (Z.of_nat j).
Proof.
  unfold proofStep.
  replace (Z.of_nat (S (S j))) with (Z.of_nat j + 1 * 2) by lia.
  rewrite Z.mod_add by lia.
  pose proof (Z.mod_pos_bound (Z.of_nat j) 2 ltac:(lia)) as Hm.
  cbn [length]. rewrite !Nat2Z.inj_succ.
  destruct (Z.eqb_spec (Z.of_nat j mod 2) 0) as [He|Ho].
  - replace (Z.to_nat (Z.of_nat j + 1 * 2 + 1)) with (S (S (Z.to_nat (Z.of_nat j + 1)))) by lia.
    destruct (Z.ltb_spec (Z.of_nat j + 1 * 2 + 1) (Z.succ (Z.succ (Z.of_nat (length l)))));
      destruct (Z.ltb_spec (Z.of_nat j + 1) (Z.of_nat (length l))); try lia; reflexivity.
  - assert (0 < Z.of_nat j) by (destruct j; [exfalso; apply Ho; reflexivity|lia]).
    replace (Z.to_nat (Z.of_nat j + 1 * 2 - 1)) with (S (S (Z.to_nat (Z.of_nat j - 1)))) by lia.
    destruct (Z.ltb_spec (Z.of_nat j + 1 * 2 - 1) (Z.succ (Z.succ (Z.of_nat (length l)))));
      destruct (Z.ltb_spec (Z.of_nat j - 1) (Z.of_nat (length l))); try lia; reflexivity.
Qed.

Lemma proofStep_first (a b : Buffer) (l : list Buffer) :
  proofStep (a :: b :: l) 0 = [{| position := right_; data := b |}].
Proof.
  unfold proofStep. cbn [length]. rewrite !Nat2Z.inj_succ.
  change (0 mod 2 =? 0) with true. cbv iota.
  destruct (Z.ltb_spec (0 + 1) (Z.succ (Z.succ (Z.of_nat (length l))))); [reflexivity|lia].
Qed.

Lemma proofStep_second (a b : Buffer) (l : list Buffer) :
  proofStep (a :: b :: l) 1 = [{| position := left_; data := a |}].
Proof.
  unfold proofStep. cbn [length]. rewrite !Nat2Z.inj_succ.
  change (1 mod 2 =? 0) with false. cbv iota.
  destruct (Z.ltb_spec (1 - 1) (Z.succ (Z.succ (Z.of_nat (length l))))); [reflexivity|lia].
Qed.

(** Hashing a node with the sibling that [getProof] reports gives its
    parent in the next layer; a node without a sibling is its own parent. *)
Lemma nextLayer_parent (nodes : list Buffer) (i : nat) (x : Buffer) :
  Forall hash32 nodes ->
  nodes !! i = Some x ->
  nextLayer keccak256 true nodes !! Nat.div2 i
  = Some (MerkleProof.processProof (map data (proofStep nodes (Z.of_nat i))) x).
Proof.
  revert i.
  induction nodes as [|a|a b l IH] using list_pair_ind; intros i Hall Hi.
  - discriminate.
  - destruct i as [|i]; [|discriminate]. injection Hi as <-. reflexivity.
  - inversion Hall as [|? ? Ha Hall']; subst.
    inversion Hall' as [|? ? Hb Hall'']; subst.
    destruct i as [|[|j]].
    + injection Hi as <-. change (Z.of_nat 0) with 0. rewrite proofStep_first.
      cbn [map data MerkleProof.processProof fold_left nextLayer Nat.div2].
      rewrite hashPair_combine by congruence. reflexivity.
    + injection Hi as <-. change (Z.of_nat 1) with 1. rewrite proofStep_second.
      cbn [map data MerkleProof.processProof fold_left nextLayer Nat.div2].
      rewrite (hashPair_combine_flip a b) by congruence. reflexivity.
    + rewrite proofStep_shift. cbn [Nat.div2 nextLayer].
      apply (IH j Hall''). exact Hi.
Qed.

(** The root a list of layers ends in, as [getRoot] reads it. *)
Lemma getRoot_layers t :
  getRoot t = match last (layers t) with Some (root :: _) => root | _ => [] end.
Proof. reflexivity. Qed.

Lemma proofWalk_cons (layer : list Buffer) (layers : list (list Buffer)) (index : Z) :
  proofWalk (layer :: layers) index = proofStep layer index ++ proofWalk layers (index / 2).
Proof. reflexivity. Qed.

Lemma processProof_app (p q : list Buffer) (x : Buffer) :
  MerkleProof.processProof (p ++ q) x
  = MerkleProof.processProof q (MerkleProof.processProof p x).
Proof. apply fold_left_app. Qed.

Lemma proofWalk_verifies (fuel : nat) (nodes : list Buffer) (i : nat) (x : Buffer) :
  (length nodes <= fuel)%nat ->
  Forall hash32 nodes ->
  nodes !! i = Some x ->
  Some (MerkleProof.processProof
          (map data (proofWalk (nodes :: createHashes_loop keccak256 true fuel nodes)
                       (Z.of_nat i))) x)
  = last (nodes :: createHashes_loop keccak256 true fuel nodes) ≫= head.
Proof.
  revert nodes i x.
  induction fuel as [|fuel IH]; intros nodes i x Hfuel Hall Hi.
  - apply lookup_lt_Some in Hi. lia.
  - destruct (le_lt_dec (length nodes) 1) as [Hshort|Hlong].
    + rewrite createHashes_loop_short by exact Hshort.
      destruct nodes as [|a [|b l]]; simpl in Hshort; try lia; [discriminate|].
      destruct i as [|i]; [|discriminate]. injection Hi as <-. reflexivity.
    + rewrite createHashes_loop_long by exact Hlong.
      rewrite proofWalk_cons, map_app, processProof_app.
      pose proof (nextLayer_parent nodes i x Hall Hi) as Hp.
      pose proof (nextLayer_shorter keccak256 true nodes Hlong) as Hsh.
      replace (Z.of_nat i / 2) with (Z.of_nat (Nat.div2 i))
        by (rewrite Nat.div2_div, Nat2Z.inj_div; reflexivity).
      rewrite (IH (nextLayer keccak256 true nodes) (Nat.div2 i) _
                 ltac:(lia) (nextLayer_hash32 nodes Hall) Hp).
      rewrite (last_cons nodes).
      destruct (last (nextLayer keccak256 true nodes
                      :: createHashes_loop keccak256 true fuel (nextLayer keccak256 true nodes)))
        eqn:El; [reflexivity|].
      rewrite last_cons in El. destruct (last (createHashes_loop _ _ _ _)); discriminate.
Qed.

Lemma proofStep_hash32 (layer : list Buffer) (index : Z) :
  Forall hash32 layer -> Forall hash32 (map data (proofStep layer index)).
Proof.
  intros Hall. unfold proofStep.
  destruct (_ <? _); [|constructor].
  destruct (layer !! _) as [d|] eqn:E; [|constructor].
  constructor; [|constructor]. simpl.
  rewrite Forall_forall in Hall. apply Hall.
  eapply list_elem_of_lookup_2. exact E.
Qed.

Lemma proofWalk_hash32 (layers : list (list Buffer)) (index : Z) :
  Forall (Forall hash32) layers -> Forall hash32 (map data (proofWalk layers index)).
Proof.
  revert index. induction layers as [|layer layers IH]; intros index Hall.
  - constructor.
  - inversion Hall; subst. cbn [proofWalk]. rewrite map_app.
    apply Forall_app. split; [apply proofStep_hash32; assumption|apply IH; assumption].
Qed.

Lemma createHashes_hash32 (nodes : list Buffer) :
  Forall hash32 nodes -> Forall (Forall hash32) (createHashes keccak256 true nodes).
Proof.
  intros Hall. unfold createHashes. constructor; [exact Hall|].
  generalize (length nodes) as fuel. intros fuel. revert nodes Hall.
  induction fuel as [|fuel IH]; intros nodes Hall; simpl; [constructor|].
  destruct (_ <? _)%nat; [|constructor].
  constructor; [apply nextLayer_hash32; exact Hall|].
  apply IH. apply nextLayer_hash32. exact Hall.
Qed.


Lemma mapM_result_In {A B : Type} (f : A -> result B) (l : list A) (bs : list B) (a : A) :
  mapM_result f l = Ok bs -> In a l -> exists b, f a = Ok b /\ In b bs.
Proof.
  revert bs. induction l as [|a' l IH]; intros bs Hbs Hin; [destruct Hin|].
  apply mapM_result_Ok_inv in Hbs as (b & bs' & Ha & Hl & ->).
  destruct Hin as [->|Hin].
  - exists b. split; [exact Ha|left; reflexivity].
  - destruct (IH _ Hl Hin) as (b' & Hb' & Hin'). exists b'. split; [exact Hb'|right; exact Hin'].
Qed.

Lemma mapM_result_Forall {A B : Type} (f : A -> result B) (P : B -> Prop)
    (l : list A) (bs : list B) :
  (forall a b, f a = Ok b -> P b) -> mapM_result f l = Ok bs -> Forall P bs.
Proof.
  intros Hf. revert bs. induction l as [|a l IH]; intros bs Hbs.
  - injection Hbs as <-. constructor.
  - apply mapM_result_Ok_inv in Hbs as (b & bs' & Ha & Hl & ->).
    constructor; [eapply Hf; exact Ha|apply IH; exact Hl].
Qed.

(** The index search of [getProof] finds a position of the leaf whenever
    the leaf is in the tree. *)
Lemma leafIndex_spec (t : MerkleTree) (leaf : Buffer) :
  (leafIndex t leaf = -1 /\ ~ In leaf (leaves t))
  \/ (exists i : nat, leafIndex t leaf = Z.of_nat i /\ leaves t !! i = Some leaf).
Proof.
  unfold leafIndex. generalize (leaves t) as ls. clear t.
  induction ls as [|x ls IH] using rev_ind.
  - left. split; [reflexivity|intros []].
  - rewrite imap_app, fold_left_app. cbn [imap fold_left].
    destruct (Z.eqb_spec (Buffer_compare leaf x) 0) as [Heq|Hne].
    + apply Buffer_compare_eq in Heq as <-.
      right. exists (length ls + 0)%nat. split; [reflexivity|].
      rewrite Nat.add_0_r. apply list_lookup_middle. reflexivity.
    + destruct IH as [[-> Hnot]|(i & -> & Hi)].
      * left. split; [reflexivity|].
        rewrite in_app_iff. intros [Hin|[->|[]]]; [exact (Hnot Hin)|].
        apply Hne, Buffer_compare_refl.
      * right. exists i. split; [reflexivity|].
        apply lookup_app_l_Some. exact Hi.
Qed.

Lemma entryLeaf_length (decimals : Z) (address tokens : string) (leaf : Buffer) :
  entryLeaf decimals address tokens = Ok leaf -> length leaf = 32%nat.
Proof.
  unfold entryLeaf, mbind, result_bind.
  destruct (parseUnits tokens decimals); [|discriminate].
  apply generateLeaf_length.
Qed.

Lemma getMerkle_leaves (decimals : Z) (investors : list (string * string)) t :
  getMerkle decimals investors = Ok t ->
  mapM_result (fun '(address, tokens) => entryLeaf decimals address tokens) investors
  = Ok (leaves t)
  /\ layers t = createHashes keccak256 true (leaves t).
Proof.
  unfold getMerkle.
  change (fun '(address, tokens) =>
            units ← parseUnits tokens decimals;
            generateLeaf address (BigNumber.toString units))
    with (fun '(address, tokens) => entryLeaf decimals address tokens).
  destruct (mapM_result _ investors) as [ls|]; [|discriminate].
  intros [= <-]. split; reflexivity.
Qed.

(** In a tree over 32-byte leaves, the siblings collected from a leaf's
    position hash up to the root. *)
Lemma proofWalk_root t (i : nat) (leaf : Buffer) :
  layers t = createHashes keccak256 true (leaves t) ->
  Forall hash32 (leaves t) ->
  leaves t !! i = Some leaf ->
  MerkleProof.processProof (map data (proofWalk (layers t) (Z.of_nat i))) leaf = getRoot t.
Proof.
  intros Hlayers Hall Hi.
  pose proof (proofWalk_verifies (length (leaves t)) (leaves t) i leaf
                (Nat.le_refl _) Hall Hi) as Hwalk.
  fold (createHashes keccak256 true (leaves t)) in Hwalk.
  rewrite <- Hlayers in Hwalk. rewrite getRoot_layers.
  destruct (last (layers t)) as [[|root rest]|]; unfold mbind, option_bind in Hwalk;
    cbn [head] in Hwalk; try discriminate.
  injection Hwalk as <-. reflexivity.
Qed.

End RoundTrip.

(** The proof [getProof] returns for an entry of the table hashes up to the
    root of the tree built from it. *)
Lemma getProof_roundtrip (decimals : Z) (investors : list (string * string))
    (t : MerkleTreeJS.MerkleTree)
    (address tokens : string) :
  getMerkle decimals investors = Ok t ->
  In (address, tokens) investors ->
  exists leaf hexProof proof,
    entryLeaf decimals address tokens = Ok leaf
    /\ getProof t address tokens decimals = Ok hexProof
    /\ mapM_result abi_bytes32 hexProof = Ok proof
    /\ MerkleProof.verify proof (MerkleTreeJS.getRoot t) leaf = true.
Proof.
  intros Ht Hin.
  destruct (getMerkle_leaves _ _ _ Ht) as [Hls Hlayers].
  destruct (mapM_result_In _ _ _ _ Hls Hin) as (leaf & Hleaf & Hmem).
  cbn beta iota in Hleaf.
  assert (Forall (fun b => length b = 32%nat) (MerkleTreeJS.leaves t)) as Hall.
  { eapply mapM_result_Forall; [|exact Hls].
    intros [a tk] b Hb. eapply entryLeaf_length. exact Hb. }
  destruct (leafIndex_spec t leaf) as [[_ Hnot]|(i & Hidx & Hi)]; [contradiction|].
  set (items := MerkleTreeJS.proofWalk (MerkleTreeJS.layers t) (Z.of_nat i)).
  assert (MerkleTreeJS.getProof t leaf = items) as Hproof.
  { unfold MerkleTreeJS.getProof. rewrite Hidx.
    destruct (Z.leb_spec (Z.of_nat i) (-1)); [lia|reflexivity]. }
  exists leaf, (map hexlify (map MerkleTreeJS.data items)), (map MerkleTreeJS.data items).
  split_and!.
  - exact Hleaf.
  - unfold getProof. unfold entryLeaf, mbind, result_bind in Hleaf |- *.
    destruct (parseUnits tokens decimals) as [units|]; [|discriminate].
    rewrite Hleaf. unfold MerkleTreeJS.getHexProof. rewrite Hproof, map_map. reflexivity.
  - apply mapM_abi_bytes32_hexlify. unfold items.
    apply proofWalk_hash32. rewrite Hlayers. apply createHashes_hash32. exact Hall.
  - unfold MerkleProof.verify. apply bool_decide_eq_true_2.
    apply proofWalk_root; assumption.
Qed.


(** C3. For every (address, amount) entry of the table the tree was built
    from, the proof that [getProof] returns for that entry, passed to the
    contract as [bytes32[]], verifies against the tree's root and the leaf of
    the entry under [MerkleProof.verify]. *)
Theorem getProof_verifies (decimals : Z) (investors : list (string * string))
    (t : MerkleTreeJS.MerkleTree)
    (address tokens : string) :
  getMerkle decimals investors = Ok t ->
  In (address, tokens) investors ->
  exists leaf hexProof proof,
    entryLeaf decimals address tokens = Ok leaf
    /\ getProof t address tokens decimals = Ok hexProof
    /\ mapM_result abi_bytes32 hexProof = Ok proof
    /\ MerkleProof.verify proof (MerkleTreeJS.getRoot t) leaf = true.
Proof. apply getProof_roundtrip. Qed.

Lemma getProof_verifies_witness :
  exists leaf hexProof proof,
    entryLeaf 18 Scenario.carol_address "0.35" = Ok leaf
    /\ getProof Scenario.merkleTree Scenario.carol_address "0.35" 18 = Ok hexProof
    /\ mapM_result abi_bytes32 hexProof = Ok proof
    /\ MerkleProof.verify proof (MerkleTreeJS.getRoot Scenario.merkleTree) leaf = true.
Proof.
  apply (getProof_verifies 18 Scenario.investors).
  - vm_compute. reflexivity.
  - right. right. left. reflexivity.
Defined.

Lemma getMerkle_root_pair_swapped_witness :
  exists t',
    getMerkle 18 [ (Scenario.bob_address, "2.5"); (Scenario.alice_address, "1");
                   (Scenario.dan_address, "0.002"); (Scenario.carol_address, "0.35") ]%string
    = Ok t'
    /\ MerkleTreeJS.getRoot t' = MerkleTreeJS.getRoot Scenario.merkleTree.
Proof.
  apply (getMerkle_root_pair_swapped 18 Scenario.investors).
  - apply pair_swapped_swap, pair_swapped_swap, pair_swapped_nil.
  - vm_compute. reflexivity.
Defined.


(** ** Leaf encoding, off chain and on chain *)

Section Encoding.

Lemma be_bytes_S (n : nat) (v : Z) :
  be_bytes (S n) v = byte_of_Z (Z.shiftr v (8 * Z.of_nat n)) :: be_bytes n v.
Proof.
  unfold be_bytes. cbn [seq map]. f_equal.
  - f_equal. f_equal. lia.
  - rewrite <- seq_shift, map_map. apply map_ext_in.
    intros k _. f_equal. f_equal. lia.
Qed.

Lemma length_be_bytes (n : nat) (v : Z) : length (be_bytes n v) = n.
Proof. unfold be_bytes. rewrite length_map, length_seq. reflexivity. Qed.

(** [be_bytes n v] is the big-endian encoding of [v] on [n] bytes. *)
Lemma be_value_be_bytes (n : nat) (v : Z) :
  be_value (be_bytes n v) = v mod 256 ^ Z.of_nat n.
Proof.
  induction n as [|n IH].
  - cbn. rewrite Z.mod_1_r. reflexivity.
  - rewrite be_bytes_S, be_value_cons, IH, length_be_bytes, byte_to_of_Z.
    rewrite Z.shiftr_div_pow2 by lia.
    rewrite Nat2Z.inj_succ, Z.pow_succ_r by lia.
    replace (2 ^ (8 * Z.of_nat n)) with (256 ^ Z.of_nat n)
      by (change 256 with (2 ^ 8); rewrite <- Z.pow_mul_r by lia; reflexivity).
    assert (0 < 256 ^ Z.of_nat n) as Hpos by (apply Z.pow_pos_nonneg; lia).
    rewrite (Z.mul_comm 256), Z.rem_mul_r by lia. lia.
Qed.

Lemma map_seq_const {A : Type} (f : nat -> A) (c : A) (a m : nat) :
  (forall j, (a <= j < a + m)%nat -> f j = c) -> map f (seq a m) = repeat c m.
Proof.
  revert a. induction m as [|m IH]; intros a Hf; [reflexivity|].
  cbn [seq map repeat]. f_equal; [apply Hf; lia|]. apply IH. intros j Hj. apply Hf. lia.
Qed.

Lemma map_seq_offset {A : Type} (f : nat -> A) (m a k : nat) :
  map f (seq (m + a) k) = map (fun j => f (m + j)%nat) (seq a k).
Proof.
  revert a. induction k as [|k IH]; intros a; [reflexivity|].
  cbn [seq map]. f_equal. rewrite <- IH. f_equal. f_equal. lia.
Qed.

(** Leading zero bytes do not change a big-endian encoding. *)
Lemma be_bytes_pad (m k : nat) (v : Z) :
  0 <= v < 256 ^ Z.of_nat k ->
  be_bytes (m + k) v = repeat x00 m ++ be_bytes k v.
Proof.
  intros Hv. unfold be_bytes. rewrite seq_app, map_app. f_equal.
  - apply map_seq_const. intros j Hj.
    rewrite Z.shiftr_div_pow2 by lia.
    replace (8 * Z.of_nat (m + k - 1 - j)) with (8 * Z.of_nat k + 8 * Z.of_nat (m - 1 - j)) by lia.
    rewrite Z.pow_add_r by lia.
    replace (2 ^ (8 * Z.of_nat k)) with (256 ^ Z.of_nat k)
      by (change 256 with (2 ^ 8); rewrite <- Z.pow_mul_r by lia; reflexivity).
    rewrite <- Z.div_div by (try apply Z.pow_pos_nonneg; lia).
    rewrite (Z.div_small v) by lia. rewrite Z.div_0_l by (apply Z.pow_nonzero; lia).
    reflexivity.
  - rewrite Nat.add_0_l, <- (Nat.add_0_r m) at 1.
    rewrite map_seq_offset.
    apply map_ext_in. intros j _. f_equal. f_equal. lia.
Qed.

Lemma byte_length_bound (v : Z) : 0 <= v -> v < 256 ^ Z.of_nat (byte_length v).
Proof.
  intros Hv. unfold byte_length.
  destruct (Z.eqb_spec v 0) as [->|Hne]; [reflexivity|].
  pose proof (Z.log2_spec v ltac:(lia)) as [_ Hlog].
  pose proof (Z.log2_nonneg v) as Hnn.
  rewrite Z2Nat.id by (pose proof (Z.div_pos (Z.log2 v) 8); lia).
  change 256 with (2 ^ 8). rewrite <- Z.pow_mul_r
    by (pose proof (Z.div_pos (Z.log2 v) 8); lia).
  eapply Z.lt_le_trans; [exact Hlog|].
  apply Z.pow_le_mono_r; [lia|].
  pose proof (Z.mod_pos_bound (Z.log2 v) 8 ltac:(lia)).
  pose proof (Z.div_mod (Z.log2 v) 8 ltac:(lia)). lia.
Qed.

Lemma byte_length_uint256 (v : Z) : 0 <= v < 2 ^ 256 -> (byte_length v <= 32)%nat.
Proof.
  intros Hv. unfold byte_length.
  destruct (Z.eqb_spec v 0) as [->|Hne]; [lia|].
  assert (Z.log2 v < 256) by (apply Z.log2_lt_pow2; lia).
  pose proof (Z.log2_nonneg v).
  assert (Z.log2 v / 8 < 32) by (apply Z.div_lt_upper_bound; lia).
  pose proof (Z.div_pos (Z.log2 v) 8). lia.
Qed.

(** Padding a [uint256] to 32 bytes gives its 32-byte big-endian encoding. *)
Lemma zeroPad_uint256 (v : Z) :
  0 <= v < 2 ^ 256 -> zeroPad v 32 = Ok (be_bytes 32 v).
Proof.
  intros Hv. unfold zeroPad, BigNumber.toBytes. rewrite length_be_bytes.
  pose proof (byte_length_uint256 v Hv) as Hlen.
  destruct (Nat.ltb_spec 32 (byte_length v)); [lia|].
  f_equal. rewrite <- be_bytes_pad
    by (split; [lia|apply byte_length_bound; lia]).
  f_equal. lia.
Qed.

Lemma toTwos256_nonneg (v : Z) : 0 <= v -> BigNumber.toTwos256 v = v.
Proof.
  intros Hv. unfold BigNumber.toTwos256.
  destruct (Z.leb_spec 0 v); [reflexivity|lia].
Qed.



(** A value written with the prefix 0X passes the pattern of
    [BigNumber.from], but its digits are rejected when the number is used:
    [generateLeaf] throws. *)
Example generateLeaf_capital_prefix :
  generateLeaf Scenario.alice_address "0X10" = Throw "Invalid character in 0X10"
  /\ generateLeaf Scenario.alice_address "" = Throw "invalid BigNumber string".
Proof. split; vm_compute; reflexivity. Qed.


End Encoding.

(** ** Decimal amounts *)

Section Parsing.

Import FixedNumber.

#[local] Open Scope string_scope.

Lemma is_digit_cases (c : ascii) :
  is_digit c = true ->
  c = "0"%char \/ c = "1"%char \/ c = "2"%char \/ c = "3"%char \/ c = "4"%char \/
  c = "5"%char \/ c = "6"%char \/ c = "7"%char \/ c = "8"%char \/ c = "9"%char.
Proof.
  destruct c as [[|] [|] [|] [|] [|] [|] [|] [|]]; intros H;
    try discriminate H; tauto.
Qed.

Lemma is_digit_not_minus (c : ascii) : is_digit c = true -> Ascii.eqb c "-" = false.
Proof. intros H. destruct (is_digit_cases c H) as [->|[->|[->|[->|[->|[->|[->|[->|[->| ->]]]]]]]]]; reflexivity. Qed.

Lemma is_digit_not_dot (c : ascii) : is_digit c = true -> c <> "."%char.
Proof. intros H. destruct (is_digit_cases c H) as [->|[->|[->|[->|[->|[->|[->|[->|[->| ->]]]]]]]]]; discriminate. Qed.

Lemma is_decimal_char_cases (c : ascii) :
  is_decimal_char c = true -> c = "."%char \/ is_digit c = true.
Proof.
  unfold is_decimal_char. case_bool_decide; [left; assumption|right; assumption].
Qed.

Lemma all_digits_app (a b : string) :
  all_digits (a ++ b) = all_digits a && all_digits b.
Proof.
  induction a as [|c a IH]; simpl; [reflexivity|]. rewrite IH, andb_assoc. reflexivity.
Qed.

Lemma all_decimal_chars_app (a b : string) :
  all_decimal_chars (a ++ b) = all_decimal_chars a && all_decimal_chars b.
Proof.
  induction a as [|c a IH]; simpl; [reflexivity|]. rewrite IH, andb_assoc. reflexivity.
Qed.

Lemma all_digits_decimal (s : string) :
  all_digits s = true -> all_decimal_chars s = true.
Proof.
  induction s as [|c s IH]; simpl; [reflexivity|].
  intros [Hc Hs]%andb_prop. unfold is_decimal_char. rewrite Hc, (IH Hs), orb_true_r.
  reflexivity.
Qed.

Lemma split_dot_digits (s : string) : all_digits s = true -> split_dot s = [s].
Proof.
  induction s as [|c s IH]; simpl; [reflexivity|].
  intros [Hc Hs]%andb_prop.
  rewrite bool_decide_eq_false_2 by (apply is_digit_not_dot; exact Hc).
  rewrite (IH Hs). reflexivity.
Qed.

Lemma split_dot_literal (w f : string) :
  all_digits w = true -> all_digits f = true ->
  split_dot (w ++ "." ++ f) = [w; f].
Proof.
  intros Hw Hf. induction w as [|c w IH]; simpl.
  - change (split_dot ("" ++ f)) with (split_dot f).
    rewrite (split_dot_digits f Hf). reflexivity.
  - apply andb_prop in Hw as [Hc Hw].
    rewrite bool_decide_eq_false_2 by (apply is_digit_not_dot; exact Hc).
    rewrite (IH Hw). reflexivity.
Qed.

(** A string over [0-9.] with at most one point is a whole part, or a whole
    part, a point and a fraction. *)
Lemma split_dot_shape (body : string) :
  all_decimal_chars body = true ->
  (length (split_dot body) <= 2)%nat ->
  (all_digits body = true /\ split_dot body = [body])
  \/ (exists w f, all_digits w = true /\ all_digits f = true
                  /\ body = w ++ "." ++ f /\ split_dot body = [w; f]).
Proof.
  induction body as [|c body IH]; simpl.
  - intros _ _. left. split; reflexivity.
  - intros [Hc Hbody]%andb_prop Hlen.
    destruct (is_decimal_char_cases c Hc) as [->|Hd].
    + rewrite bool_decide_eq_true_2 in * by reflexivity. simpl in Hlen.
      right. exists "", body.
      destruct (IH Hbody ltac:(lia)) as [[Hall Hsplit]|(w & f & _ & _ & _ & Hsplit)].
      * rewrite Hsplit. split_and!; reflexivity || assumption.
      * rewrite Hsplit in Hlen. simpl in Hlen. lia.
    + rewrite bool_decide_eq_false_2 in * by (apply is_digit_not_dot; exact Hd).
      assert (length (split_dot body) <= 2)%nat as Hlen'
        by (destruct (split_dot body); simpl in *; lia).
      destruct (IH Hbody Hlen') as [[Hall Hsplit]|(w & f & Hw & Hf & -> & Hsplit)].
      * left. rewrite Hd, Hall, Hsplit. split; reflexivity.
      * right. exists (String c w), f. rewrite Hsplit. simpl. rewrite Hd, Hw.
        split_and!; reflexivity || assumption.
Qed.


(** *** The value of a string of digits *)

Ltac digit_codes :=
  repeat match goal with
         | |- context [nat_of_ascii ?c] =>
             let v := eval vm_compute in (nat_of_ascii c) in
             change (nat_of_ascii c) with v
         end.

Lemma horner_cons (acc : Z) (c : ascii) (s : string) :
  horner acc (String c s) = horner (10 * acc + (Z.of_nat (nat_of_ascii c) - 48)) s.
Proof. reflexivity. Qed.

Lemma horner_app (acc : Z) (a b : string) :
  horner acc (a ++ b) = horner (horner acc a) b.
Proof.
  revert acc. induction a as [|c a IH]; intros acc; [reflexivity|].
  change (String c a ++ b) with (String c (a ++ b)).
  rewrite !horner_cons. apply IH.
Qed.

Lemma horner_zeros (acc : Z) (k : nat) :
  horner acc (string_of_list_ascii (repeat "0"%char k)) = acc * 10 ^ Z.of_nat k.
Proof.
  revert acc. induction k as [|k IH]; intros acc.
  - cbn. lia.
  - cbn [repeat string_of_list_ascii]. rewrite horner_cons, IH.
    change (Z.of_nat (nat_of_ascii "0") - 48) with 0.
    rewrite Nat2Z.inj_succ, Z.pow_succ_r by lia. ring.
Qed.

Lemma digits_value_horner (s : string) : digits_value s = horner 0 s.
Proof. reflexivity. Qed.

Lemma of_uint_acc_horner (d : uint) (acc : positive) :
  Z.pos (Pos.of_uint_acc d acc) = horner (Z.pos acc) (NilEmpty.string_of_uint d).
Proof.
  revert acc. induction d as [|d IH|d IH|d IH|d IH|d IH|d IH|d IH|d IH|d IH|d IH];
    intros acc; [reflexivity|..];
    cbn [Pos.of_uint_acc NilEmpty.string_of_uint]; rewrite horner_cons, IH;
    f_equal; digit_codes; lia.
Qed.

Lemma of_uint_horner (d : uint) :
  Z.of_N (Pos.of_uint d) = horner 0 (NilEmpty.string_of_uint d).
Proof.
  induction d as [|d IH|d IH|d IH|d IH|d IH|d IH|d IH|d IH|d IH|d IH];
    [reflexivity|exact IH|..];
    cbn [Pos.of_uint NilEmpty.string_of_uint]; rewrite horner_cons;
    cbn [Z.of_N]; rewrite of_uint_acc_horner; f_equal; digit_codes; lia.
Qed.

Lemma uint_of_string_digits (s : string) :
  all_digits s = true -> exists d, NilEmpty.uint_of_string s = Some d.
Proof.
  induction s as [|c s IH]; [eexists; reflexivity|].
  cbn [all_digits NilEmpty.uint_of_string]. intros [Hc Hs]%andb_prop.
  destruct (IH Hs) as [d ->].
  destruct (is_digit_cases c Hc) as [->|[->|[->|[->|[->|[->|[->|[->|[->| ->]]]]]]]]];
    eexists; reflexivity.
Qed.

Lemma unsigned_part_digits (s : string) :
  all_digits s = true -> BigNumber.unsigned_part s = s.
Proof.
  destruct s as [|c s]; [reflexivity|]. cbn [all_digits]. intros [Hc _]%andb_prop.
  cbn [BigNumber.unsigned_part]. rewrite (is_digit_not_minus c Hc). reflexivity.
Qed.

(** A string of digits does not match the hexadecimal pattern, with or
    without a minus sign. *)
Lemma matches_hex_digits (s : string) :
  all_digits s = true -> BigNumber.matches_hex s = false.
Proof.
  intros Hs. unfold BigNumber.matches_hex. rewrite (unsigned_part_digits s Hs).
  destruct s as [|c [|x hex]]; try reflexivity.
  cbn [all_digits] in Hs. apply andb_prop in Hs as [_ [Hx _]%andb_prop].
  destruct (Ascii.eqb c "0"); [|reflexivity].
  destruct (is_digit_cases x Hx) as [->|[->|[->|[->|[->|[->|[->|[->|[->| ->]]]]]]]]];
    reflexivity.
Qed.

Lemma matches_hex_minus_digits (s : string) :
  all_digits s = true -> BigNumber.matches_hex (String "-" s) = false.
Proof.
  intros Hs. pose proof (matches_hex_digits s Hs) as H.
  unfold BigNumber.matches_hex in *. rewrite (unsigned_part_digits s Hs) in H.
  exact H.
Qed.

(** [BigNumber.from] on a non-empty string of digits. *)
Lemma BigNumber_from_digits (s : string) :
  all_digits s = true -> s <> "" -> BigNumber.from s = Ok (digits_value s).
Proof.
  intros Hs Hne. unfold BigNumber.from. rewrite (matches_hex_digits s Hs).
  unfold BigNumber.from_decimal_string. rewrite (unsigned_part_digits s Hs).
  destruct s as [|c s]; [congruence|].
  pose proof Hs as Hs'. cbn [all_digits] in Hs'. apply andb_prop in Hs' as [Hc Hrest].
  cbn [String.eqb]. unfold NilZero.int_of_string.
  rewrite (is_digit_not_minus c Hc).
  unfold NilZero.uint_of_string.
  destruct (uint_of_string_digits _ Hs) as [d Hd]. rewrite Hd.
  cbn [option_map fmap option_fmap option_map].
  f_equal. unfold Z.of_int, Z.of_uint. rewrite of_uint_horner.
  rewrite (NilEmpty.sus _ _ Hd). reflexivity.
Qed.

Lemma digits_value_empty : digits_value "" = 0.
Proof. reflexivity. Qed.

Lemma digits_value_zero : digits_value "0" = 0.
Proof. reflexivity. Qed.

Lemma digits_value_pad (s : string) (k : nat) :
  digits_value (s ++ string_of_list_ascii (repeat "0"%char k))
  = digits_value s * 10 ^ Z.of_nat k.
Proof. rewrite !digits_value_horner, horner_app. apply horner_zeros. Qed.


(** *** [parseFixed] on a decimal literal *)

Lemma decimal_literal_body negative whole fraction :
  decimal_literal negative whole fraction
  = (if negative then "-" else "") ++ literal_body whole fraction.
Proof. reflexivity. Qed.

Lemma append_nil_r (s : string) : s ++ "" = s.
Proof. induction s as [|c s IH]; [reflexivity|]. change (String c s ++ "") with (String c (s ++ "")). rewrite IH. reflexivity. Qed.

Lemma literal_body_decimal whole fraction :
  all_digits whole = true -> all_digits (fraction_digits fraction) = true ->
  all_decimal_chars (literal_body whole fraction) = true.
Proof.
  intros Hw Hf. unfold literal_body. rewrite all_decimal_chars_app.
  rewrite (all_digits_decimal _ Hw).
  destruct fraction as [f|]; [|reflexivity].
  change ("." ++ f) with (String "."%char f). cbn [all_decimal_chars andb].
  unfold is_decimal_char at 1. rewrite bool_decide_eq_true_2 by reflexivity.
  apply all_digits_decimal. exact Hf.
Qed.

Lemma literal_body_nonempty whole fraction :
  (whole <> "" \/ fraction_digits fraction <> "") -> literal_body whole fraction <> "".
Proof.
  intros Hne. unfold literal_body. destruct whole as [|c w]; [|discriminate].
  destruct fraction as [f|]; [discriminate|]. simpl in Hne. tauto.
Qed.

Lemma literal_body_not_dot whole fraction :
  all_digits whole = true ->
  (whole <> "" \/ fraction_digits fraction <> "") -> literal_body whole fraction <> ".".
Proof.
  intros Hw Hne. unfold literal_body. destruct whole as [|c w].
  - destruct fraction as [[|c f]|]; simpl in Hne; try tauto. discriminate.
  - cbn [all_digits] in Hw. apply andb_prop in Hw as [Hc _].
    change (String c w ++ ?t) with (String c (w ++ t)).
    intros [= -> _]. discriminate Hc.
Qed.

Lemma literal_body_split whole fraction :
  all_digits whole = true -> all_digits (fraction_digits fraction) = true ->
  split_dot (literal_body whole fraction)
  = match fraction with Some f => [whole; f] | None => [whole] end.
Proof.
  intros Hw Hf. unfold literal_body. destruct fraction as [f|].
  - apply split_dot_literal; assumption.
  - rewrite append_nil_r. apply split_dot_digits. exact Hw.
Qed.

Lemma first_char_not_minus (body : string) :
  all_decimal_chars body = true ->
  match body with String c _ => Ascii.eqb c "-" = false | EmptyString => True end.
Proof.
  destruct body as [|c body]; [trivial|]. cbn [all_decimal_chars].
  intros [Hc _]%andb_prop.
  destruct (is_decimal_char_cases c Hc) as [->|Hd]; [reflexivity|].
  apply is_digit_not_minus. exact Hd.
Qed.

Lemma matches_decimal_signed (negative : bool) (body : string) :
  body <> "" -> all_decimal_chars body = true ->
  matches_decimal ((if negative then "-" else "") ++ body) = true.
Proof.
  intros Hne Hall. pose proof (first_char_not_minus body Hall) as Hfirst.
  unfold matches_decimal. destruct negative.
  - change ("-" ++ body) with (String "-"%char body). cbn [Ascii.eqb Bool.eqb].
    rewrite bool_decide_eq_false_2 by exact Hne. exact Hall.
  - change ("" ++ body) with body. destruct body as [|c body]; [congruence|].
    rewrite Hfirst. rewrite bool_decide_eq_false_2 by discriminate. exact Hall.
Qed.

Lemma substring_first (c : ascii) (s : string) : substring 0 1 (String c s) = String c "".
Proof. destruct s; reflexivity. Qed.

Lemma substring_tail (c : ascii) (s : string) :
  substring 1 (String.length (String c s) - 1) (String c s) = s.
Proof.
  cbn [String.length Nat.sub substring]. rewrite Nat.sub_0_r. apply substring_all.
Qed.

Lemma negative_signed (negative : bool) (body : string) :
  body <> "" -> all_decimal_chars body = true ->
  bool_decide (substring 0 1 ((if negative then "-" else "") ++ body) = "-") = negative.
Proof.
  intros Hne Hall. pose proof (first_char_not_minus body Hall) as Hfirst.
  destruct negative.
  - change ("-" ++ body) with (String "-"%char body). rewrite substring_first.
    apply bool_decide_eq_true_2. reflexivity.
  - change ("" ++ body) with body. destruct body as [|c body]; [congruence|].
    rewrite substring_first. apply bool_decide_eq_false_2.
    intros [= ->]. discriminate Hfirst.
Qed.

Lemma all_digits_trim (s : string) :
  all_digits s = true -> all_digits (trim_trailing_zeros s) = true.
Proof.
  induction s as [|c s IH]; [reflexivity|]. cbn [all_digits trim_trailing_zeros].
  intros [Hc Hs]%andb_prop. specialize (IH Hs).
  destruct (trim_trailing_zeros s) as [|c' t].
  - case_bool_decide; [reflexivity|]. cbn [all_digits]. rewrite Hc. reflexivity.
  - change (all_digits (String c (String c' t)))
      with (is_digit c && all_digits (String c' t)).
    rewrite Hc, IH. reflexivity.
Qed.

Lemma trim_trailing_zeros_zero : trim_trailing_zeros "0" = "".
Proof. reflexivity. Qed.

Lemma all_digits_zeros (k : nat) :
  all_digits (string_of_list_ascii (repeat "0"%char k)) = true.
Proof. induction k as [|k IH]; [reflexivity|]. cbn [repeat string_of_list_ascii all_digits]. rewrite IH. reflexivity. Qed.

Lemma length_zeros (k : nat) :
  String.length (string_of_list_ascii (repeat "0"%char k)) = k.
Proof. induction k as [|k IH]; [reflexivity|]. cbn [repeat string_of_list_ascii String.length]. rewrite IH. reflexivity. Qed.

Lemma getMultiplier_range (decimals : Z) :
  0 <= decimals <= 256 ->
  getMultiplier decimals
  = Ok ("1" ++ string_of_list_ascii (repeat "0"%char (Z.to_nat decimals))).
Proof.
  intros Hd. unfold getMultiplier.
  destruct (Z.leb_spec 0 decimals); [|lia].
  destruct (Z.leb_spec decimals 256); [|lia]. reflexivity.
Qed.

Lemma getMultiplier_out_of_range (decimals : Z) :
  ~ 0 <= decimals <= 256 -> getMultiplier decimals = Throw "invalid decimal size".
Proof.
  intros Hd. unfold getMultiplier.
  destruct (Z.leb_spec 0 decimals); destruct (Z.leb_spec decimals 256);
    try reflexivity; lia.
Qed.

Lemma multiplier_value (k : nat) :
  BigNumber.from ("1" ++ string_of_list_ascii (repeat "0"%char k)) = Ok (10 ^ Z.of_nat k).
Proof.
  rewrite BigNumber_from_digits.
  - rewrite digits_value_pad. change (digits_value "1") with 1. f_equal. lia.
  - rewrite all_digits_app, all_digits_zeros. reflexivity.
  - discriminate.
Qed.

(** The fraction after the default, the trimming, the second default and the
    padding: its digits are those of the trimmed fraction, scaled. *)
Lemma padded_fraction_value (f : string) (k : nat) :
  all_digits f = true ->
  (String.length (trim_trailing_zeros f) <= k)%nat ->
  let t := trim_trailing_zeros f in
  BigNumber.from (pad_zeros (if bool_decide (t = "") then "0" else t) k)
  = Ok (digits_value t * 10 ^ Z.of_nat (k - String.length t)).
Proof.
  intros Hf Hlen t. pose proof (all_digits_trim f Hf) as Ht. fold t in Ht, Hlen.
  unfold pad_zeros. case_bool_decide as Hempty.
  - rewrite Hempty. rewrite BigNumber_from_digits.
    + rewrite digits_value_pad. reflexivity.
    + rewrite all_digits_app, all_digits_zeros. reflexivity.
    + discriminate.
  - rewrite BigNumber_from_digits.
    + rewrite digits_value_pad. reflexivity.
    + rewrite all_digits_app, Ht, all_digits_zeros. reflexivity.
    + destruct t; [congruence|discriminate].
Qed.

Lemma length_append (a b : string) :
  String.length (a ++ b) = (String.length a + String.length b)%nat.
Proof.
  induction a as [|c a IH]; [reflexivity|].
  change (String c a ++ b) with (String c (a ++ b)). cbn [String.length]. rewrite IH. reflexivity.
Qed.

(** [parseFixed] on a decimal literal: the exact scaled value when the
    fraction, without its trailing zeros, fits the scale, and an error when
    it does not. *)
Lemma parseFixed_literal (negative : bool) (whole : string) (fraction : option string)
    (decimals : Z) :
  all_digits whole = true ->
  all_digits (fraction_digits fraction) = true ->
  (whole <> "" \/ fraction_digits fraction <> "") ->
  0 <= decimals <= 256 ->
  parseFixed (decimal_literal negative whole fraction) decimals
  = let f := trim_trailing_zeros (fraction_digits fraction) in
    if (Z.to_nat decimals <? String.length f)%nat
    then Throw "fractional component exceeds decimals"
    else Ok ((if negative then -1 else 1)
             * (digits_value whole * 10 ^ decimals
                + digits_value f * 10 ^ (decimals - Z.of_nat (String.length f)))).
Proof.
  intros Hw Hf Hne Hd. cbv zeta.
  pose proof (literal_body_decimal whole fraction Hw Hf) as Hall.
  pose proof (literal_body_nonempty whole fraction Hne) as Hbody.
  unfold parseFixed. rewrite (getMultiplier_range decimals Hd).
  cbn [mbind result_bind]. rewrite decimal_literal_body.
  rewrite (matches_decimal_signed negative _ Hbody Hall). cbn [negb].
  rewrite (negative_signed negative _ Hbody Hall).
  assert ((if negative
           then substring 1
                  (String.length ((if negative then "-" else "") ++ literal_body whole fraction) - 1)
                  ((if negative then "-" else "") ++ literal_body whole fraction)
           else (if negative then "-" else "") ++ literal_body whole fraction)
          = literal_body whole fraction) as ->.
  { destruct negative; [|reflexivity].
    change ("-" ++ ?b) with (String "-"%char b). apply substring_tail. }
  rewrite bool_decide_eq_false_2 by (apply literal_body_not_dot; assumption).
  rewrite (literal_body_split whole fraction Hw Hf).
  assert ((2 <? length (match fraction with Some f => [whole; f] | None => [whole] end))%nat
          = false) as -> by (destruct fraction; reflexivity).
  assert (nth 0 (match fraction with Some f => [whole; f] | None => [whole] end) "" = whole)
    as -> by (destruct fraction; reflexivity).
  assert (nth 1 (match fraction with Some f => [whole; f] | None => [whole] end) ""
          = fraction_digits fraction) as -> by (destruct fraction; reflexivity).
  set (fd := fraction_digits fraction) in *.
  assert (trim_trailing_zeros (if bool_decide (fd = "") then "0" else fd)
          = trim_trailing_zeros fd) as ->.
  { case_bool_decide as E; [rewrite E; reflexivity|reflexivity]. }
  rewrite length_append, length_zeros.
  change (String.length "1" + Z.to_nat decimals - 1)%nat with (S (Z.to_nat decimals) - 1)%nat.
  replace (S (Z.to_nat decimals) - 1)%nat with (Z.to_nat decimals) by lia.
  destruct (Nat.ltb_spec (Z.to_nat decimals) (String.length (trim_trailing_zeros fd)))
    as [Hover|Hfit]; [reflexivity|].
  assert (BigNumber.from (if bool_decide (whole = "") then "0" else whole)
          = Ok (digits_value whole)) as ->.
  { case_bool_decide as E; [rewrite E; reflexivity|].
    apply BigNumber_from_digits; assumption. }
  cbn [mbind result_bind].
  rewrite (padded_fraction_value fd (Z.to_nat decimals) Hf Hfit).
  cbn [mbind result_bind]. rewrite multiplier_value. cbn [mbind result_bind].
  rewrite Z2Nat.id by lia. rewrite Nat2Z.inj_sub by exact Hfit. rewrite Z2Nat.id by lia.
  f_equal. destruct negative; lia.
Qed.


Lemma matches_decimal_inv (value : string) :
  matches_decimal value = true ->
  exists (negative : bool) (body : string),
    value = (if negative then "-" else "") ++ body
    /\ body <> "" /\ all_decimal_chars body = true.
Proof.
  unfold matches_decimal. destruct value as [|c rest]; [discriminate|].
  destruct (Ascii.eqb_spec c "-") as [->|Hc].
  - intros [Hne Hall]%andb_prop. exists true, rest. split_and!; [reflexivity| |exact Hall].
    intros ->. discriminate Hne.
  - intros [_ Hall]%andb_prop. exists false, (String c rest).
    split_and!; [reflexivity|discriminate|exact Hall].
Qed.

(** Whatever [parseFixed] accepts is a decimal literal. *)
Lemma parseFixed_Ok_shape (value : string) (decimals v : Z) :
  parseFixed value decimals = Ok v -> decimal_shape value.
Proof.
  unfold parseFixed.
  destruct (getMultiplier decimals) as [multiplier|]; [|discriminate].
  cbn [mbind result_bind].
  destruct (matches_decimal value) eqn:Hm; [|discriminate]. cbn [negb].
  destruct (matches_decimal_inv value Hm) as (negative & body & -> & Hne & Hall).
  rewrite (negative_signed negative body Hne Hall).
  assert ((if negative
           then substring 1 (String.length ((if negative then "-" else "") ++ body) - 1)
                  ((if negative then "-" else "") ++ body)
           else (if negative then "-" else "") ++ body) = body) as ->.
  { destruct negative; [|reflexivity].
    change ("-" ++ ?b) with (String "-"%char b). apply substring_tail. }
  case_bool_decide as Hdot; [discriminate|].
  destruct (Nat.ltb_spec 2 (length (split_dot body))) as [|Hlen]; [discriminate|].
  intros _.
  destruct (split_dot_shape body Hall Hlen) as [[Hdigits _]|(w & f & Hw & Hf & -> & _)].
  - exists negative, body, None. split_and!; try reflexivity; try assumption.
    + left. exact Hne.
    + unfold decimal_literal, literal_body. rewrite append_nil_r. reflexivity.
  - exists negative, w, (Some f). split_and!; try reflexivity; try assumption.
    destruct w as [|c w]; [|left; discriminate].
    destruct f as [|c f]; [|right; discriminate].
    exfalso. apply Hdot. reflexivity.
Qed.

(** C6, as stated, fails: a fraction longer than the scale is rejected, not
    truncated. *)
Lemma parseUnits_rejects_excess_digits :
  parseUnits "1.2345" 3 = Throw "fractional component exceeds decimals"
  /\ parseUnits "1.2345" 3 <> Ok 1234
  /\ parseUnits "0.1234567890123456789" 18
     = Throw "fractional component exceeds decimals".
Proof.
  split_and!; [vm_compute; reflexivity|vm_compute; discriminate|vm_compute; reflexivity].
Qed.

(** C6, amended. For a scale between 0 and 256, the conversion fails on
    every string that is not a decimal literal; on a decimal literal whose
    fraction, without its trailing zeros, has more digits than the scale it
    fails with "fractional component exceeds decimals" (it neither truncates
    nor rounds); on every other decimal literal it returns the exact scaled
    value. *)
Theorem parseUnits_decimal (value : string) (decimals : Z) :
  0 <= decimals <= 256 ->
  (~ decimal_shape value -> exists msg, parseUnits value decimals = Throw msg)
  /\ (forall negative whole fraction,
        all_digits whole = true ->
        all_digits (fraction_digits fraction) = true ->
        (whole <> "" \/ fraction_digits fraction <> "") ->
        value = decimal_literal negative whole fraction ->
        let f := trim_trailing_zeros (fraction_digits fraction) in
        parseUnits value decimals
        = if (Z.to_nat decimals <? String.length f)%nat
          then Throw "fractional component exceeds decimals"
          else Ok ((if negative then -1 else 1)
                   * (digits_value whole * 10 ^ decimals
                      + digits_value f * 10 ^ (decimals - Z.of_nat (String.length f))))).
Proof.
  intros Hd. split.
  - intros Hshape. unfold parseUnits.
    destruct (parseFixed value decimals) as [v|msg] eqn:E; [|eauto].
    exfalso. apply Hshape. eapply parseFixed_Ok_shape. exact E.
  - intros negative whole fraction Hw Hf Hne ->.
    apply parseFixed_literal; assumption.
Qed.

Lemma parseUnits_decimal_witness :
  parseUnits "1.2345" 3 = Throw "fractional component exceeds decimals"
  /\ parseUnits "2.50" 18 = Ok 2500000000000000000.
Proof.
  split.
  - refine (proj2 (parseUnits_decimal "1.2345" 3 _) false "1" (Some "2345") _ _ _ _).
    + lia.
    + reflexivity.
    + reflexivity.
    + left. discriminate.
    + reflexivity.
  - refine (proj2 (parseUnits_decimal "2.50" 18 _) false "2" (Some "50") _ _ _ _).
    + lia.
    + reflexivity.
    + reflexivity.
    + left. discriminate.
    + reflexivity.
Defined.

End Parsing.

(** ** From the table to a successful claim *)

Section EndToEnd.

#[local] Open Scope string_scope.

Lemma all_digits_string_of_uint (d : uint) :
  all_digits (NilEmpty.string_of_uint d) = true.
Proof. induction d; [reflexivity|..]; cbn [NilEmpty.string_of_uint all_digits]; assumption. Qed.

Lemma string_of_uint_nonnil (d : uint) :
  d <> Nil -> NilZero.string_of_uint d = NilEmpty.string_of_uint d.
Proof. destruct d; [congruence|..]; reflexivity. Qed.

Lemma string_of_uint_first (d : uint) :
  d <> Nil ->
  exists c s, NilEmpty.string_of_uint d = String c s /\ FixedNumber.is_digit c = true.
Proof. destruct d; [congruence|..]; intros _; eexists _, _; split; reflexivity. Qed.

(** [BigNumber.from] reads back what [toString] prints. *)
Lemma BigNumber_from_toString (v : Z) : BigNumber.from (BigNumber.toString v) = Ok v.
Proof.
  unfold BigNumber.from, BigNumber.toString.
  assert (BigNumber.matches_hex (NilZero.string_of_int (Z.to_int v)) = false
          /\ String.eqb (BigNumber.unsigned_part (NilZero.string_of_int (Z.to_int v))) ""
             = false) as [-> Hbody].
  { destruct v as [|p|p]; [split; reflexivity|..]; cbn [Z.to_int NilZero.string_of_int];
      rewrite (string_of_uint_nonnil _ (Unsigned.to_uint_nonnil p));
      pose proof (all_digits_string_of_uint (Pos.to_uint p)) as Hall;
      destruct (string_of_uint_first _ (Unsigned.to_uint_nonnil p)) as (c & s & E & Hc).
    - split; [apply matches_hex_digits; exact Hall|].
      rewrite (unsigned_part_digits _ Hall), E. reflexivity.
    - split; [apply matches_hex_minus_digits; exact Hall|].
      cbn [BigNumber.unsigned_part Ascii.eqb Bool.eqb]. rewrite E. reflexivity. }
  unfold BigNumber.from_decimal_string. rewrite Hbody.
  rewrite NilZero.isi.
  - cbn [fmap option_fmap option_map]. rewrite DecimalZ.of_to. reflexivity.
  - destruct v as [|p|p]; cbn [Z.to_int]; try discriminate.
    intros [= E]. exact (Unsigned.to_uint_nonnil p E).
  - destruct v as [|p|p]; cbn [Z.to_int]; try discriminate.
    intros [= E]. exact (Unsigned.to_uint_nonnil p E).
Qed.



Lemma scenario_tree_built : getMerkle 18 Scenario.investors = Ok Scenario.merkleTree.
Proof. vm_compute. reflexivity. Qed.


End EndToEnd.

(** ** The shape of the tree *)

Section TreeShape.

#[local] Open Scope string_scope.

Abbreviation is32 := (fun b : Buffer => length b = 32%nat).

Lemma nextLayer_nonempty hash sorted (nodes : list Buffer) :
  nodes <> [] -> MerkleTreeJS.nextLayer hash sorted nodes <> [].
Proof. destruct nodes as [|a [|b l]]; simpl; congruence. Qed.

(** With enough iterations the layers of a non-empty list end in a single
    node. *)
Lemma createHashes_loop_root hash sorted (fuel : nat) (nodes : list Buffer) :
  (length nodes <= fuel)%nat -> nodes <> [] ->
  exists root,
    last (nodes :: MerkleTreeJS.createHashes_loop hash sorted fuel nodes) = Some [root].
Proof.
  revert nodes. induction fuel as [|fuel IH]; intros nodes Hfuel Hne.
  - destruct nodes; [congruence|simpl in Hfuel; lia].
  - destruct (le_lt_dec (length nodes) 1) as [Hshort|Hlong].
    + rewrite createHashes_loop_short by exact Hshort.
      destruct nodes as [|a [|b l]]; [congruence| |simpl in Hshort; lia].
      exists a. reflexivity.
    + rewrite createHashes_loop_long by exact Hlong.
      pose proof (nextLayer_shorter hash sorted nodes Hlong) as Hsh.
      destruct (IH (MerkleTreeJS.nextLayer hash sorted nodes) ltac:(lia)
                  (nextLayer_nonempty hash sorted nodes Hne)) as [root Hroot].
      exists root. rewrite last_cons, Hroot. reflexivity.
Qed.

Lemma mapM_result_length {A B : Type} (f : A -> result B) (l : list A) (bs : list B) :
  mapM_result f l = Ok bs -> length bs = length l.
Proof.
  revert bs. induction l as [|a l IH]; intros bs Hbs.
  - injection Hbs as <-. reflexivity.
  - apply mapM_result_Ok_inv in Hbs as (b & bs' & _ & Hl & ->).
    simpl. rewrite (IH _ Hl). reflexivity.
Qed.

Lemma getMerkle_hash32 (decimals : Z) (investors : list (string * string)) t :
  getMerkle decimals investors = Ok t ->
  Forall is32 (MerkleTreeJS.leaves t)
  /\ Forall (Forall is32) (MerkleTreeJS.layers t)
  /\ length (MerkleTreeJS.leaves t) = length investors.
Proof.
  intros Ht. destruct (getMerkle_leaves _ _ _ Ht) as [Hls Hlayers].
  assert (Forall is32 (MerkleTreeJS.leaves t)) as Hall.
  { eapply mapM_result_Forall; [|exact Hls].
    intros [a tk] b Hb. eapply entryLeaf_length. exact Hb. }
  split_and!; [exact Hall| |eapply mapM_result_length; exact Hls].
  rewrite Hlayers. apply createHashes_hash32. exact Hall.
Qed.

(** X9. The root of a tree built from a non-empty table is a single
    32-byte value, and its hexadecimal form is accepted as a [bytes32]
    argument: the builder's output can be passed to the constructor. *)
Theorem getMerkle_root_is_bytes32 (decimals : Z) (investors : list (string * string)) t :
  investors <> [] ->
  getMerkle decimals investors = Ok t ->
  last (MerkleTreeJS.layers t) = Some [MerkleTreeJS.getRoot t]
  /\ length (MerkleTreeJS.getRoot t) = 32%nat
  /\ abi_bytes32 (MerkleTreeJS.getHexRoot t) = Ok (MerkleTreeJS.getRoot t).
Proof.
  intros Hne Ht. destruct (getMerkle_leaves _ _ _ Ht) as [Hls Hlayers].
  destruct (getMerkle_hash32 _ _ _ Ht) as (_ & Hall & Hlen).
  assert (MerkleTreeJS.leaves t <> []) as Hleaves.
  { intros E. rewrite E in Hlen. destruct investors; [congruence|discriminate]. }
  destruct (createHashes_loop_root keccak256 true (length (MerkleTreeJS.leaves t))
              (MerkleTreeJS.leaves t) (Nat.le_refl _) Hleaves) as [root Hroot].
  fold (MerkleTreeJS.createHashes keccak256 true (MerkleTreeJS.leaves t)) in Hroot.
  rewrite <- Hlayers in Hroot.
  assert (MerkleTreeJS.getRoot t = root) as ->
    by (rewrite getRoot_layers, Hroot; reflexivity).
  assert (length root = 32%nat) as H32.
  { apply last_Some_elem_of in Hroot.
    rewrite Forall_forall in Hall. specialize (Hall _ Hroot).
    inversion Hall; assumption. }
  split_and!; [exact Hroot|exact H32|].
  unfold MerkleTreeJS.getHexRoot.
  assert (MerkleTreeJS.getRoot t = root) as ->
    by (rewrite getRoot_layers, Hroot; reflexivity).
  apply abi_bytes32_hexlify. exact H32.
Qed.

Lemma getMerkle_root_is_bytes32_witness :
  length (MerkleTreeJS.getRoot Scenario.merkleTree) = 32%nat.
Proof.
  refine (proj1 (proj2 (getMerkle_root_is_bytes32 18 Scenario.investors
                          Scenario.merkleTree _ scenario_tree_built))).
  discriminate.
Defined.

(** X10. A table with one entry gives a tree whose only layer holds the
    entry's leaf: the root is that leaf, no hashing takes place, and the
    entry's proof is empty. *)
Theorem getMerkle_single_entry (decimals : Z) (address tokens : string)
    (t : MerkleTreeJS.MerkleTree) :
  getMerkle decimals [(address, tokens)] = Ok t ->
  exists leaf,
    entryLeaf decimals address tokens = Ok leaf
    /\ MerkleTreeJS.layers t = [[leaf]]
    /\ MerkleTreeJS.getRoot t = leaf
    /\ getProof t address tokens decimals = Ok []
    /\ MerkleProof.verify [] (MerkleTreeJS.getRoot t) leaf = true.
Proof.
  intros Ht. destruct (getMerkle_leaves _ _ _ Ht) as [Hls Hlayers].
  apply mapM_result_Ok_inv in Hls as (leaf & bs & Hleaf & Hnil & Hleaves).
  injection Hnil as <-. cbn beta iota in Hleaf.
  rewrite Hleaves in Hlayers.
  change (MerkleTreeJS.createHashes keccak256 true [leaf]) with [[leaf]] in Hlayers.
  assert (MerkleTreeJS.getRoot t = leaf) as Hroot
    by (rewrite getRoot_layers, Hlayers; reflexivity).
  exists leaf. split_and!; try assumption.
  - unfold getProof. unfold entryLeaf, mbind, result_bind in Hleaf |- *.
    destruct (parseUnits tokens decimals); [|discriminate].
    rewrite Hleaf. f_equal.
    unfold MerkleTreeJS.getHexProof, MerkleTreeJS.getProof, MerkleTreeJS.leafIndex.
    rewrite Hleaves, Hlayers. cbn [imap fold_left].
    rewrite Buffer_compare_refl. reflexivity.
  - rewrite Hroot. unfold MerkleProof.verify. apply bool_decide_eq_true_2. reflexivity.
Qed.

Lemma getMerkle_single_entry_witness :
  exists leaf,
    entryLeaf 18 Scenario.alice_address "1" = Ok leaf
    /\ getProof (MerkleTreeJS.new keccak256 true [leaf]) Scenario.alice_address "1" 18
       = Ok [].
Proof.
  destruct (getMerkle_single_entry 18 Scenario.alice_address "1"
              (MerkleTreeJS.new keccak256 true
                 [keccak256 (Refund.encodePacked Scenario.alice Scenario.ether)]))
    as (leaf & Hleaf & Hlayers & _ & Hproof & _).
  - vm_compute. reflexivity.
  - injection Hlayers as <-. eexists. split; [exact Hleaf|exact Hproof].
Defined.

(** X11. For an (address, amount) pair whose leaf is not in the tree,
    [getProof] does not fail: it returns the empty proof. The contract
    accepts an empty proof only for a leaf that is the root itself. *)
Theorem getProof_unknown_entry (decimals : Z) (t : MerkleTreeJS.MerkleTree)
    (address value : string) (leaf : Buffer) :
  entryLeaf decimals address value = Ok leaf ->
  ~ In leaf (MerkleTreeJS.leaves t) ->
  getProof t address value decimals = Ok []
  /\ (forall root, MerkleProof.verify [] root leaf = true <-> leaf = root).
Proof.
  intros Hleaf Hnot. split.
  - unfold getProof. unfold entryLeaf, mbind, result_bind in Hleaf |- *.
    destruct (parseUnits value decimals); [|discriminate].
    rewrite Hleaf. f_equal.
    unfold MerkleTreeJS.getHexProof, MerkleTreeJS.getProof.
    destruct (leafIndex_spec t leaf) as [[-> _]|(i & _ & Hi)]; [reflexivity|].
    exfalso. apply Hnot. apply list_elem_of_In. eapply list_elem_of_lookup_2. exact Hi.
  - intros root. unfold MerkleProof.verify. cbn [MerkleProof.processProof fold_left].
    apply bool_decide_eq_true.
Qed.

Lemma getProof_unknown_entry_witness :
  getProof Scenario.merkleTree Scenario.alice_address "2" 18 = Ok [].
Proof.
  refine (proj1 (getProof_unknown_entry 18 Scenario.merkleTree Scenario.alice_address "2"
                   (keccak256 (Refund.encodePacked Scenario.alice (2 * Scenario.ether)))
                   _ _)).
  - vm_compute. reflexivity.
  - vm_compute. intros [E|[E|[E|[E|[]]]]]; discriminate E.
Defined.

Lemma proofStep_length (layer : list Buffer) (index : Z) :
  (length (MerkleTreeJS.proofStep layer index) <= 1)%nat.
Proof.
  unfold MerkleTreeJS.proofStep.
  destruct (_ <? _)%Z; [|simpl; lia].
  destruct (layer !! _); simpl; lia.
Qed.

Lemma proofStep_root (root : Buffer) : MerkleTreeJS.proofStep [root] 0 = [].
Proof. reflexivity. Qed.

Lemma div2_half (n : nat) (index : Z) :
  0 <= index < Z.of_nat n -> 0 <= index / 2 < Z.of_nat (Nat.div2 (S n)).
Proof.
  intros Hi. rewrite Nat.div2_div, Nat2Z.inj_div. change (Z.of_nat 2) with 2.
  split; [apply Z.div_pos; lia|].
  apply Z.div_lt_upper_bound; [lia|].
  pose proof (Z.mul_div_le (Z.of_nat (S n)) 2 ltac:(lia)).
  pose proof (Z.mod_pos_bound (Z.of_nat (S n)) 2 ltac:(lia)).
  pose proof (Z.div_mod (Z.of_nat (S n)) 2 ltac:(lia)). lia.
Qed.

(** The walk takes at most one sibling per level below the root. *)
Lemma proofWalk_length hash sorted (fuel : nat) (nodes : list Buffer) (index : Z) :
  (length nodes <= fuel)%nat -> 0 <= index < Z.of_nat (length nodes) ->
  (length (MerkleTreeJS.proofWalk
             (nodes :: MerkleTreeJS.createHashes_loop hash sorted fuel nodes) index)
   <= length (MerkleTreeJS.createHashes_loop hash sorted fuel nodes))%nat.
Proof.
  revert nodes index. induction fuel as [|fuel IH]; intros nodes index Hfuel Hi.
  - lia.
  - destruct (le_lt_dec (length nodes) 1) as [Hshort|Hlong].
    + rewrite createHashes_loop_short by exact Hshort.
      destruct nodes as [|a [|b l]]; simpl in Hi, Hshort; try lia.
      assert (index = 0) as -> by lia. simpl. lia.
    + rewrite createHashes_loop_long by exact Hlong.
      rewrite proofWalk_cons, length_app. cbn [length].
      pose proof (proofStep_length nodes index).
      pose proof (nextLayer_shorter hash sorted nodes Hlong).
      specialize (IH (MerkleTreeJS.nextLayer hash sorted nodes) (index / 2) ltac:(lia)).
      rewrite nextLayer_length in IH. specialize (IH (div2_half _ _ Hi)). lia.
Qed.

(** The number of levels above the leaves is the base-2 logarithm of the
    number of leaves, rounded up. *)
Lemma createHashes_loop_depth hash sorted (fuel : nat) (nodes : list Buffer) :
  (length nodes <= fuel)%nat ->
  let depth := length (MerkleTreeJS.createHashes_loop hash sorted fuel nodes) in
  Z.of_nat (length nodes) <= 2 ^ Z.of_nat depth
  /\ (depth = 0%nat \/ 2 ^ (Z.of_nat depth - 1) < Z.of_nat (length nodes)).
Proof.
  revert nodes. induction fuel as [|fuel IH]; intros nodes Hfuel; cbv zeta.
  - simpl. split; [lia|left; reflexivity].
  - destruct (le_lt_dec (length nodes) 1) as [Hshort|Hlong].
    + rewrite createHashes_loop_short by exact Hshort.
      simpl. split; [lia|left; reflexivity].
    + rewrite createHashes_loop_long by exact Hlong. cbn [length].
      pose proof (nextLayer_shorter hash sorted nodes Hlong) as Hsh.
      destruct (IH (MerkleTreeJS.nextLayer hash sorted nodes) ltac:(lia)) as [Hup Hlow].
      cbv zeta in Hup, Hlow.
      set (d := length (MerkleTreeJS.createHashes_loop hash sorted fuel
                          (MerkleTreeJS.nextLayer hash sorted nodes))) in *.
      rewrite nextLayer_length in Hup, Hlow.
      assert (Z.of_nat (Nat.div2 (S (length nodes))) = (Z.of_nat (length nodes) + 1) / 2)
        as Hhalf.
      { rewrite Nat.div2_div, Nat2Z.inj_div. f_equal. lia. }
      rewrite Hhalf in Hup, Hlow.
      pose proof (Z.div_mod (Z.of_nat (length nodes) + 1) 2 ltac:(lia)) as Hdm.
      pose proof (Z.mod_pos_bound (Z.of_nat (length nodes) + 1) 2 ltac:(lia)) as Hmod.
      replace (Z.of_nat (S d)) with (Z.of_nat d + 1) by lia.
      rewrite Z.pow_add_r by lia. change (2 ^ 1) with 2.
      replace (Z.of_nat d + 1 - 1) with (Z.of_nat d) by lia.
      split; [lia|right].
      destruct (Nat.eq_dec d 0%nat) as [Hd|Hd]; [rewrite Hd; simpl; lia|].
      destruct Hlow as [Hz|Hlow]; [contradiction|].
      assert (2 ^ Z.of_nat d = 2 * 2 ^ (Z.of_nat d - 1)) as ->.
      { rewrite <- Z.pow_succ_r by lia. f_equal. lia. }
      lia.
Qed.

(** X12. The tree of a table of n entries has ceil(log2 n) levels above
    its leaves, and a proof returned by [getProof] has at most one element
    per level: the proofs the contract receives grow with the logarithm of
    the table's size. *)
Theorem getProof_length_bound (decimals : Z) (investors : list (string * string))
    (t : MerkleTreeJS.MerkleTree) (address tokens : string) (hexProof : list string) :
  getMerkle decimals investors = Ok t ->
  getProof t address tokens decimals = Ok hexProof ->
  let depth := (length (MerkleTreeJS.layers t) - 1)%nat in
  (length hexProof <= depth)%nat
  /\ Z.of_nat (length investors) <= 2 ^ Z.of_nat depth
  /\ (depth = 0%nat \/ 2 ^ (Z.of_nat depth - 1) < Z.of_nat (length investors)).
Proof.
  intros Ht Hproof. destruct (getMerkle_leaves _ _ _ Ht) as [Hls Hlayers].
  pose proof (mapM_result_length _ _ _ Hls) as Hlen.
  cbv zeta. rewrite Hlayers. unfold MerkleTreeJS.createHashes. cbn [length].
  replace (S (length (MerkleTreeJS.createHashes_loop keccak256 true
                        (length (MerkleTreeJS.leaves t)) (MerkleTreeJS.leaves t))) - 1)%nat
    with (length (MerkleTreeJS.createHashes_loop keccak256 true
                    (length (MerkleTreeJS.leaves t)) (MerkleTreeJS.leaves t))) by lia.
  rewrite <- Hlen.
  split; [|apply createHashes_loop_depth; lia].
  unfold getProof, mbind, result_bind in Hproof.
  destruct (parseUnits tokens decimals); [|discriminate].
  destruct (generateLeaf address _) as [leaf|]; [|discriminate].
  injection Hproof as <-.
  unfold MerkleTreeJS.getHexProof, MerkleTreeJS.getProof. rewrite length_map.
  destruct (leafIndex_spec t leaf) as [[-> _]|(i & -> & Hi)]; [simpl; lia|].
  destruct (Z.leb_spec (Z.of_nat i) (-1)); [lia|].
  rewrite Hlayers. apply proofWalk_length; [lia|].
  apply lookup_lt_Some in Hi. lia.
Qed.

Lemma getProof_length_bound_witness :
  exists hexProof,
    getProof Scenario.merkleTree Scenario.alice_address "1" 18 = Ok hexProof
    /\ (length hexProof <= length (MerkleTreeJS.layers Scenario.merkleTree) - 1)%nat.
Proof.
  destruct (getProof_roundtrip 18 Scenario.investors Scenario.merkleTree
              Scenario.alice_address "1" scenario_tree_built)
    as (leaf & hexProof & proof & _ & Hproof & _); [left; reflexivity|].
  exists hexProof. split; [exact Hproof|].
  exact (proj1 (getProof_length_bound 18 Scenario.investors Scenario.merkleTree
                  Scenario.alice_address "1" hexProof scenario_tree_built Hproof)).
Defined.

Lemma mapM_result_Forall2 {A B : Type} (f : A -> result B) (l : list A) (bs : list B) :
  mapM_result f l = Ok bs <-> Forall2 (fun a b => f a = Ok b) l bs.
Proof.
  revert bs. induction l as [|a l IH]; intros bs; split.
  - intros [= <-]. constructor.
  - intros H. inversion H. reflexivity.
  - intros H. apply mapM_result_Ok_inv in H as (b & bs' & Hb & Hl & ->).
    constructor; [exact Hb|]. apply IH. exact Hl.
  - intros H. inversion H as [|a' b l' bs' Hb Hl]; subst.
    apply mapM_result_cons; [exact Hb|]. apply IH. exact Hl.
Qed.

Lemma mapM_result_Throw {A B : Type} (f : A -> result B) (l : list A) (msg : string) :
  mapM_result f l = Throw msg ->
  exists pre a post,
    l = (pre ++ a :: post)%list
    /\ Forall (fun a' => exists b, f a' = Ok b) pre
    /\ f a = Throw msg.
Proof.
  induction l as [|a l IH]; [discriminate|].
  cbn [mapM_result]. unfold mbind, result_bind.
  destruct (f a) as [b|m] eqn:Ha.
  - destruct (mapM_result f l) as [bs|m] eqn:Hl; [discriminate|].
    intros [= ->]. destruct (IH eq_refl) as (pre & a' & post & -> & Hpre & Ha').
    exists (a :: pre), a', post. split_and!; [reflexivity| |exact Ha'].
    constructor; [exists b; exact Ha|exact Hpre].
  - intros [= ->]. exists [], a, l. split_and!; [reflexivity|constructor|exact Ha].
Qed.

(** X13. [getMerkle] computes the leaves in the order of the table, one
    per entry; when the leaf of an entry cannot be computed, no tree is
    returned: the call fails with the error of the first such entry. *)
Theorem getMerkle_entries (decimals : Z) (investors : list (string * string)) :
  match getMerkle decimals investors with
  | Ok t =>
      Forall2 (fun entry leaf => entryLeaf decimals entry.1 entry.2 = Ok leaf)
        investors (MerkleTreeJS.leaves t)
      /\ MerkleTreeJS.sortPairs t = true
  | Throw msg =>
      exists pre address tokens post,
        investors = (pre ++ (address, tokens) :: post)%list
        /\ Forall (fun entry => exists leaf, entryLeaf decimals entry.1 entry.2 = Ok leaf) pre
        /\ entryLeaf decimals address tokens = Throw msg
  end.
Proof.
  destruct (getMerkle decimals investors) as [t|msg] eqn:E.
  - destruct (getMerkle_leaves _ _ _ E) as [Hls _]. split.
    + apply mapM_result_Forall2 in Hls.
      eapply Forall2_impl; [exact Hls|]. intros [a tk] leaf. auto.
    + unfold getMerkle, mbind, result_bind in E.
      destruct (mapM_result _ investors); [|discriminate]. injection E as <-. reflexivity.
  - unfold getMerkle, mbind, result_bind in E.
    destruct (mapM_result _ investors) as [ls|m] eqn:Hls; [discriminate|].
    injection E as ->.
    apply mapM_result_Throw in Hls as (pre & [a tk] & post & -> & Hpre & Ha).
    exists pre, a, tk, post. split_and!; [reflexivity| |exact Ha].
    eapply Forall_impl; [exact Hpre|]. intros [a' tk']. auto.
Qed.

(** X14. [main] of the root script prints the root of its table of ten
    investors, and that root is a non-zero [bytes32] value: the
    constructor accepts it. *)
Theorem main_prints_root :
  GetMerkleRoot.main
  = Ok "0x1748d72331171a54c39ede4ad4a3d5293c4ab160d86425b054952eaa725d9f0c"
  /\ exists root,
       abi_bytes32 "0x1748d72331171a54c39ede4ad4a3d5293c4ab160d86425b054952eaa725d9f0c"
       = Ok root
       /\ root <> repeat x00 32
       /\ forall env funds,
            Refund.constructor env funds root <> Throw "Merkle root cannot be empty".
Proof.
  split; [vm_compute; reflexivity|].
  eexists. split; [vm_compute; reflexivity|].
  split; [discriminate|].
  intros env funds. unfold Refund.constructor, mbind, Refund.require.
  rewrite bool_decide_eq_true_2 by discriminate. cbn [result_bind].
  destruct (_ <=? _)%Z; cbn [result_bind]; discriminate.
Qed.

End TreeShape.


(** ** What the leaf encoding accepts *)

Section LeafDomain.

#[local] Open Scope string_scope.

Lemma be_bytes_inj (n : nat) (v w : Z) :
  0 <= v < 256 ^ Z.of_nat n -> 0 <= w < 256 ^ Z.of_nat n ->
  be_bytes n v = be_bytes n w -> v = w.
Proof.
  intros Hv Hw E. apply (f_equal be_value) in E.
  rewrite !be_value_be_bytes, !Z.mod_small in E by assumption. exact E.
Qed.

(** X15. The packed encoding the contract hashes has 52 bytes and
    determines the pair: two (address, amount) pairs within the ranges of
    their types have the same encoding only when they are the same pair. *)
Theorem encodePacked_injective (user amount user' amount' : Z) :
  0 <= user < 2 ^ 160 -> 0 <= amount < 2 ^ 256 ->
  0 <= user' < 2 ^ 160 -> 0 <= amount' < 2 ^ 256 ->
  length (Refund.encodePacked user amount) = 52%nat
  /\ (Refund.encodePacked user amount = Refund.encodePacked user' amount' ->
      user = user' /\ amount = amount').
Proof.
  intros Hu Ha Hu' Ha'. unfold Refund.encodePacked. split.
  - rewrite length_app, !length_be_bytes. reflexivity.
  - intros E. apply app_inj_1 in E as [E1 E2]; [|rewrite !length_be_bytes; reflexivity].
    split; [apply (be_bytes_inj 20)|apply (be_bytes_inj 32)]; assumption.
Qed.

Lemma encodePacked_injective_witness :
  length (Refund.encodePacked Scenario.alice 1) = 52%nat.
Proof.
  refine (proj1 (encodePacked_injective Scenario.alice 1 Scenario.bob 2 _ _ _ _));
    unfold Scenario.alice, Scenario.bob; lia.
Defined.

Lemma entryLeaf_packed (decimals : Z) (address tokens : string) (bytes : Buffer)
    (amount : Z) :
  arrayify address = Ok bytes ->
  parseUnits tokens decimals = Ok amount ->
  entryLeaf decimals address tokens
  = (v ← zeroPad (BigNumber.toTwos256 amount) 32; Ok (keccak256 (bytes ++ v)%list)).
Proof.
  intros Haddr Hunits. unfold entryLeaf. rewrite Hunits. cbn [mbind result_bind].
  rewrite generateLeaf_packed. unfold solidityPack_address_uint256.
  rewrite Haddr, BigNumber_from_toString. cbn [mbind result_bind].
  destruct (zeroPad _ _); reflexivity.
Qed.

Lemma getProof_entryLeaf (t : MerkleTreeJS.MerkleTree) (address value : string)
    (decimals : Z) :
  getProof t address value decimals
  = (leaf ← entryLeaf decimals address value; Ok (MerkleTreeJS.getHexProof t leaf)).
Proof.
  unfold getProof, entryLeaf, mbind, result_bind.
  destruct (parseUnits value decimals); reflexivity.
Qed.

(** X16. [generateLeaf] does not check that the address has 20 bytes: for
    any byte string written in hexadecimal it returns the hash of those
    bytes followed by the 32-byte amount. When the address is not 20 bytes
    long, what is hashed is no packed encoding of the contract's. *)
Theorem generateLeaf_any_address_length (bytes : Buffer) (value : string) (amount : Z) :
  BigNumber.from value = Ok amount ->
  0 <= amount < 2 ^ 256 ->
  generateLeaf (hexlify bytes) value = Ok (keccak256 (bytes ++ be_bytes 32 amount)%list)
  /\ (length bytes <> 20%nat ->
      forall user amount', (bytes ++ be_bytes 32 amount)%list <> Refund.encodePacked user amount').
Proof.
  intros Hfrom Hamount. split.
  - rewrite generateLeaf_packed. unfold solidityPack_address_uint256.
    rewrite arrayify_hexlify, Hfrom. cbn [mbind result_bind].
    rewrite toTwos256_nonneg by lia. rewrite zeroPad_uint256 by exact Hamount.
    reflexivity.
  - intros Hlen user amount' E. apply (f_equal (@length byte)) in E.
    unfold Refund.encodePacked in E. rewrite !length_app, !length_be_bytes in E. lia.
Qed.

Lemma generateLeaf_any_address_length_witness :
  generateLeaf "0x70997970" "5" = Ok (keccak256 (be_bytes 4 0x70997970 ++ be_bytes 32 5)%list).
Proof.
  refine (proj1 (generateLeaf_any_address_length (be_bytes 4 0x70997970) "5" 5 _ _)).
  - vm_compute. reflexivity.
  - lia.
Defined.

Lemma byte_length_large (v : Z) : 2 ^ 256 <= v -> (32 < byte_length v)%nat.
Proof.
  intros Hv. unfold byte_length.
  destruct (Z.eqb_spec v 0) as [->|_]; [lia|].
  pose proof (Z.log2_le_mono _ _ Hv) as Hlog.
  rewrite Z.log2_pow2 in Hlog by lia.
  pose proof (Z.div_le_mono 256 (Z.log2 v) 8 ltac:(lia) Hlog) as Hdiv.
  change (256 / 8) with 32 in Hdiv. lia.
Qed.

(** X17. An amount of 2^256 units or more does not fit the [uint256] of
    the contract: the leaf of such an entry cannot be computed, and both
    [getMerkle] (through this entry) and [getProof] fail with "value out of
    range". *)
Theorem entryLeaf_out_of_range (decimals : Z) (address tokens : string) (bytes : Buffer)
    (amount : Z) :
  arrayify address = Ok bytes ->
  parseUnits tokens decimals = Ok amount ->
  2 ^ 256 <= amount ->
  entryLeaf decimals address tokens = Throw "value out of range"
  /\ (forall t, getProof t address tokens decimals = Throw "value out of range")
  /\ (forall rest, getMerkle decimals ((address, tokens) :: rest)
                   = Throw "value out of range").
Proof.
  intros Haddr Hunits Hamount.
  assert (entryLeaf decimals address tokens = Throw "value out of range") as Hleaf.
  { rewrite (entryLeaf_packed _ _ _ _ _ Haddr Hunits).
    rewrite toTwos256_nonneg by lia. unfold zeroPad, BigNumber.toBytes.
    rewrite length_be_bytes.
    destruct (Nat.ltb_spec 32 (byte_length amount)) as [_|Hle]; [reflexivity|].
    pose proof (byte_length_large amount Hamount). lia. }
  split_and!; [exact Hleaf| |].
  - intros t. rewrite getProof_entryLeaf, Hleaf. reflexivity.
  - intros rest. unfold getMerkle. cbn [mapM_result].
    change (units ← parseUnits tokens decimals;
            generateLeaf address (BigNumber.toString units))
      with (entryLeaf decimals address tokens).
    rewrite Hleaf. reflexivity.
Qed.

Lemma entryLeaf_out_of_range_witness :
  entryLeaf 77 Scenario.alice_address "2" = Throw "value out of range".
Proof.
  refine (proj1 (entryLeaf_out_of_range 77 Scenario.alice_address "2"
                   (be_bytes 20 Scenario.alice) (2 * 10 ^ 77) _ _ _)).
  - vm_compute. reflexivity.
  - vm_compute. reflexivity.
  - lia.
Defined.

(** X18. A negative amount is accepted: the leaf commits to its two's
    complement on 256 bits, so an entry of -n units is the entry the
    contract reads as 2^256 - n. *)
Theorem entryLeaf_negative_amount (decimals : Z) (address tokens : string)
    (user amount : Z) :
  arrayify address = Ok (be_bytes 20 user) ->
  parseUnits tokens decimals = Ok amount ->
  - 2 ^ 256 < amount < 0 ->
  entryLeaf decimals address tokens
  = Ok (keccak256 (Refund.encodePacked user (2 ^ 256 + amount))).
Proof.
  intros Haddr Hunits Hamount.
  rewrite (entryLeaf_packed _ _ _ _ _ Haddr Hunits).
  assert (BigNumber.toTwos256 amount = 2 ^ 256 + amount) as ->.
  { unfold BigNumber.toTwos256.
    destruct (Z.leb_spec 0 amount); [lia|]. cbv zeta.
    rewrite Z.abs_neq by lia.
    rewrite Z.div_small by lia. rewrite Z.mod_small by lia. lia. }
  rewrite zeroPad_uint256 by lia. reflexivity.
Qed.

Lemma entryLeaf_negative_amount_witness :
  entryLeaf 18 Scenario.alice_address "-1"
  = Ok (keccak256 (Refund.encodePacked Scenario.alice (2 ^ 256 + - 10 ^ 18))).
Proof.
  apply (entryLeaf_negative_amount 18 Scenario.alice_address "-1" Scenario.alice
           (- 10 ^ 18)).
  - vm_compute. reflexivity.
  - vm_compute. reflexivity.
  - lia.
Defined.

Lemma trim_trailing_zeros_zeros (k : nat) :
  FixedNumber.trim_trailing_zeros (string_of_list_ascii (repeat "0"%char k)) = "".
Proof.
  induction k as [|k IH]; [reflexivity|].
  cbn [repeat string_of_list_ascii FixedNumber.trim_trailing_zeros]. rewrite IH.
  reflexivity.
Qed.

Lemma trim_trailing_zeros_app (f : string) (k : nat) :
  FixedNumber.trim_trailing_zeros (f ++ string_of_list_ascii (repeat "0"%char k))
  = FixedNumber.trim_trailing_zeros f.
Proof.
  induction f as [|c f IH].
  - change ("" ++ string_of_list_ascii (repeat "0"%char k))
      with (string_of_list_ascii (repeat "0"%char k)).
    apply trim_trailing_zeros_zeros.
  - change (String c f ++ string_of_list_ascii (repeat "0"%char k))
      with (String c (f ++ string_of_list_ascii (repeat "0"%char k))).
    cbn [FixedNumber.trim_trailing_zeros]. rewrite IH. reflexivity.
Qed.

(** X19. Zeros written after the last digit of the fraction do not count:
    they change neither the value [parseUnits] returns nor whether it fails
    for too many fractional digits. *)
Theorem parseUnits_trailing_zeros (negative : bool) (whole fraction : string) (k : nat)
    (decimals : Z) :
  all_digits whole = true ->
  all_digits fraction = true ->
  (whole <> "" \/ fraction <> "") ->
  0 <= decimals <= 256 ->
  parseUnits
    (decimal_literal negative whole
       (Some (fraction ++ string_of_list_ascii (repeat "0"%char k)))) decimals
  = parseUnits (decimal_literal negative whole (Some fraction)) decimals.
Proof.
  intros Hw Hf Hne Hd. unfold parseUnits.
  rewrite !parseFixed_literal; try assumption.
  - cbn [fraction_digits]. rewrite trim_trailing_zeros_app. reflexivity.
  - cbn [fraction_digits]. rewrite all_digits_app, Hf, all_digits_zeros. reflexivity.
  - cbn [fraction_digits]. destruct Hne as [Hne|Hne]; [left; exact Hne|right].
    destruct fraction; [congruence|discriminate].
Qed.

Lemma parseUnits_trailing_zeros_witness :
  parseUnits "2.500" 1 = parseUnits "2.5" 1.
Proof.
  apply (parseUnits_trailing_zeros false "2" "5" 2 1).
  - reflexivity.
  - reflexivity.
  - left. discriminate.
  - lia.
Defined.

(** X20. With a number of decimals outside 0..256 nothing can be computed:
    [getMerkle] fails on any table that has an entry, and [getProof] fails
    for every entry, both with "invalid decimal size". *)
Theorem invalid_decimals (decimals : Z) (address tokens : string) :
  ~ 0 <= decimals <= 256 ->
  (forall rest, getMerkle decimals ((address, tokens) :: rest)
                = Throw "invalid decimal size")
  /\ (forall t, getProof t address tokens decimals = Throw "invalid decimal size").
Proof.
  intros Hd.
  assert (parseUnits tokens decimals = Throw "invalid decimal size") as Hunits.
  { unfold parseUnits, FixedNumber.parseFixed.
    rewrite getMultiplier_out_of_range by exact Hd. reflexivity. }
  split.
  - intros rest. unfold getMerkle. cbn [mapM_result]. rewrite Hunits. reflexivity.
  - intros t. unfold getProof. rewrite Hunits. reflexivity.
Qed.

Lemma invalid_decimals_witness :
  getMerkle 257 Scenario.investors = Throw "invalid decimal size".
Proof.
  refine (proj1 (invalid_decimals 257 Scenario.alice_address "1" _) _). lia.
Defined.

End LeafDomain.


(** ** The ledger over its lifetime *)

Section LedgerInvariants.

Import Refund.

Ltac scenario_time :=
  cbv [Scenario.asAlice Scenario.asOwner Scenario.deployed Scenario.funded
       block_timestamp refundDeadline];
  unfold Scenario.deployedAt, REFUND_PERIOD_DURATION; lia.

Lemma refunds_emit (u : Z) (e : Event) (s : State) :
  refunds u (emit e s) = (refunds u s + if is_refund_of u e then 1 else 0)%nat.
Proof.
  unfold refunds, emit; cbn [events].
  rewrite List.filter_app, length_app. cbn [List.filter].
  destruct (is_refund_of u e); reflexivity.
Qed.

Lemma owed_before_transfer (env : Env) (s : State) (u : Z) :
  is_claimed s (msg_sender env) = false ->
  owed u (before_transfer env s) = owed u s + if u =? msg_sender env then 1 else 0.
Proof.
  intros Hcl. unfold owed, before_transfer.
  rewrite is_claimed_set_claimed.
  change (is_claimed (set_status _ENTERED s) u) with (is_claimed s u).
  change (refunds u (set_claimed (msg_sender env) true (set_status _ENTERED s)))
    with (refunds u s).
  destruct (Z.eqb_spec u (msg_sender env)) as [->|Hne].
  - rewrite bool_decide_eq_true_2 by reflexivity. rewrite Hcl. lia.
  - rewrite bool_decide_eq_false_2 by exact Hne. lia.
Qed.

Lemma owed_claim_logged (user amount : Z) (s : State) (u : Z) :
  owed u (set_status _NOT_ENTERED (emit (RefundClaimed user amount) s))
  = owed u s - if u =? user then 1 else 0.
Proof.
  unfold owed.
  change (is_claimed (set_status _NOT_ENTERED (emit (RefundClaimed user amount) s)) u)
    with (is_claimed s u).
  change (refunds u (set_status _NOT_ENTERED (emit (RefundClaimed user amount) s)))
    with (refunds u (emit (RefundClaimed user amount) s)).
  rewrite refunds_emit. cbn [is_refund_of]. rewrite (Z.eqb_sym user u).
  destruct (u =? user); lia.
Qed.

Lemma external_call_owed callee v s ok s' :
  (forall s0 s1, callee s0 = Some s1 -> forall u, owed u s1 = owed u s0) ->
  external_call callee v s = (ok, s') -> forall u, owed u s' = owed u s.
Proof.
  intros Hc. unfold external_call.
  destruct (balance s <? v); [intros [= <- <-]; reflexivity|].
  destruct (callee _) as [s1|] eqn:E; intros [= <- <-] u; [|reflexivity].
  rewrite (Hc _ _ E u). reflexivity.
Qed.

Lemma claimRefund_owed call env _proof _amount s s' :
  (forall to v s0 ok s1, call to v s0 = (ok, s1) -> forall u, owed u s1 = owed u s0) ->
  claimRefund call env _proof _amount s = Ok s' -> forall u, owed u s' = owed u s.
Proof.
  intros Hc. rewrite claimRefund_cases.
  destruct (_status s =? _ENTERED); [discriminate|].
  destruct (negb _); [discriminate|].
  destruct (is_claimed s _) eqn:Hcl; [discriminate|].
  destruct (negb _); [discriminate|].
  destruct (call _ _ _) as [[|] s1] eqn:E; [|discriminate].
  intros [= <-] u. rewrite owed_claim_logged, (Hc _ _ _ _ _ E u).
  rewrite (owed_before_transfer env s u Hcl). lia.
Qed.

Lemma withdraw_owed call env _amount s s' :
  (forall to v s0 ok s1, call to v s0 = (ok, s1) -> forall u, owed u s1 = owed u s0) ->
  withdraw call env _amount s = Ok s' -> forall u, owed u s' = owed u s.
Proof.
  intros Hc. rewrite withdraw_cases.
  destruct (negb _); [discriminate|].
  destruct (_ <=? _); [discriminate|].
  destruct (_ <? _); [discriminate|].
  destruct (call _ _ _) as [[|] s1] eqn:E; [|discriminate].
  intros [= <-] u. unfold owed.
  change (is_claimed (emit (FundsWithdrawn _amount) s1) u) with (is_claimed s1 u).
  rewrite refunds_emit. cbn [is_refund_of]. rewrite Nat.add_0_r.
  apply (Hc _ _ _ _ _ E u).
Qed.

Lemma ownership_owed (newOwner : Z) (s : State) (u : Z) :
  owed u (_transferOwnership newOwner s) = owed u s.
Proof.
  unfold owed, _transferOwnership. rewrite refunds_emit. cbn [is_refund_of].
  rewrite Nat.add_0_r. reflexivity.
Qed.

Lemma transferOwnership_owed env newOwner s s' :
  transferOwnership env newOwner s = Ok s' -> forall u, owed u s' = owed u s.
Proof.
  rewrite transferOwnership_cases.
  destruct (negb _); [discriminate|]. destruct (_ =? _); [discriminate|].
  intros [= <-] u. apply ownership_owed.
Qed.

Lemma renounceOwnership_owed env s s' :
  renounceOwnership env s = Ok s' -> forall u, owed u s' = owed u s.
Proof.
  rewrite renounceOwnership_cases.
  destruct (negb _); [discriminate|].
  intros [= <-] u. apply ownership_owed.
Qed.

(** Whatever the paid address does, it leaves every address with as many
    unlogged claims as before. *)
Lemma run_owed now c s s' :
  run now c s = Some s' -> forall u, owed u s' = owed u s.
Proof.
  revert s s'.
  induction c as [| | sender _proof _amount inner IHinner k IHk
                   | sender _amount inner IHinner k IHk | value k IHk
                   | sender newOwner k IHk | sender k IHk | user k IHk | k IHk
                   | attempt IHattempt k IHk];
    intros s s'; simpl.
  - intros [= <-] u. reflexivity.
  - discriminate.
  - destruct (claimRefund _ _ _ _ s) as [s1|msg] eqn:E.
    + intros Hk u. rewrite (IHk _ _ _ Hk u).
      eapply claimRefund_owed; [|exact E].
      intros to v s0 ok s2. apply external_call_owed. exact IHinner.
    + apply IHk.
  - destruct (withdraw _ _ _ s) as [s1|msg] eqn:E.
    + intros Hk u. rewrite (IHk _ _ _ Hk u).
      eapply withdraw_owed; [|exact E].
      intros to v s0 ok s2. apply external_call_owed. exact IHinner.
    + apply IHk.
  - intros Hk u. rewrite (IHk _ _ Hk u). reflexivity.
  - destruct (transferOwnership _ _ s) as [s1|msg] eqn:E; [|apply IHk].
    intros Hk u. rewrite (IHk _ _ _ Hk u). apply (transferOwnership_owed _ _ _ _ E).
  - destruct (renounceOwnership _ s) as [s1|msg] eqn:E; [|apply IHk].
    intros Hk u. rewrite (IHk _ _ _ Hk u). apply (renounceOwnership_owed _ _ _ E).
  - apply IHk.
  - apply IHk.
  - destruct (run now attempt s) as [s1|] eqn:E; [|apply IHk].
    intros Hk u. rewrite (IHk _ _ _ Hk u). apply (IHattempt _ _ E u).
Qed.

Lemma call_sender_owed now c to v s ok s' :
  call_sender now c to v s = (ok, s') -> forall u, owed u s' = owed u s.
Proof.
  unfold call_sender. apply external_call_owed. intros s0 s1. apply run_owed.
Qed.

Lemma constructor_inv env funds root s :
  constructor env funds root = Ok s ->
  root <> repeat x00 32
  /\ s = {| _owner := msg_sender env; _status := _NOT_ENTERED;
            refundDeadline := block_timestamp env + REFUND_PERIOD_DURATION;
            merkleRoot := root; claimed := ∅; balance := funds;
            events := [OwnershipTransferred 0 (msg_sender env)] |}.
Proof.
  unfold constructor, mbind, result_bind, Refund.require.
  case_bool_decide as Hroot; [|discriminate].
  destruct (_ <=? _); [|discriminate].
  intros [= <-]. split; [exact Hroot|reflexivity].
Qed.

Lemma transaction_owed (s s' : State) :
  transaction s s' -> forall u, owed u s' = owed u s.
Proof.
  intros [c env _proof _amount|c env _amount|value|env newOwner|env] u.
  - unfold tx_claimRefund, transact.
    destruct (claimRefund _ _ _ _ s) as [s1|msg] eqn:E; cbn [snd]; [|reflexivity].
    eapply claimRefund_owed; [|exact E].
    intros to v s0 ok s2. apply call_sender_owed.
  - unfold tx_withdraw, transact.
    destruct (withdraw _ _ _ s) as [s1|msg] eqn:E; cbn [snd]; [|reflexivity].
    eapply withdraw_owed; [|exact E].
    intros to v s0 ok s2. apply call_sender_owed.
  - reflexivity.
  - unfold tx_transferOwnership, transact.
    destruct (transferOwnership _ _ s) as [s1|msg] eqn:E; cbn [snd]; [|reflexivity].
    apply (transferOwnership_owed _ _ _ _ E).
  - unfold tx_renounceOwnership, transact.
    destruct (renounceOwnership _ s) as [s1|msg] eqn:E; cbn [snd]; [|reflexivity].
    apply (renounceOwnership_owed _ _ _ E).
Qed.

Lemma reachable_owed (s : State) : reachable s -> forall u, owed u s = 0.
Proof.
  induction 1 as [env funds root s Hdeploy|s s' _ IH Ht]; intros u.
  - apply constructor_inv in Hdeploy as [_ ->]. reflexivity.
  - rewrite (transaction_owed s s' Ht u). apply IH.
Qed.

Lemma scenario_funded_reachable : reachable Scenario.funded.
Proof.
  apply (reachable_deployed (Scenario.asOwner Scenario.deployedAt)
           3852000000000000000 Scenario.merkleRoot).
  unfold constructor, mbind, result_bind, Refund.require.
  rewrite bool_decide_eq_true_2 by (vm_compute; discriminate).
  reflexivity.
Qed.

(** X1. In every state the contract reaches, whatever the paid addresses do
    while they hold control (calling back into [claimRefund], [withdraw],
    [transferOwnership] or [renounceOwnership], paying into [receive],
    reading the getters, undoing a part of what they did), each address has
    been refunded at most once: the
    log holds one [RefundClaimed] event for an address whose claim record is
    true and none for any other. *)
Theorem refunded_at_most_once (s : State) (user : Z) :
  reachable s ->
  refunds user s = if is_claimed s user then 1%nat else 0%nat.
Proof.
  intros Hs. pose proof (reachable_owed s Hs user) as Ho. unfold owed in Ho.
  destruct (is_claimed s user); lia.
Qed.

Lemma refunded_at_most_once_witness :
  let s := snd (tx_claimRefund Accept (Scenario.asAlice Scenario.deployedAt)
                  Scenario.aliceProof Scenario.ether Scenario.funded) in
  refunds Scenario.alice s = if is_claimed s Scenario.alice then 1%nat else 0%nat.
Proof.
  cbv zeta. apply refunded_at_most_once.
  eapply reachable_transaction; [exact scenario_funded_reachable|].
  apply transaction_claimRefund.
Defined.

(** What one transaction leaves as it is. *)
Lemma transaction_keeps (s s' : State) :
  _status s = _NOT_ENTERED -> transaction s s' ->
  _status s' = _NOT_ENTERED
  /\ refundDeadline s' = refundDeadline s
  /\ merkleRoot s' = merkleRoot s
  /\ (forall a, is_claimed s a = true -> is_claimed s' a = true).
Proof.
  intros Hst [c env _proof _amount|c env _amount|value|env newOwner|env].
  - unfold tx_claimRefund, transact.
    destruct (claimRefund _ _ _ _ s) as [s1|msg] eqn:E; cbn [snd]; [|auto].
    apply claimRefund_preserved in E; [|left; exact Hst|].
    + destruct E as [E1 E2 E3 E5]. rewrite E1. auto.
    + intros to v s0 ok s2. apply call_sender_preserved.
  - unfold tx_withdraw, transact.
    destruct (withdraw _ _ _ s) as [s1|msg] eqn:E; cbn [snd]; [|auto].
    apply withdraw_preserved in E; [|left; exact Hst|].
    + destruct E as [E1 E2 E3 E5]. rewrite E1. auto.
    + intros to v s0 ok s2. apply call_sender_preserved.
  - auto.
  - unfold tx_transferOwnership, transact.
    destruct (transferOwnership _ _ s) as [s1|msg] eqn:E; cbn [snd]; [|auto].
    apply transferOwnership_preserved in E. destruct E as [E1 E2 E3 E5].
    rewrite E1. auto.
  - unfold tx_renounceOwnership, transact.
    destruct (renounceOwnership _ s) as [s1|msg] eqn:E; cbn [snd]; [|auto].
    apply renounceOwnership_preserved in E. destruct E as [E1 E2 E3 E5].
    rewrite E1. auto.
Qed.

Lemma reachable_guard_free (s : State) : reachable s -> _status s = _NOT_ENTERED.
Proof.
  induction 1 as [env funds root s Hdeploy|s s' _ IH Ht].
  - apply constructor_inv in Hdeploy as [_ ->]. reflexivity.
  - apply (transaction_keeps s s' IH Ht).
Qed.

(** X2. In every reachable state the re-entrancy guard is free, and no
    transaction (a call of [claimRefund] or [withdraw], whatever the paid
    address does while it holds control, calls of the ownership functions
    included; a payment into [receive]; a transfer of ownership) changes the
    Merkle root or the deadline or resets a claim record. *)
Theorem transactions_keep_immutables_and_claims (s s' : State) :
  reachable s -> transaction s s' ->
  _status s = _NOT_ENTERED
  /\ _status s' = _NOT_ENTERED
  /\ refundDeadline s' = refundDeadline s
  /\ merkleRoot s' = merkleRoot s
  /\ (forall a, is_claimed s a = true -> is_claimed s' a = true).
Proof.
  intros Hs Ht. pose proof (reachable_guard_free s Hs) as Hst.
  split; [exact Hst|]. apply (transaction_keeps s s' Hst Ht).
Qed.

Lemma transactions_keep_immutables_and_claims_witness :
  let s' := snd (tx_claimRefund Accept (Scenario.asAlice Scenario.deployedAt)
                   Scenario.aliceProof Scenario.ether Scenario.funded) in
  _status s' = _NOT_ENTERED /\ merkleRoot s' = merkleRoot Scenario.funded.
Proof.
  cbv zeta.
  destruct (transactions_keep_immutables_and_claims Scenario.funded _
              scenario_funded_reachable
              (transaction_claimRefund Scenario.funded Accept
                 (Scenario.asAlice Scenario.deployedAt) Scenario.aliceProof
                 Scenario.ether))
    as (_ & Hst & _ & Hroot & _).
  split; [exact Hst|exact Hroot].
Defined.

(** X3. [claimRefund] checks, in this order: the re-entrancy guard
    ("ReentrancyGuard: reentrant call"), the deadline ("Refund period over"
    once the time is past it), the caller's claim record ("Already
    claimed"), the Merkle proof ("Invalid proof"); then it transfers, and
    fails with "Transfer failed" when the balance is too small or the caller
    rejects the payment. Every failure leaves the state as it was. *)
Theorem claimRefund_check_order c env _proof _amount s :
  tx_claimRefund c env _proof _amount s =
    if _status s =? _ENTERED
    then (Reverted "ReentrancyGuard: reentrant call", s)
    else if negb (block_timestamp env <=? refundDeadline s)
    then (Reverted "Refund period over", s)
    else if is_claimed s (msg_sender env)
    then (Reverted "Already claimed", s)
    else if negb (MerkleProof.verify _proof (merkleRoot s)
                    (keccak256 (encodePacked (msg_sender env) _amount)))
    then (Reverted "Invalid proof", s)
    else if balance s <? _amount
    then (Reverted "Transfer failed", s)
    else match run (block_timestamp env) c
                 (set_balance (balance s - _amount) (before_transfer env s)) with
         | Some s1 =>
             (Success,
              set_status _NOT_ENTERED (emit (RefundClaimed (msg_sender env) _amount) s1))
         | None => (Reverted "Transfer failed", s)
         end.
Proof.
  unfold tx_claimRefund, transact. rewrite claimRefund_cases.
  destruct (_status s =? _ENTERED); [reflexivity|].
  destruct (negb (_ <=? _)); [reflexivity|].
  destruct (is_claimed s _); [reflexivity|].
  destruct (negb (MerkleProof.verify _ _ _)); [reflexivity|].
  unfold call_sender, external_call.
  change (balance (before_transfer env s)) with (balance s).
  destruct (balance s <? _amount); [reflexivity|].
  destruct (run _ _ _); reflexivity.
Qed.

(** X4. A successful claim by an address without code changes exactly
    this: the balance drops by the amount, the caller's claim record becomes
    true (no other record changes), and one [RefundClaimed(caller, amount)]
    event is appended; root, deadline, owner and guard are as before. *)
Theorem claimRefund_effects env _proof _amount s :
  _status s = _NOT_ENTERED ->
  block_timestamp env <= refundDeadline s ->
  is_claimed s (msg_sender env) = false ->
  MerkleProof.verify _proof (merkleRoot s)
    (keccak256 (encodePacked (msg_sender env) _amount)) = true ->
  _amount <= balance s ->
  exists s',
    tx_claimRefund Accept env _proof _amount s = (Success, s')
    /\ balance s' = balance s - _amount
    /\ claimed s' = <[msg_sender env := true]> (claimed s)
    /\ events s' = events s ++ [RefundClaimed (msg_sender env) _amount]
    /\ _owner s' = _owner s
    /\ refundDeadline s' = refundDeadline s
    /\ merkleRoot s' = merkleRoot s
    /\ _status s' = _status s.
Proof.
  intros Hst Hnow Hcl Hv Hbal. eexists. split.
  - rewrite tx_claimRefund_cases by exact Hst. rewrite Hcl, Hv.
    destruct (Z.leb_spec (block_timestamp env) (refundDeadline s)); [|lia].
    destruct (Z.ltb_spec (balance s) _amount); [lia|]. reflexivity.
  - cbn. rewrite Hst. split_and!; reflexivity.
Qed.

Lemma claimRefund_effects_witness :
  exists s',
    tx_claimRefund Accept (Scenario.asAlice Scenario.deployedAt) Scenario.aliceProof
      Scenario.ether Scenario.funded = (Success, s')
    /\ balance s' = 2852000000000000000.
Proof.
  destruct (claimRefund_effects (Scenario.asAlice Scenario.deployedAt)
              Scenario.aliceProof Scenario.ether Scenario.funded)
    as (s' & E & Hbal & _).
  - reflexivity.
  - scenario_time.
  - reflexivity.
  - exact alice_proof_verifies.
  - unfold Scenario.funded, Scenario.ether. cbn [balance Scenario.deployed]. lia.
  - exists s'. split; [exact E|]. rewrite Hbal. reflexivity.
Defined.

(** X5. A withdrawal by an owner without code, after the deadline and
    within the balance, lowers the balance by the amount and appends one
    [FundsWithdrawn(amount)] event; it changes nothing else, the claim
    records included. *)
Theorem withdraw_effects env _amount s :
  _owner s = msg_sender env ->
  refundDeadline s < block_timestamp env ->
  _amount <= balance s ->
  exists s',
    tx_withdraw Accept env _amount s = (Success, s')
    /\ balance s' = balance s - _amount
    /\ events s' = events s ++ [FundsWithdrawn _amount]
    /\ claimed s' = claimed s
    /\ _owner s' = _owner s
    /\ refundDeadline s' = refundDeadline s
    /\ merkleRoot s' = merkleRoot s
    /\ _status s' = _status s.
Proof.
  intros Howner Hlate Hbal. eexists. split.
  - unfold tx_withdraw, transact. rewrite withdraw_cases.
    rewrite bool_decide_eq_true_2 by exact Howner. cbn [negb].
    destruct (Z.leb_spec (block_timestamp env) (refundDeadline s)); [lia|].
    destruct (Z.ltb_spec (balance s) _amount); [lia|].
    unfold call_sender, external_call.
    destruct (Z.ltb_spec (balance s) _amount); [lia|]. reflexivity.
  - cbn. split_and!; reflexivity.
Qed.

Lemma withdraw_effects_witness :
  exists s',
    tx_withdraw Accept (Scenario.asOwner (Scenario.deployedAt + 7776001))
      350000000000000000 Scenario.funded = (Success, s')
    /\ balance s' = 3502000000000000000.
Proof.
  destruct (withdraw_effects (Scenario.asOwner (Scenario.deployedAt + 7776001))
              350000000000000000 Scenario.funded)
    as (s' & E & Hbal & _).
  - reflexivity.
  - scenario_time.
  - unfold Scenario.funded. cbn [balance Scenario.deployed]. lia.
  - exists s'. split; [exact E|]. rewrite Hbal. reflexivity.
Defined.

(** X6. The claim period and the withdrawal period do not overlap: when a
    claim succeeds at some time, no withdrawal from a contract with the
    same deadline succeeds at that time or before it, whoever calls. *)
Theorem no_withdraw_while_claims_succeed c env _proof _amount s c' env' _amount' s' :
  fst (tx_claimRefund c env _proof _amount s) = Success ->
  refundDeadline s' = refundDeadline s ->
  block_timestamp env' <= block_timestamp env ->
  fst (tx_withdraw c' env' _amount' s') = Reverted "Ownable: caller is not the owner"
  \/ fst (tx_withdraw c' env' _amount' s') = Reverted "Refund period not over".
Proof.
  intros Hclaim Hdl Hbefore.
  assert (block_timestamp env <= refundDeadline s) as Hnow.
  { unfold tx_claimRefund, transact in Hclaim. rewrite claimRefund_cases in Hclaim.
    destruct (_status s =? _ENTERED); [discriminate|].
    destruct (Z.leb_spec (block_timestamp env) (refundDeadline s)); [assumption|].
    discriminate. }
  unfold tx_withdraw, transact. rewrite withdraw_cases.
  destruct (negb _); [left; reflexivity|].
  destruct (Z.leb_spec (block_timestamp env') (refundDeadline s')); [right; reflexivity|lia].
Qed.

Lemma no_withdraw_while_claims_succeed_witness :
  fst (tx_withdraw Accept (Scenario.asOwner Scenario.deployedAt) 1 Scenario.funded)
  = Reverted "Ownable: caller is not the owner"
  \/ fst (tx_withdraw Accept (Scenario.asOwner Scenario.deployedAt) 1 Scenario.funded)
     = Reverted "Refund period not over".
Proof.
  apply (no_withdraw_while_claims_succeed Accept (Scenario.asAlice Scenario.deployedAt)
           Scenario.aliceProof Scenario.ether Scenario.funded).
  - unfold Scenario.funded. rewrite alice_claim. reflexivity.
  - reflexivity.
  - cbn. lia.
Defined.

(** X7. Deployment fails with "Merkle root cannot be empty" for the zero
    root; for any other root (the deadline not overflowing) it succeeds and
    sets the deployer as owner, the deadline 90 days (7776000 seconds) after
    the deployment time and the root as given, with no claim recorded and
    the guard free. *)
Theorem constructor_result env funds root :
  block_timestamp env + REFUND_PERIOD_DURATION <= MAX_UINT256 ->
  if bool_decide (root = repeat x00 32)
  then constructor env funds root = Throw "Merkle root cannot be empty"
  else exists s,
      constructor env funds root = Ok s
      /\ _owner s = msg_sender env
      /\ refundDeadline s = block_timestamp env + 7776000
      /\ merkleRoot s = root
      /\ balance s = funds
      /\ (forall user, is_claimed s user = false)
      /\ _status s = _NOT_ENTERED
      /\ reachable s.
Proof.
  intros Hnow. case_bool_decide as Hroot.
  - unfold constructor, mbind, result_bind, Refund.require.
    rewrite bool_decide_eq_false_2 by (intros E; exact (E Hroot)). reflexivity.
  - assert (constructor env funds root
            = Ok {| _owner := msg_sender env; _status := _NOT_ENTERED;
                    refundDeadline := block_timestamp env + REFUND_PERIOD_DURATION;
                    merkleRoot := root; claimed := ∅; balance := funds;
                    events := [OwnershipTransferred 0 (msg_sender env)] |}) as E.
    { unfold constructor, mbind, result_bind, Refund.require.
      rewrite bool_decide_eq_true_2 by exact Hroot.
      destruct (Z.leb_spec (block_timestamp env + REFUND_PERIOD_DURATION) MAX_UINT256);
        [reflexivity|lia]. }
    eexists. split; [exact E|]. cbn. split_and!; try reflexivity.
    eapply reachable_deployed. exact E.
Qed.

Lemma constructor_result_witness :
  constructor (Scenario.asOwner Scenario.deployedAt) 0 (repeat x00 32)
  = Throw "Merkle root cannot be empty".
Proof.
  refine (constructor_result (Scenario.asOwner Scenario.deployedAt) 0 (repeat x00 32) _).
  vm_compute. discriminate.
Defined.

Lemma payments_emit (e : Event) (s : State) :
  payments (emit e s) = payments s ++ (if is_payment e then [e] else []).
Proof.
  unfold payments, emit; cbn [events]. rewrite List.filter_app. cbn [List.filter].
  destruct (is_payment e); reflexivity.
Qed.

Lemma claim_kept_refl s : claim_kept s s.
Proof. split; reflexivity. Qed.

Lemma claim_kept_trans s1 s2 s3 : claim_kept s1 s2 -> claim_kept s2 s3 -> claim_kept s1 s3.
Proof. intros [] []. split; congruence. Qed.

Lemma _transferOwnership_claim_kept newOwner s : claim_kept s (_transferOwnership newOwner s).
Proof.
  split; try reflexivity. unfold _transferOwnership. rewrite payments_emit.
  cbn [is_payment]. rewrite app_nil_r. reflexivity.
Qed.

(** X8. While the transfer of a claim is under way (the guard taken, the
    deadline not passed), every call back into [claimRefund] fails on the
    guard and every call back into [withdraw] fails on the owner check or on
    the deadline. The paid address can pay into [receive] and, if it is the
    owner, hand over the ownership, which is not guarded; when it returns,
    the claim records, the guard, the root, the deadline and the logged
    payments ([RefundClaimed], [FundsWithdrawn]) are as they were. *)
Theorem claim_transfer_cannot_reenter now c s s' :
  _status s = _ENTERED -> now <= refundDeadline s ->
  run now c s = Some s' ->
  claimed s' = claimed s
  /\ _status s' = _status s
  /\ refundDeadline s' = refundDeadline s
  /\ merkleRoot s' = merkleRoot s
  /\ payments s' = payments s.
Proof.
  intros Hst Hnow Hrun.
  assert (claim_kept s s') as [E1 E2 E3 E4 E5]; [|auto].
  revert s s' Hst Hnow Hrun.
  induction c as [| | sender _proof _amount inner IHinner k IHk
                   | sender _amount inner IHinner k IHk | value k IHk
                   | sender newOwner k IHk | sender k IHk | user k IHk | k IHk
                   | attempt IHattempt k IHk];
    intros s s' Hst Hnow; simpl.
  - intros [= <-]. apply claim_kept_refl.
  - discriminate.
  - rewrite claimRefund_cases, Hst. cbn [Z.eqb Pos.eqb _ENTERED]. apply IHk; assumption.
  - rewrite withdraw_cases. cbn [block_timestamp].
    destruct (negb _); [apply IHk; assumption|].
    destruct (Z.leb_spec now (refundDeadline s)); [|lia]. apply IHk; assumption.
  - intros Hk. apply IHk in Hk; [|exact Hst|exact Hnow].
    eapply claim_kept_trans; [|exact Hk]. split; reflexivity.
  - rewrite transferOwnership_cases.
    destruct (negb _); [apply IHk; assumption|].
    destruct (_ =? _); [apply IHk; assumption|].
    intros Hk. apply IHk in Hk; [|exact Hst|exact Hnow].
    eapply claim_kept_trans; [apply _transferOwnership_claim_kept|exact Hk].
  - rewrite renounceOwnership_cases.
    destruct (negb _); [apply IHk; assumption|].
    intros Hk. apply IHk in Hk; [|exact Hst|exact Hnow].
    eapply claim_kept_trans; [apply _transferOwnership_claim_kept|exact Hk].
  - apply IHk; assumption.
  - apply IHk; assumption.
  - destruct (run now attempt s) as [s1|] eqn:E; [|apply IHk; assumption].
    intros Hk. apply IHattempt in E; [|exact Hst|exact Hnow].
    eapply claim_kept_trans; [exact E|].
    destruct E as [_ E2 E3 _ _].
    apply IHk in Hk; [exact Hk|congruence|lia].
Qed.

Lemma claim_transfer_cannot_reenter_witness :
  let s := set_balance 0 (before_transfer (Scenario.asAlice Scenario.deployedAt)
                            (Scenario.deployed 0)) in
  let c := ReenterClaimRefund Scenario.bob [] 1 Accept
             (fun ok => if ok then Accept
                        else ReenterRenounceOwnership Scenario.owner (fun _ => Accept)) in
  run Scenario.deployedAt c s = Some (_transferOwnership 0 s)
  /\ claimed (_transferOwnership 0 s) = claimed s
  /\ payments (_transferOwnership 0 s) = payments s.
Proof.
  cbv zeta.
  assert (run Scenario.deployedAt
            (ReenterClaimRefund Scenario.bob [] 1 Accept
               (fun ok => if ok then Accept
                          else ReenterRenounceOwnership Scenario.owner (fun _ => Accept)))
            (set_balance 0 (before_transfer (Scenario.asAlice Scenario.deployedAt)
                              (Scenario.deployed 0)))
          = Some (_transferOwnership 0
                    (set_balance 0 (before_transfer (Scenario.asAlice Scenario.deployedAt)
                                      (Scenario.deployed 0))))) as Hrun.
  { cbn [run]. rewrite claimRefund_cases. cbn [run]. rewrite renounceOwnership_cases.
    reflexivity. }
  split; [exact Hrun|].
  assert (Scenario.deployedAt
          <= refundDeadline
               (set_balance 0 (before_transfer (Scenario.asAlice Scenario.deployedAt)
                                 (Scenario.deployed 0)))) as Hnow.
  { cbv [refundDeadline set_balance before_transfer set_claimed set_status
         Scenario.deployed].
    unfold Scenario.deployedAt, REFUND_PERIOD_DURATION. lia. }
  destruct (claim_transfer_cannot_reenter Scenario.deployedAt _
              (set_balance 0 (before_transfer (Scenario.asAlice Scenario.deployedAt)
                                (Scenario.deployed 0)))
              _ eq_refl Hnow Hrun)
    as (Hclaimed & _ & _ & _ & Hpayments).
  split; assumption.
Defined.

End LedgerInvariants.
